(** * Snapshot_HTML_Website_to_Internet_Archive: the change-detection and
      snapshot core of [WebsiteArchiver]

    A shallow embedding of [Snapshot_HTML_Website_to_Internet_Archive_v1.py].
    Python [str] values are Rocq strings (sequences of code points below 256),
    [bytes] values are lists of bytes, dictionaries are finite maps, and the
    methods of [WebsiteArchiver] that touch the disk or the network are
    functions in a state monad over a record [World] that holds the output
    tree, the in-memory asset cache and the trace of HTTP requests. *)

From Stdlib Require Import Ascii String List Bool Arith Lia.
From stdpp Require Import gmap strings list fin_maps sorting.

(** ** Characters and text *)

Abbreviation chars := (list ascii).
Abbreviation bytes := (list Byte.byte).

Definition explode : string -> chars := list_ascii_of_string.
Definition implode : chars -> string := string_of_list_ascii.

Definition ascii_code (c : ascii) : nat := nat_of_ascii c.

Definition in_range (lo hi c : ascii) : bool :=
  (ascii_code lo <=? ascii_code c) && (ascii_code c <=? ascii_code hi).

(** [str.isspace] on code points below 256; the regular expression class
    [\s] of a [str] pattern matches the same characters. *)
Definition is_space (c : ascii) : bool :=
  let n := ascii_code c in
  ((9 <=? n) && (n <=? 13)) || ((28 <=? n) && (n <=? 32))
  || (n =? 133) || (n =? 160).

(** [\d]: the decimal digits (the only characters of category Nd below 256). *)
Definition is_digit (c : ascii) : bool := in_range "0" "9" c.

Definition is_upper (c : ascii) : bool := in_range "A" "Z" c.
Definition is_lower (c : ascii) : bool := in_range "a" "z" c.
Definition is_alpha (c : ascii) : bool := is_upper c || is_lower c.

(** [str.lower] on one ASCII character. *)
Definition to_lower (c : ascii) : ascii :=
  if is_upper c then ascii_of_nat (ascii_code c + 32) else c.

Definition char_eqb (a b : ascii) : bool := Ascii.eqb a b.

(** [s.startswith(p)] and [s.endswith(p)] on character lists; [prefix_by]
    compares with a given test, for the matching that ignores case. *)
Fixpoint prefix_by (eq : ascii -> ascii -> bool) (p s : chars) : bool :=
  match p, s with
  | [], _ => true
  | a :: p', b :: s' => eq a b && prefix_by eq p' s'
  | _ :: _, [] => false
  end.

Definition starts_with (p s : chars) : bool := prefix_by char_eqb p s.

Definition ends_with (p s : chars) : bool := starts_with (rev p) (rev s).

Definition startswith (s p : string) : bool := starts_with (explode p) (explode s).
Definition endswith (s p : string) : bool := ends_with (explode p) (explode s).

(** [s.lstrip(c)], [s.rstrip(c)] and [s.strip(c)] for a one-character set. *)
Fixpoint lstrip_char (c : ascii) (s : chars) : chars :=
  match s with
  | a :: s' => if char_eqb a c then lstrip_char c s' else s
  | [] => []
  end.

Definition rstrip_char (c : ascii) (s : chars) : chars :=
  rev (lstrip_char c (rev s)).

Definition strip_char (c : ascii) (s : chars) : chars :=
  rstrip_char c (lstrip_char c s).

(** [s.replace(a, b)] for one-character [a] and [b]. *)
Definition replace_char (a b : ascii) (s : chars) : chars :=
  map (fun c => if char_eqb c a then b else c) s.

(** ** Filename derivation

    Lines 284-288 of [snapshot] (and 190-194 of [_archive_page]):
<<
    path = parsed.path.strip('/') or 'index'
    if not path.endswith('.html'):
        path = path.replace('/', '_') + '.html'
>>
    [page_filename] takes [parsed.path], the path component of the URL. *)
Definition page_filename (url_path : string) : string :=
  let path := strip_char "/" (explode url_path) in
  let path := match path with [] => explode "index" | _ => path end in
  if ends_with (explode ".html") path
  then implode path
  else implode (replace_char "/" "_" path ++ explode ".html").

(** [path.replace('.html', '_original.html')] is applied to the derived
    filename at line 296; [replace_all] is [str.replace] for a non-empty
    pattern: leftmost occurrences, not overlapping. *)
Fixpoint replace_all_skip (pat rep : chars) (skip : nat) (s : chars) : chars :=
  match s with
  | [] => []
  | c :: s' =>
      match skip with
      | S k => replace_all_skip pat rep k s'
      | O =>
          if starts_with pat s
          then rep ++ replace_all_skip pat rep (pred (length pat)) s'
          else c :: replace_all_skip pat rep 0 s'
      end
  end.

Definition str_replace (s pat rep : string) : string :=
  implode (replace_all_skip (explode pat) (explode rep) 0 (explode s)).

Definition original_filename (file : string) : string :=
  str_replace file ".html" "_original.html".

(** ** Regular expressions

    The fragment of Python's [re] syntax that the patterns of the program
    use: literals, character classes, greedy [*], [+] and [?], alternation
    and concatenation.  [rmatch] is the backtracking matcher: greedy
    quantifiers take as much as they can and give characters back when the
    rest of the pattern fails, alternatives are tried from left to right.
    It returns the number of characters of the match that starts at the
    head of the subject. *)
Inductive regex : Type :=
| Lit (l : string)               (* literal text *)
| LitI (l : string)              (* literal text under re.IGNORECASE; [l] is lower-case *)
| Cls (p : ascii -> bool)        (* one character of a class *)
| Star (p : ascii -> bool)       (* class*, greedy *)
| Plus (p : ascii -> bool)       (* class+, greedy *)
| Opt (r : regex)                (* r?, greedy *)
| Alt (r1 r2 : regex)            (* r1|r2 *)
| Seq (r1 r2 : regex).           (* r1 r2 *)

Fixpoint lit_loop (eq : ascii -> ascii -> bool) (l : chars) (s : chars)
    (n : nat) (k : chars -> nat -> option nat) : option nat :=
  match l with
  | [] => k s n
  | a :: l' =>
      match s with
      | c :: s' => if eq a c then lit_loop eq l' s' (S n) k else None
      | [] => None
      end
  end.

Fixpoint star_loop (p : ascii -> bool) (s : chars) (n : nat)
    (k : chars -> nat -> option nat) : option nat :=
  match s with
  | c :: s' =>
      if p c then
        match star_loop p s' (S n) k with
        | Some r => Some r
        | None => k s n
        end
      else k s n
  | [] => k s n
  end.

Fixpoint rmatch (r : regex) (s : chars) (n : nat)
    (k : chars -> nat -> option nat) : option nat :=
  match r with
  | Lit l => lit_loop char_eqb (explode l) s n k
  | LitI l => lit_loop (fun a c => char_eqb a (to_lower c)) (explode l) s n k
  | Cls p =>
      match s with
      | c :: s' => if p c then k s' (S n) else None
      | [] => None
      end
  | Star p => star_loop p s n k
  | Plus p =>
      match s with
      | c :: s' => if p c then star_loop p s' (S n) k else None
      | [] => None
      end
  | Opt r1 =>
      match rmatch r1 s n k with
      | Some x => Some x
      | None => k s n
      end
  | Alt r1 r2 =>
      match rmatch r1 s n k with
      | Some x => Some x
      | None => rmatch r2 s n k
      end
  | Seq r1 r2 => rmatch r1 s n (fun s' n' => rmatch r2 s' n' k)
  end.

(** Length of the match of [r] at the head of [s], if there is one. *)
Definition match_at (r : regex) (s : chars) : option nat :=
  rmatch r s 0 (fun _ n => Some n).

(** [re.sub] with a constant replacement: the subject is scanned from the
    left; where the pattern matches, the match is replaced and the scan goes
    on after it.  [skip] counts the characters of the current match that are
    still to be dropped.  No pattern of the program matches the empty
    string, so an empty match is not a replacement site here. *)
Fixpoint sub_skip (m : chars -> option nat) (rep : chars) (skip : nat)
    (s : chars) : chars :=
  match s with
  | [] => []
  | c :: s' =>
      match skip with
      | S k => sub_skip m rep k s'
      | O =>
          match m s with
          | Some (S n) => rep ++ sub_skip m rep n s'
          | _ => c :: sub_skip m rep 0 s'
          end
      end
  end.

Definition sub_chars (r : regex) (rep : string) (s : chars) : chars :=
  sub_skip (match_at r) (explode rep) 0 s.

(** [re.sub(pattern, repl, s)] on strings. *)
Definition re_sub (r : regex) (rep : string) (s : string) : string :=
  implode (sub_chars r rep (explode s)).

(** [' '.join(text.split())] *)
Fixpoint split_ws (cur : chars) (s : chars) : list chars :=
  match s with
  | [] => match cur with [] => [] | _ => [rev cur] end
  | c :: s' =>
      if is_space c
      then match cur with [] => split_ws [] s' | _ => rev cur :: split_ws [] s' end
      else split_ws (c :: cur) s'
  end.

Fixpoint join_sp (ws : list chars) : chars :=
  match ws with
  | [] => []
  | [w] => w
  | w :: ws' => w ++ " "%char :: join_sp ws'
  end.

Definition collapse_ws (s : chars) : chars := join_sp (split_ws [] s).

(** ** The patterns of [_normalize_html_for_comparison] *)

Definition one_of (l : string) (c : ascii) : bool :=
  existsb (char_eqb c) (explode l).

Definition dquote : ascii := "034"%char.

(** The class that ends a parameter value: any character but a double
    quote, a single quote, [>] and white space. *)
Definition url_char (c : ascii) : bool :=
  negb (char_eqb c dquote || one_of "'>" c || is_space c).

(** The four tracking-parameter patterns: [\?_gl=], [&_gl=], [\?_ga=] and
    [&_ga=], each followed by one or more characters of [url_char]. *)
Definition re_q_gl : regex := Seq (Lit "?_gl=") (Plus url_char).
Definition re_a_gl : regex := Seq (Lit "&_gl=") (Plus url_char).
Definition re_q_ga : regex := Seq (Lit "?_ga=") (Plus url_char).
Definition re_a_ga : regex := Seq (Lit "&_ga=") (Plus url_char).

(** [window\.__CF\$cv\$params=\{[^}]+\}] *)
Definition re_cf_params : regex :=
  Seq (Lit "window.__CF$cv$params={")
      (Seq (Plus (fun c => negb (char_eqb c "}"))) (Lit "}")).

(** [r:'[a-f0-9]+'] *)
Definition re_cf_r : regex :=
  Seq (Lit "r:'")
      (Seq (Plus (fun c => in_range "a" "f" c || is_digit c)) (Lit "'")).

(** [t:'[A-Za-z0-9+/=]+'] *)
Definition re_cf_t : regex :=
  Seq (Lit "t:'")
      (Seq (Plus (fun c => is_alpha c || is_digit c || one_of "+/=" c))
           (Lit "'")).

(** [\d+\s*(h\.|hours?|mins?|minutes?|days?|weeks?|months?)\s*(ago)?\.?]
    with [flags=re.IGNORECASE] *)
Definition re_time_unit : regex :=
  Alt (LitI "h.")
 (Alt (Seq (LitI "hour") (Opt (LitI "s")))
 (Alt (Seq (LitI "min") (Opt (LitI "s")))
 (Alt (Seq (LitI "minute") (Opt (LitI "s")))
 (Alt (Seq (LitI "day") (Opt (LitI "s")))
 (Alt (Seq (LitI "week") (Opt (LitI "s")))
      (Seq (LitI "month") (Opt (LitI "s")))))))).

Definition re_time : regex :=
  Seq (Plus is_digit)
 (Seq (Star is_space)
 (Seq re_time_unit
 (Seq (Star is_space)
 (Seq (Opt (LitI "ago")) (Opt (Lit ".")))))).

(** [<img[^>]*facebook\.com/tr[^>]*>] *)
Definition not_gt (c : ascii) : bool := negb (char_eqb c ">").

Definition re_fb_pixel : regex :=
  Seq (Lit "<img")
 (Seq (Star not_gt)
 (Seq (Lit "facebook.com/tr")
 (Seq (Star not_gt) (Lit ">")))).

(** Lines 437-451: the passes over the serialised document. *)
Definition normalize_text (text : string) : string :=
  let text := re_sub re_cf_params "window.__CF$cv$params={[REMOVED]}" text in
  let text := re_sub re_cf_r "r:'[REMOVED]'" text in
  let text := re_sub re_cf_t "t:'[REMOVED]'" text in
  let text := re_sub re_time "[TIME]" text in
  let text := re_sub re_fb_pixel "" text in
  implode (collapse_ws (explode text)).

(** Lines 420-423 (and 428-431): the tracking parameters of one attribute
    value. *)
Definition strip_tracking_params (v : string) : string :=
  let v := re_sub re_q_gl "" v in
  let v := re_sub re_a_gl "" v in
  let v := re_sub re_q_ga "" v in
  re_sub re_a_ga "" v.

(** ** The tag tree

    What [BeautifulSoup(html, 'html.parser')] builds: a forest of strings
    and tags; a tag has a name, its attributes in document order and its
    children. *)
Inductive node : Type :=
| NavigableString (s : string)
| Tag (name : string) (attrs : list (string * string)) (children : list node).

Abbreviation soup := (list node).

(** [tag.get(key)] and [tag[key] = value] *)
Fixpoint attr_get (key : string) (attrs : list (string * string)) : option string :=
  match attrs with
  | [] => None
  | (k, v) :: rest => if String.eqb k key then Some v else attr_get key rest
  end.

Fixpoint attr_set (key value : string) (attrs : list (string * string))
    : list (string * string) :=
  match attrs with
  | [] => [(key, value)]
  | (k, v) :: rest =>
      if String.eqb k key then (k, value) :: rest
      else (k, v) :: attr_set key value rest
  end.

Definition name_in (names : list string) (name : string) : bool :=
  existsb (String.eqb name) names.

(** A loop [for tag in soup.find_all(...): tag[...] = ...] that rewrites
    attributes only: every tag of the document is visited, [f] leaves the
    tags that the filter of [find_all] rejects as they are. *)
Fixpoint map_tags (f : string -> list (string * string) -> list (string * string))
    (n : node) : node :=
  match n with
  | NavigableString s => NavigableString s
  | Tag name attrs children => Tag name (f name attrs) (map (map_tags f) children)
  end.

(** Lines 417-424: [find_all(['a', 'link', 'script', 'img'], href=True)] *)
Definition strip_href (name : string) (attrs : list (string * string))
    : list (string * string) :=
  if name_in ["a"; "link"; "script"; "img"] name then
    match attr_get "href" attrs with
    | Some href => attr_set "href" (strip_tracking_params href) attrs
    | None => attrs
    end
  else attrs.

(** Lines 426-432: [find_all(['img', 'script'], src=True)] *)
Definition strip_src (name : string) (attrs : list (string * string))
    : list (string * string) :=
  if name_in ["img"; "script"] name then
    match attr_get "src" attrs with
    | Some src => attr_set "src" (strip_tracking_params src) attrs
    | None => attrs
    end
  else attrs.

Definition strip_tracking (doc : soup) : soup :=
  map (map_tags strip_src) (map (map_tags strip_href) doc).

(** ** Serialisation: [str(soup)]

    The default (minimal) formatter: [&], [<] and [>] are escaped in strings
    and attribute values, except in the strings of [script] and [style]
    elements; an attribute value is put in double quotes, or in single quotes
    when it holds a double quote and no single quote; a void element without
    children is written [<name .../>]. *)
Fixpoint escape_min (s : chars) : chars :=
  match s with
  | [] => []
  | c :: s' =>
      (if char_eqb c "&" then explode "&amp;"
       else if char_eqb c "<" then explode "&lt;"
       else if char_eqb c ">" then explode "&gt;"
       else [c]) ++ escape_min s'
  end.

Definition quoted_attribute_value (v : chars) : chars :=
  if existsb (char_eqb dquote) v then
    if existsb (char_eqb "'") v
    then dquote :: flat_map (fun c => if char_eqb c dquote then explode "&quot;" else [c]) v
                   ++ [dquote]
    else "'"%char :: v ++ ["'"%char]
  else dquote :: v ++ [dquote].

Definition empty_element_tags : list string :=
  ["area"; "base"; "br"; "col"; "embed"; "hr"; "img"; "input"; "keygen";
   "link"; "menuitem"; "meta"; "param"; "source"; "track"; "wbr";
   "basefont"; "bgsound"; "command"; "frame"; "image"; "isindex"; "nextid";
   "spacer"].

Definition cdata_containing_tags : list string := ["script"; "style"].

Definition attrs_str (attrs : list (string * string)) : chars :=
  flat_map (fun kv => " "%char :: explode (fst kv) ++ "="%char
                      :: quoted_attribute_value (escape_min (explode (snd kv))))
           attrs.

Fixpoint node_chars (raw : bool) (n : node) : chars :=
  match n with
  | NavigableString s => if raw then explode s else escape_min (explode s)
  | Tag name attrs children =>
      match children with
      | [] =>
          if name_in empty_element_tags name
          then "<"%char :: explode name ++ attrs_str attrs ++ explode "/>"
          else "<"%char :: explode name ++ attrs_str attrs ++ ">"%char
               :: explode "</" ++ explode name ++ [">"%char]
      | _ =>
          "<"%char :: explode name ++ attrs_str attrs ++ ">"%char
          :: flat_map (node_chars (name_in cdata_containing_tags name)) children
          ++ explode "</" ++ explode name ++ [">"%char]
      end
  end.

Definition soup_str (doc : soup) : string :=
  implode (flat_map (node_chars false) doc).

(** ** A model of the parser

    [BeautifulSoup(html, 'html.parser')] is a library outside this
    repository.  [html_parser] models it on the documents the examples below
    are made of: text, start tags with double-quoted, single-quoted, unquoted
    or valueless attributes, self-closing tags, end tags, the raw text of
    [script] and [style], and the four character references that [soup_str]
    itself writes.  Comments, declarations, processing instructions, other
    character references and tags cut short by the end of the input are
    outside the model.  The builder does what the library does with
    [html.parser]: names are lower-cased, a void element is closed at once, an
    end tag closes the nearest open element of that name and is dropped when
    there is none, what is still open at the end of the input is closed
    there; a string made of ASCII white space only becomes a single newline
    or space outside [pre] and [textarea]; the values of the attributes that
    hold lists ([class], [rel], ...) are split at white space. *)
Inductive token : Type :=
| TText (s : chars)
| TStart (name : chars) (attrs : list (string * string)) (selfclosing : bool)
| TEnd (name : chars).

Inductive lex_mode : Type :=
| MText (acc : chars)
| MRaw (elem : chars) (acc : chars)
| MEndOpen
| MTagName (acc : chars)
| MAttrs (name : chars) (attrs : list (string * string))
| MSlash (name : chars) (attrs : list (string * string))
| MAttrName (name : chars) (attrs : list (string * string)) (acc : chars)
| MAfterName (name : chars) (attrs : list (string * string)) (key : chars)
| MBeforeValue (name : chars) (attrs : list (string * string)) (key : chars)
| MValue (q : option ascii) (name : chars) (attrs : list (string * string))
         (key : chars) (acc : chars)
| MEndTag (acc : chars).

Definition lower (s : chars) : chars := map to_lower s.

(** The character references [&amp;], [&lt;], [&gt;] and [&quot;]. *)
Fixpoint decode_refs (skip : nat) (s : chars) : chars :=
  match s with
  | [] => []
  | c :: s' =>
      match skip with
      | S k => decode_refs k s'
      | O =>
          if starts_with (explode "&amp;") s then "&"%char :: decode_refs 4 s'
          else if starts_with (explode "&lt;") s then "<"%char :: decode_refs 3 s'
          else if starts_with (explode "&gt;") s then ">"%char :: decode_refs 3 s'
          else if starts_with (explode "&quot;") s then dquote :: decode_refs 5 s'
          else c :: decode_refs 0 s'
      end
  end.

Definition flush_text (raw : bool) (acc : chars) : list token :=
  match acc with
  | [] => []
  | _ => [TText (if raw then rev acc else decode_refs 0 (rev acc))]
  end.

Definition add_attr (attrs : list (string * string)) (key value : chars)
    : list (string * string) :=
  attr_set (implode (lower (rev key))) (implode (decode_refs 0 (rev value))) attrs.

Definition after_start (name : chars) : lex_mode :=
  if name_in cdata_containing_tags (implode (lower (rev name)))
  then MRaw (lower (rev name)) []
  else MText [].

Definition start_token (name : chars) (attrs : list (string * string))
    (selfclosing : bool) : token :=
  TStart (lower (rev name)) attrs selfclosing.

Fixpoint lex (m : lex_mode) (s : chars) : list token :=
  match s with
  | [] =>
      match m with
      | MText acc => flush_text false acc
      | MRaw _ acc => flush_text true acc
      | _ => []
      end
  | c :: s' =>
      match m with
      | MText acc =>
          if char_eqb c "<" then
            match s' with
            | d :: _ =>
                if is_alpha d then flush_text false acc ++ lex (MTagName []) s'
                else if char_eqb d "/" then flush_text false acc ++ lex MEndOpen s'
                else lex (MText (c :: acc)) s'
            | [] => lex (MText (c :: acc)) s'
            end
          else lex (MText (c :: acc)) s'
      | MRaw elem acc =>
          if char_eqb c "<" && starts_with ("/"%char :: elem) (lower s')
          then flush_text true acc ++ lex MEndOpen s'
          else lex (MRaw elem (c :: acc)) s'
      | MEndOpen => lex (MEndTag []) s'
      | MTagName acc =>
          if is_space c then lex (MAttrs acc []) s'
          else if char_eqb c "/" then lex (MSlash acc []) s'
          else if char_eqb c ">" then start_token acc [] false :: lex (after_start acc) s'
          else lex (MTagName (c :: acc)) s'
      | MAttrs name attrs =>
          if is_space c then lex (MAttrs name attrs) s'
          else if char_eqb c "/" then lex (MSlash name attrs) s'
          else if char_eqb c ">" then start_token name attrs false :: lex (after_start name) s'
          else lex (MAttrName name attrs [c]) s'
      | MSlash name attrs =>
          if char_eqb c ">" then start_token name attrs true :: lex (MText []) s'
          else if is_space c then lex (MAttrs name attrs) s'
          else if char_eqb c "/" then lex (MSlash name attrs) s'
          else lex (MAttrName name attrs [c]) s'
      | MAttrName name attrs acc =>
          if char_eqb c "=" then lex (MBeforeValue name attrs acc) s'
          else if is_space c then lex (MAfterName name attrs acc) s'
          else if char_eqb c "/" then lex (MSlash name (add_attr attrs acc [])) s'
          else if char_eqb c ">"
          then start_token name (add_attr attrs acc []) false :: lex (after_start name) s'
          else lex (MAttrName name attrs (c :: acc)) s'
      | MAfterName name attrs key =>
          if is_space c then lex (MAfterName name attrs key) s'
          else if char_eqb c "=" then lex (MBeforeValue name attrs key) s'
          else if char_eqb c "/" then lex (MSlash name (add_attr attrs key [])) s'
          else if char_eqb c ">"
          then start_token name (add_attr attrs key []) false :: lex (after_start name) s'
          else lex (MAttrName name (add_attr attrs key []) [c]) s'
      | MBeforeValue name attrs key =>
          if is_space c || char_eqb c "=" then lex (MBeforeValue name attrs key) s'
          else if char_eqb c dquote || char_eqb c "'"
          then lex (MValue (Some c) name attrs key []) s'
          else if char_eqb c ">"
          then start_token name (add_attr attrs key []) false :: lex (after_start name) s'
          else lex (MValue None name attrs key [c]) s'
      | MValue (Some q) name attrs key acc =>
          if char_eqb c q then lex (MAttrs name (add_attr attrs key acc)) s'
          else lex (MValue (Some q) name attrs key (c :: acc)) s'
      | MValue None name attrs key acc =>
          if is_space c then lex (MAttrs name (add_attr attrs key acc)) s'
          else if char_eqb c ">"
          then start_token name (add_attr attrs key acc) false :: lex (after_start name) s'
          else lex (MValue None name attrs key (c :: acc)) s'
      | MEndTag acc =>
          if char_eqb c ">" then TEnd (lower (collapse_ws (rev acc))) :: lex (MText []) s'
          else lex (MEndTag (c :: acc)) s'
      end
  end.

(** The attributes whose value is a white-space separated list. *)
Definition cdata_list_attribute (tag key : string) : bool :=
  name_in ["class"; "accesskey"; "dropzone"] key
  || (name_in ["a"; "link"] tag && name_in ["rel"; "rev"] key)
  || (name_in ["td"; "th"] tag && String.eqb key "headers")
  || (String.eqb tag "form" && String.eqb key "accept-charset")
  || (String.eqb tag "object" && String.eqb key "archive")
  || (String.eqb tag "area" && String.eqb key "rel")
  || (String.eqb tag "icon" && String.eqb key "sizes")
  || (String.eqb tag "iframe" && String.eqb key "sandbox")
  || (String.eqb tag "output" && String.eqb key "for").

Definition parsed_attrs (tag : string) (attrs : list (string * string))
    : list (string * string) :=
  map (fun kv =>
         if cdata_list_attribute tag (fst kv)
         then (fst kv, implode (collapse_ws (explode (snd kv))))
         else kv) attrs.

Definition ascii_space (c : ascii) : bool :=
  let n := ascii_code c in
  (n =? 32) || (n =? 10) || (n =? 9) || (n =? 12) || (n =? 13).

Definition parsed_string (preserve : bool) (s : chars) : string :=
  if forallb ascii_space s && negb preserve
  then if existsb (char_eqb "010") s then implode ["010"%char] else " "
  else implode s.

(** An open element: its name, its attributes and, in reverse, the nodes
    that precede it in its parent. *)
Definition frame : Type := string * list (string * string) * list node.

Fixpoint close_all (stack : list frame) (cur : list node) : soup :=
  match stack with
  | [] => rev cur
  | (name, attrs, before) :: stack' =>
      close_all stack' (Tag name attrs (rev cur) :: before)
  end.

Fixpoint pop_to_tag (name : string) (stack : list frame) (cur : list node)
    : list frame * list node :=
  match stack with
  | [] => ([], cur)
  | (n, attrs, before) :: stack' =>
      let closed := Tag n attrs (rev cur) :: before in
      if String.eqb n name then (stack', closed) else pop_to_tag name stack' closed
  end.

Definition preserve_whitespace (stack : list frame) : bool :=
  existsb (fun f => name_in ["pre"; "textarea"] (fst (fst f))) stack.

Fixpoint build (toks : list token) (stack : list frame) (cur : list node) : soup :=
  match toks with
  | [] => close_all stack cur
  | TText s :: rest =>
      build rest stack (NavigableString (parsed_string (preserve_whitespace stack) s) :: cur)
  | TStart name attrs selfclosing :: rest =>
      let name := implode name in
      let attrs := parsed_attrs name attrs in
      if selfclosing || name_in empty_element_tags name
      then build rest stack (Tag name attrs [] :: cur)
      else build rest ((name, attrs, cur) :: stack) []
  | TEnd name :: rest =>
      let name := implode name in
      if existsb (fun f => String.eqb (fst (fst f)) name) stack
      then let '(stack', cur') := pop_to_tag name stack cur in build rest stack' cur'
      else build rest stack cur
  end.

Definition html_parser (html : string) : soup :=
  build (lex (MText []) (explode html)) [] [].

(** ** The state of the archiver

    The output tree and the instance fields the methods read and write.
    [asset_files] are the files below [<output>/assets/], by path relative to
    the output directory; [cache_index] is [assets/asset_cache.json];
    [snapshots] are the directories of [self.snapshots_dir] by name;
    [debug_files] are the files of [debug_comparison/]; [requests] is the
    trace of the URLs that [requests.get] was called with.  The log is not
    part of the model. *)
Inductive PageRecord : Type :=
| PageOk (url file : string) (original_file : option string) (assets : list string)
| PageFailed (url error : string).

Record Manifest : Type := {
  m_timestamp : string;
  m_base_url : string;
  m_pages : list PageRecord
}.

(** A line of [CHANGES.txt]; lines that format a number keep the number. *)
Inductive SummaryLine : Type :=
| SL (text : string)
| SLArchived (pages : nat)
| SLContentLength (prev curr : nat)
| SLApproxChange (len_diff len_sum : nat)
| SLPagesMonitored (pages : nat).

Record SnapshotDir : Type := {
  files : gmap string string;
  manifest : option Manifest;
  changes : option (list SummaryLine)
}.

Record World : Type := {
  asset_cache : gmap string string;
  cache_index : option (gmap string string);
  asset_files : gmap string bytes;
  snapshots : gmap string SnapshotDir;
  debug_files : gmap string string;
  requests : list string
}.

(** What is on disk. *)
Definition disk (w : World)
    : option (gmap string string) * gmap string bytes
      * gmap string SnapshotDir * gmap string string :=
  (cache_index w, asset_files w, snapshots w, debug_files w).

(** A computation that reads and writes the world and may raise. *)
Inductive Result (A : Type) : Type :=
| Ok (a : A)
| Raise (e : string).
Arguments Ok {A} a.
Arguments Raise {A} e.

Definition M (A : Type) : Type := World -> Result A * World.

Definition ret {A} (a : A) : M A := fun w => (Ok a, w).

Definition bind {A B} (c : M A) (k : A -> M B) : M B :=
  fun w =>
    match c w with
    | (Ok a, w') => k a w'
    | (Raise e, w') => (Raise e, w')
    end.

Definition raise {A} (e : string) : M A := fun w => (Raise e, w).
Definition get_world : M World := fun w => (Ok w, w).
Definition modify (f : World -> World) : M unit := fun w => (Ok tt, f w).

Notation "x <- c ;; k" := (bind c (fun x => k))
  (at level 100, c at next level, right associativity).
Notation "c ;;; k" := (bind c (fun _ => k))
  (at level 100, right associativity).

Definition mapM {A B} (f : A -> M B) : list A -> M (list B) :=
  fix go (l : list A) : M (list B) :=
    match l with
    | [] => ret []
    | a :: l' => b <- f a ;; bs <- go l' ;; ret (b :: bs)
    end.

Definition set_asset_cache (c : gmap string string) (w : World) : World :=
  {| asset_cache := c; cache_index := cache_index w; asset_files := asset_files w;
     snapshots := snapshots w; debug_files := debug_files w; requests := requests w |}.

Definition set_cache_index (c : gmap string string) (w : World) : World :=
  {| asset_cache := asset_cache w; cache_index := Some c; asset_files := asset_files w;
     snapshots := snapshots w; debug_files := debug_files w; requests := requests w |}.

Definition write_asset_file (path : string) (content : bytes) (w : World) : World :=
  {| asset_cache := asset_cache w; cache_index := cache_index w;
     asset_files := <[path := content]> (asset_files w);
     snapshots := snapshots w; debug_files := debug_files w; requests := requests w |}.

Definition set_snapshots (s : gmap string SnapshotDir) (w : World) : World :=
  {| asset_cache := asset_cache w; cache_index := cache_index w;
     asset_files := asset_files w;
     snapshots := s; debug_files := debug_files w; requests := requests w |}.

Definition write_debug_file (name content : string) (w : World) : World :=
  {| asset_cache := asset_cache w; cache_index := cache_index w;
     asset_files := asset_files w; snapshots := snapshots w;
     debug_files := <[name := content]> (debug_files w); requests := requests w |}.

Definition log_request (url : string) (w : World) : World :=
  {| asset_cache := asset_cache w; cache_index := cache_index w;
     asset_files := asset_files w; snapshots := snapshots w;
     debug_files := debug_files w; requests := requests w ++ [url] |}.

(** An entry of [temp_pages] (lines 242-253). *)
Inductive TempPage : Type :=
| TempOk (url html : string)
| TempFailed (url error : string).

(** The answer of [requests.get(url, ...)] followed by
    [response.raise_for_status()]: the body as text and as bytes, or the
    exception (time-out, connection error, status that is not 2xx). *)
Inductive HttpResult : Type :=
| HttpOk (text : string) (content : bytes)
| HttpError (e : string).

(** [os.path.splitext(path)[1]]: the extension starts at the last dot of the
    last component, unless only dots precede it there. *)
Fixpoint span_until (c : ascii) (s : chars) : chars * option chars :=
  match s with
  | [] => ([], None)
  | a :: s' =>
      if char_eqb a c then ([], Some s')
      else let '(before, after) := span_until c s' in (a :: before, after)
  end.

Definition splitext_ext (path : chars) : chars :=
  let rbase := fst (span_until "/" (rev path)) in
  match span_until "." rbase with
  | (rext, Some rstem) =>
      if existsb (fun d => negb (char_eqb d ".")) rstem
      then "."%char :: rev rext
      else []
  | (_, None) => []
  end.

(** ** The methods of [WebsiteArchiver] *)
Section Archiver.

(** The libraries the class calls: the HTML parser, [urljoin],
    [urlparse(url).path] and [hashlib.sha256(content).hexdigest()]. *)
Variable BeautifulSoup : string -> soup.
Variable urljoin : string -> string -> string.
Variable url_path : string -> string.
Variable sha256_hexdigest : bytes -> string.

(** The network: the answer to the [n]-th request of the process. *)
Variable http : nat -> string -> HttpResult.

(** [self.base_url] and the text of the path [self.snapshots_dir] *)
Variable base_url : string.
Variable snapshots_dir : string.

(** *** [_normalize_html_for_comparison] (lines 408-453) *)
Definition _normalize_html_for_comparison (html : string) : string :=
  normalize_text (soup_str (strip_tracking (BeautifulSoup html))).

Definition requests_get (url : string) : M HttpResult :=
  fun w => (Ok (http (length (requests w)) url), log_request url w).

(** *** [_get_file_hash] (lines 70-72) *)
Definition _get_file_hash (content : bytes) : string :=
  implode (take 16 (explode (sha256_hexdigest content))).

(** *** [_download_asset] (lines 74-85) *)
Definition _download_asset (url : string) : M (option bytes) :=
  r <- requests_get url ;;
  match r with
  | HttpOk _ content => ret (Some content)
  | HttpError _ => ret None
  end.

(** *** [_save_asset] (lines 87-129) *)
Definition asset_type_of (ext : string) : string :=
  if name_in [".jpg"; ".jpeg"; ".png"; ".gif"; ".svg"; ".webp"; ".ico"] ext then "images"
  else if name_in [".css"] ext then "css"
  else if name_in [".js"] ext then "js"
  else if name_in [".woff"; ".woff2"; ".ttf"; ".eot"] ext then "fonts"
  else "other".

Definition asset_ext (url : string) : string :=
  match splitext_ext (explode (url_path url)) with
  | [] => ".bin"
  | ext => implode ext
  end.

Definition _save_asset_cache : M unit :=
  modify (fun w => set_cache_index (asset_cache w) w).

Definition _save_asset (url : string) (content : bytes) : M string :=
  let content_hash := _get_file_hash content in
  w <- get_world ;;
  match asset_cache w !! content_hash with
  | Some path => ret path
  | None =>
      let ext := asset_ext url in
      let asset_type := asset_type_of ext in
      let filename := content_hash +:+ ext in
      let relative_path := "assets/" +:+ asset_type +:+ "/" +:+ filename in
      modify (write_asset_file relative_path content) ;;;
      modify (fun w => set_asset_cache (<[content_hash := relative_path]> (asset_cache w)) w) ;;;
      _save_asset_cache ;;;
      ret relative_path
  end.

(** *** [_rewrite_html] (lines 131-173)

    Each loop visits the tags of the document in document order; a tag
    that the filter of [find_all] rejects is left as it is.  [fetch_into]
    is the body the three loops share: download, and on success store and
    point the attribute at the stored copy.  The loop over inline styles
    only writes to the log. *)
Definition attrs_t : Type := list (string * string).

Fixpoint mapM_tags (f : string -> attrs_t -> M (attrs_t * list string))
    (n : node) : M (node * list string) :=
  match n with
  | NavigableString s => ret (NavigableString s, [])
  | Tag name attrs children =>
      r <- f name attrs ;;
      rs <- mapM (mapM_tags f) children ;;
      ret (Tag name (fst r) (map fst rs), snd r ++ concat (map snd rs))
  end.

Definition mapM_soup (f : string -> attrs_t -> M (attrs_t * list string))
    (doc : soup) : M (soup * list string) :=
  rs <- mapM (mapM_tags f) doc ;;
  ret (map fst rs, concat (map snd rs)).

Definition nonempty {A} (l : list A) : bool :=
  match l with [] => false | _ => true end.

Definition fetch_into (page_url key ref : string) (attrs : attrs_t)
    : M (attrs_t * list string) :=
  let asset_url := urljoin page_url ref in
  content <- _download_asset asset_url ;;
  match content with
  | Some c =>
      if nonempty c then
        local_path <- _save_asset asset_url c ;;
        ret (attr_set key ("../../" +:+ local_path) attrs, [local_path])
      else ret (attrs, [])
  | None => ret (attrs, [])
  end.

Definition truthy (s : string) : bool := nonempty (explode s).

(** [for tag in soup.find_all('img'): if tag.get('src'): ...] *)
Definition rewrite_img (page_url name : string) (attrs : attrs_t)
    : M (attrs_t * list string) :=
  if String.eqb name "img" then
    match attr_get "src" attrs with
    | Some src => if truthy src then fetch_into page_url "src" src attrs
                  else ret (attrs, [])
    | None => ret (attrs, [])
    end
  else ret (attrs, []).

(** [rel='stylesheet'] matches when one of the values of [rel] is
    [stylesheet], or the whole attribute is. *)
Definition rel_stylesheet (attrs : attrs_t) : bool :=
  match attr_get "rel" attrs with
  | Some rel =>
      existsb (fun v => String.eqb (implode v) "stylesheet") (split_ws [] (explode rel))
      || String.eqb rel "stylesheet"
  | None => false
  end.

(** [for tag in soup.find_all('link', rel='stylesheet'): if tag.get('href'): ...] *)
Definition rewrite_link (page_url name : string) (attrs : attrs_t)
    : M (attrs_t * list string) :=
  if String.eqb name "link" && rel_stylesheet attrs then
    match attr_get "href" attrs with
    | Some href => if truthy href then fetch_into page_url "href" href attrs
                   else ret (attrs, [])
    | None => ret (attrs, [])
    end
  else ret (attrs, []).

(** [for tag in soup.find_all('script', src=True): ...] *)
Definition rewrite_script (page_url name : string) (attrs : attrs_t)
    : M (attrs_t * list string) :=
  if String.eqb name "script" then
    match attr_get "src" attrs with
    | Some src => fetch_into page_url "src" src attrs
    | None => ret (attrs, [])
    end
  else ret (attrs, []).

Definition _rewrite_html (html page_url : string) : M (string * list string) :=
  let doc := BeautifulSoup html in
  r1 <- mapM_soup (rewrite_img page_url) doc ;;
  r2 <- mapM_soup (rewrite_link page_url) (fst r1) ;;
  r3 <- mapM_soup (rewrite_script page_url) (fst r2) ;;
  ret (soup_str (fst r3), snd r1 ++ snd r2 ++ snd r3).

(** *** [_get_most_recent_snapshot] (lines 660-665)

    [sorted(...)[-1]]: the greatest directory name, if there is a
    directory. *)
Definition max_entry {A} (entries : list (string * A)) : option (string * A) :=
  foldr (fun kv acc =>
           match acc with
           | None => Some kv
           | Some kv' => if String.leb (fst kv) (fst kv') then Some kv' else Some kv
           end) None entries.

Definition _get_most_recent_snapshot : M (option (string * SnapshotDir)) :=
  w <- get_world ;;
  ret (max_entry (map_to_list (snapshots w))).

(** The search of lines 485-489 (and 586-590): the first record of the
    previous manifest with this URL and status [success]. *)
Fixpoint find_prev_page (url : string) (pages : list PageRecord)
    : option (string * option string) :=
  match pages with
  | [] => None
  | PageOk u file original _ :: rest =>
      if String.eqb u url then Some (file, original) else find_prev_page url rest
  | PageFailed _ _ :: rest => find_prev_page url rest
  end.

(** Lines 496-500: the original file of the record, or the rewritten one for
    a record without. *)
Definition prev_html_file (p : string * option string) : string :=
  match snd p with
  | Some original => original
  | None => fst p
  end.

(** *** [_has_content_changed_from_temp] (lines 455-551) *)
Fixpoint compare_pages (debug_stamp : string) (prev : SnapshotDir)
    (prev_pages : list PageRecord) (temp_pages : list TempPage) : M bool :=
  match temp_pages with
  | [] => ret false
  | TempFailed _ _ :: rest => compare_pages debug_stamp prev prev_pages rest
  | TempOk url html :: rest =>
      match find_prev_page url prev_pages with
      | None => ret true
      | Some prev_page =>
          match files prev !! prev_html_file prev_page with
          | None => ret true
          | Some prev_html =>
              let curr_normalized := _normalize_html_for_comparison html in
              let prev_normalized := _normalize_html_for_comparison prev_html in
              if negb (String.eqb curr_normalized prev_normalized) then
                modify (write_debug_file ("current_" +:+ debug_stamp +:+ ".txt")
                                         curr_normalized) ;;;
                modify (write_debug_file ("previous_" +:+ debug_stamp +:+ ".txt")
                                         prev_normalized) ;;;
                ret true
              else compare_pages debug_stamp prev prev_pages rest
          end
      end
  end.

Definition _has_content_changed_from_temp (debug_stamp : string)
    (temp_pages : list TempPage) : M bool :=
  previous_snapshot <- _get_most_recent_snapshot ;;
  match previous_snapshot with
  | None => ret true
  | Some (_, prev) =>
      match manifest prev with
      | None => ret true
      | Some previous_manifest =>
          if negb (length temp_pages =? length (m_pages previous_manifest))
          then ret true
          else compare_pages debug_stamp prev (m_pages previous_manifest) temp_pages
      end
  end.

(** *** [_generate_change_summary] (lines 553-658)

    The comparisons of lines 629 and 631 multiply a length by the doubles
    [1.1] and [0.9]; for lengths below 2^40 they agree with the exact
    comparisons of [change_type]. *)
Definition rule70 : string := implode (repeat "="%char 70).

Definition change_type (curr prev : nat) : string :=
  if 11 * prev <? 10 * curr then "  Type: Significant content addition"
  else if 10 * curr <? 9 * prev then "  Type: Significant content removal"
  else "  Type: Content modification".

Definition abs_diff (a b : nat) : nat := (a - b) + (b - a).

(** The loop of lines 581-637: the lines it appends and [changes_found]. *)
Fixpoint summary_pages (prev : SnapshotDir) (prev_pages : list PageRecord)
    (temp_pages : list TempPage) : list SummaryLine * bool :=
  match temp_pages with
  | [] => ([], false)
  | TempFailed _ _ :: rest => summary_pages prev prev_pages rest
  | TempOk url html :: rest =>
      let '(more, found) := summary_pages prev prev_pages rest in
      match find_prev_page url prev_pages with
      | None => ([SL "NEW PAGE ADDED:"; SL ("  URL: " +:+ url); SL ""] ++ more, true)
      | Some prev_page =>
          match files prev !! prev_html_file prev_page with
          | None => (more, found)
          | Some prev_html =>
              let curr_normalized := _normalize_html_for_comparison html in
              let prev_normalized := _normalize_html_for_comparison prev_html in
              if negb (String.eqb curr_normalized prev_normalized) then
                let lc := String.length curr_normalized in
                let lp := String.length prev_normalized in
                ([SL "CHANGES DETECTED:"; SL ("  Page: " +:+ url);
                  SLContentLength lp lc; SLApproxChange (abs_diff lc lp) (lc + lp);
                  SL (change_type lc lp); SL ""] ++ more, true)
              else (more, found)
          end
      end
  end.

Definition summary_body (previous_snapshot : option (string * SnapshotDir))
    (temp_pages : list TempPage) : list SummaryLine :=
  match previous_snapshot with
  | None =>
      [SL "INITIAL SNAPSHOT - No previous version to compare";
       SLArchived (length temp_pages)]
  | Some (name, prev) =>
      [SL ("Compared to: " +:+ name); SL ""] ++
      match manifest prev with
      | Some previous_manifest =>
          let '(entries, changes_found) :=
            summary_pages prev (m_pages previous_manifest) temp_pages in
          entries ++
          (if changes_found then []
           else [SL "NO CHANGES DETECTED";
                 SL "All monitored pages remain identical to previous snapshot"])
      | None => [SL "Previous snapshot incomplete - treating as changed"]
      end
  end.

Definition write_changes (dir : string) (lines : list SummaryLine) : M unit :=
  w <- get_world ;;
  match snapshots w !! dir with
  | Some d =>
      modify (set_snapshots
                (<[dir := {| files := files d; manifest := manifest d;
                             changes := Some lines |}]> (snapshots w)))
  | None => raise "FileNotFoundError"
  end.

Definition _generate_change_summary (summary_date snapshot_dir : string)
    (temp_pages : list TempPage) : M (list SummaryLine) :=
  previous_snapshot <- _get_most_recent_snapshot ;;
  let summary_lines :=
    [SL rule70; SL "WEBSITE CHANGE SUMMARY";
     SL ("Snapshot Date: " +:+ summary_date);
     SL ("Website: " +:+ base_url); SL rule70; SL ""]
    ++ summary_body previous_snapshot temp_pages
    ++ [SL ""; SL rule70; SLPagesMonitored (length temp_pages);
        SL ("Snapshot stored at: " +:+ snapshots_dir +:+ "/" +:+ snapshot_dir);
        SL rule70] in
  write_changes snapshot_dir summary_lines ;;;
  ret summary_lines.

(** *** [snapshot] (lines 216-330)

    The readings of the clock in one call: the name of the new directory
    (line 218), the tag of the debug files (line 520) and the date of the
    summary (line 560).  The upload of lines 326-328 is outside the model
    ([enable_internet_archive] is off). *)
Record Clock : Type := {
  now_snapshot : string;
  now_debug : string;
  now_summary : string
}.

(** Lines 229-231: a relative entry is resolved against the base URL. *)
Definition page_url_of (page_url : string) : string :=
  if startswith page_url "http" then page_url else urljoin base_url page_url.

(** Lines 223-224: the homepage when no list is given. *)
Definition pages_or_default (pages_to_archive : option (list string)) : list string :=
  match pages_to_archive with
  | None => [base_url]
  | Some pages => pages
  end.

(** Lines 228-253: one request per page. *)
Definition fetch_page (page_url : string) : M TempPage :=
  let page_url := page_url_of page_url in
  r <- requests_get page_url ;;
  match r with
  | HttpOk text _ => ret (TempOk page_url text)
  | HttpError e => ret (TempFailed page_url e)
  end.

(** [snapshot_dir.mkdir(exist_ok=True)] *)
Definition mkdir_snapshot (dir : string) : M unit :=
  modify (fun w =>
    match snapshots w !! dir with
    | Some _ => w
    | None => set_snapshots
                (<[dir := {| files := ∅; manifest := None; changes := None |}]>
                   (snapshots w)) w
    end).

(** [open(snapshot_dir / name, 'w')] and [f.write(content)]: no directory is
    ever made below a snapshot directory, so a name with a slash does not
    open. *)
Definition write_snapshot_file (dir name content : string) : M unit :=
  w <- get_world ;;
  match snapshots w !! dir with
  | Some d =>
      if existsb (char_eqb "/") (explode name) then raise "FileNotFoundError"
      else modify (set_snapshots
                     (<[dir := {| files := <[name := content]> (files d);
                                  manifest := manifest d;
                                  changes := changes d |}]> (snapshots w)))
  | None => raise "FileNotFoundError"
  end.

Definition write_manifest (dir : string) (m : Manifest) : M unit :=
  w <- get_world ;;
  match snapshots w !! dir with
  | Some d =>
      modify (set_snapshots
                (<[dir := {| files := files d; manifest := Some m;
                             changes := changes d |}]> (snapshots w)))
  | None => raise "FileNotFoundError"
  end.

(** [Path.name]: the last component. *)
Definition path_name (p : string) : string :=
  implode (rev (fst (span_until "/" (rev (explode p))))).

(** Lines 277-312: the body of the loop over [temp_pages]. *)
Definition archive_temp_page (dir : string) (temp_page : TempPage) : M PageRecord :=
  match temp_page with
  | TempOk url html =>
      r <- _rewrite_html html url ;;
      let path := page_filename (url_path url) in
      write_snapshot_file dir path (fst r) ;;;
      let original_file := original_filename path in
      write_snapshot_file dir original_file html ;;;
      ret (PageOk url path (Some (path_name original_file)) (snd r))
  | TempFailed url error => ret (PageFailed url error)
  end.

Definition snapshot (clock : Clock) (pages_to_archive : option (list string))
    : M (option string) :=
  let timestamp := now_snapshot clock in
  temp_pages <- mapM fetch_page (pages_or_default pages_to_archive) ;;
  changed <- _has_content_changed_from_temp (now_debug clock) temp_pages ;;
  if negb changed then ret None
  else
    mkdir_snapshot timestamp ;;;
    pages <- mapM (archive_temp_page timestamp) temp_pages ;;
    write_manifest timestamp
      {| m_timestamp := timestamp; m_base_url := base_url; m_pages := pages |} ;;;
    _generate_change_summary (now_summary clock) timestamp temp_pages ;;;
    ret (Some timestamp).

(** *** [__init__] and [_load_asset_cache] (lines 19-62)

    [json.load] of the index file, or the empty dictionary when there is no
    index file.  Of the constructor the model keeps what the methods read
    later: [self.base_url], which is returned, and [self.asset_cache]; the
    two directories it makes are the (possibly empty) maps of the world. *)
Definition _load_asset_cache : M (gmap string string) :=
  w <- get_world ;;
  match cache_index w with
  | Some cache => ret cache
  | None => ret ∅
  end.

Definition __init__ (url : string) : M string :=
  cache <- _load_asset_cache ;;
  modify (set_asset_cache cache) ;;;
  ret (implode (rstrip_char "/" (explode url))).

(** *** [_archive_page] (lines 175-214)

    [try: ... except Exception as e: ...]: the handler runs in the world
    that the body left behind. *)
Definition try_except {A} (body : M A) (handler : string -> M A) : M A :=
  fun w =>
    match body w with
    | (Ok a, w') => (Ok a, w')
    | (Raise e, w') => handler e w'
    end.

(** [open(snapshot_dir / name, 'w')] where the directory is given: the
    record of line 201 has no [original_file]. *)
Definition _archive_page (url snapshot_dir : string) : M PageRecord :=
  try_except
    (r <- requests_get url ;;
     match r with
     | HttpError e => raise e
     | HttpOk text _ =>
         rw <- _rewrite_html text url ;;
         let path := page_filename (url_path url) in
         write_snapshot_file snapshot_dir path (fst rw) ;;;
         ret (PageOk url path None (snd rw))
     end)
    (fun e => ret (PageFailed url e)).

(** *** [_get_previous_snapshot] (lines 667-672)

    [sorted(...)] orders the directories by name; [snapshots[-2]] is the
    last but one. *)
Definition sorted_snapshots (w : World) : list (string * SnapshotDir) :=
  merge_sort (fun a b => String.le (fst a) (fst b)) (map_to_list (snapshots w)).

Definition _get_previous_snapshot : M (option (string * SnapshotDir)) :=
  w <- get_world ;;
  let snapshots := sorted_snapshots w in
  if 2 <=? length snapshots
  then ret (snapshots !! (length snapshots - 2))
  else ret None.

(** *** [_has_content_changed] (lines 674-729)

    The loop of lines 704-724 over the records of the two manifests, paired
    by position.  A file of the current snapshot that is not there makes
    [open] raise. *)
Fixpoint compare_saved (curr prev : SnapshotDir)
    (pairs : list (PageRecord * PageRecord)) (changes_detected : bool) : M bool :=
  match pairs with
  | [] => ret changes_detected
  | (PageOk _ curr_file _ _, PageOk _ prev_file _ _) :: rest =>
      match files prev !! prev_file with
      | None => compare_saved curr prev rest true
      | Some prev_content =>
          match files curr !! curr_file with
          | None => raise "FileNotFoundError"
          | Some curr_content =>
              if negb (String.eqb curr_content prev_content)
              then compare_saved curr prev rest true
              else compare_saved curr prev rest changes_detected
          end
      end
  | _ :: rest => compare_saved curr prev rest changes_detected
  end.

Definition _has_content_changed (current_snapshot_dir : string) : M bool :=
  previous_snapshot <- _get_previous_snapshot ;;
  match previous_snapshot with
  | None => ret true
  | Some (_, prev) =>
      match manifest prev with
      | None => ret true
      | Some previous_manifest =>
          w <- get_world ;;
          match snapshots w !! current_snapshot_dir with
          | None => raise "FileNotFoundError"
          | Some curr =>
              match manifest curr with
              | None => raise "FileNotFoundError"
              | Some current_manifest =>
                  if negb (length (m_pages current_manifest)
                           =? length (m_pages previous_manifest))
                  then ret true
                  else compare_saved curr prev
                         (combine (m_pages current_manifest)
                                  (m_pages previous_manifest)) false
              end
          end
      end
  end.

(** *** [_create_bundled_snapshot] (lines 332-406)

    The bundle is a fresh temporary directory: the pages, the assets below
    [assets/], the copies of [manifest.json] and [CHANGES.txt], and the
    README, of which the model keeps the four values it formats. *)
Record Bundle : Type := {
  bundle_files : gmap string string;
  bundle_assets : gmap string bytes;
  bundle_manifest : Manifest;
  bundle_changes : option (list SummaryLine);
  readme_timestamp : string;
  readme_source : string;
  readme_pages : nat;
  readme_assets : nat
}.

(** Lines 341-355: the pages, with the asset references rewritten. *)
Fixpoint bundle_pages (dir : SnapshotDir) (pages : list PageRecord)
    (out : gmap string string) : M (gmap string string) :=
  match pages with
  | [] => ret out
  | PageOk _ file _ _ :: rest =>
      match files dir !! file with
      | Some html_content =>
          bundle_pages dir rest
            (<[file := str_replace html_content "../../assets/" "./assets/"]> out)
      | None => raise "FileNotFoundError"
      end
  | PageFailed _ _ :: rest => bundle_pages dir rest out
  end.

(** Lines 358-361 *)
Definition page_assets (page : PageRecord) : list string :=
  match page with
  | PageOk _ _ _ assets => assets
  | PageFailed _ _ => []
  end.

Definition assets_used_of (pages : list PageRecord) : gset string :=
  list_to_set (flat_map page_assets pages).

(** Lines 364-370: an asset that is not in the store is passed over. *)
Definition copy_assets (store : gmap string bytes) (assets_used : list string)
    : gmap string bytes :=
  foldr (fun asset_path out =>
           match store !! asset_path with
           | Some content => <[asset_path := content]> out
           | None => out
           end) ∅ assets_used.

Definition _create_bundled_snapshot (snapshot_dir : string) (m : Manifest) : M Bundle :=
  w <- get_world ;;
  match snapshots w !! snapshot_dir with
  | None => raise "FileNotFoundError"
  | Some dir =>
      pages <- bundle_pages dir (m_pages m) ∅ ;;
      let assets_used := assets_used_of (m_pages m) in
      let assets := copy_assets (asset_files w) (elements assets_used) in
      match manifest dir with
      | None => raise "FileNotFoundError"
      | Some manifest_file =>
          ret {| bundle_files := pages; bundle_assets := assets;
                 bundle_manifest := manifest_file; bundle_changes := changes dir;
                 readme_timestamp := m_timestamp m; readme_source := base_url;
                 readme_pages := length (m_pages m);
                 readme_assets := size assets_used |}
      end
  end.

(** *** [_upload_to_internet_archive], lines 740-741: the identifier of the
    item *)
Definition item_id (domain timestamp : string) : string :=
  str_replace domain "." "-" +:+ "-snapshot-"
  +:+ str_replace (str_replace timestamp ":" "-") " " "_".

(** *** [_wait_until_next_interval] (lines 794-813)

    A naive [datetime]: the date as a number of days and the time of day.
    [interval_hours] is an [int]; [//] rounds down, as [Z.div] does.  The
    result is the time that [time.sleep] is called with, counted in
    microseconds; a negative time makes it raise. *)
Record datetime : Type := {
  day : Z; hour : Z; minute : Z; second : Z; microsecond : Z
}.

Definition hour_us : Z := 3600 * 1000000.

(** The microseconds between the start of day 0 and [t]. *)
Definition total_us (t : datetime) : Z :=
  (day t * 24 * hour_us
   + ((hour t * 60 + minute t) * 60 + second t) * 1000000 + microsecond t)%Z.

(** [t.replace(hour=h, minute=0, second=0, microsecond=0)] *)
Definition replace_hour (t : datetime) (h : Z) : Result datetime :=
  if ((0 <=? h) && (h <? 24))%Z
  then Ok {| day := day t; hour := h; minute := 0; second := 0; microsecond := 0 |}
  else Raise "ValueError".

(** [t + timedelta(days=1)] *)
Definition add_day (t : datetime) : datetime :=
  {| day := day t + 1; hour := hour t; minute := minute t; second := second t;
     microsecond := microsecond t |}.

Definition next_run (now : datetime) (interval_hours : Z) : Result datetime :=
  if (interval_hours =? 0)%Z then Raise "ZeroDivisionError"
  else
    let current_hour := hour now in
    let next_hour := ((current_hour / interval_hours + 1) * interval_hours)%Z in
    if (24 <=? next_hour)%Z then
      match replace_hour now 0 with
      | Ok midnight => Ok (add_day midnight)
      | Raise e => Raise e
      end
    else replace_hour now next_hour.

Definition _wait_until_next_interval (now : datetime) (interval_hours : Z)
    : Result Z :=
  match next_run now interval_hours with
  | Ok next =>
      let wait_us := (total_us next - total_us now)%Z in
      if (wait_us <? 0)%Z then Raise "ValueError" else Ok wait_us
  | Raise e => Raise e
  end.

End Archiver.

Arguments Clock : clear implicits.

(** ** Library functions for the examples

    [simple_url_path] is [urlparse(url).path] for a URL of the form
    [scheme://host/path], with an optional query or fragment;
    [urljoin_absolute] is [urljoin] for a reference that is itself an
    absolute URL; [toy_hexdigest] stands in for the digest and is injective
    on contents of up to eight bytes. *)
Fixpoint drop_scheme (s : chars) : chars :=
  match s with
  | a :: (b :: c :: rest) as s' =>
      if char_eqb a ":" && char_eqb b "/" && char_eqb c "/" then rest
      else drop_scheme s'
  | _ => []
  end.

Fixpoint until_any (stops : string) (s : chars) : chars :=
  match s with
  | [] => []
  | c :: s' => if one_of stops c then [] else c :: until_any stops s'
  end.

Definition simple_url_path (url : string) : string :=
  let after_host := snd (span_until "/" (drop_scheme (explode url))) in
  match after_host with
  | Some p => implode ("/"%char :: until_any "?#" p)
  | None => ""
  end.

Definition urljoin_absolute (base ref : string) : string := ref.

Definition hex_digit (n : nat) : ascii :=
  nth n (explode "0123456789abcdef") "0"%char.

Definition toy_hexdigest (content : bytes) : string :=
  implode (flat_map (fun b => let n := Byte.to_nat b in
                              [hex_digit (n / 16); hex_digit (n mod 16)]) content
           ++ repeat "0"%char 64).

Definition example_world : World :=
  {| asset_cache := ∅; cache_index := None; asset_files := ∅;
     snapshots :=
       {[ "2024-01-01_00-00-00" :=
            {| files := {[ "index.html" := "<p>old</p>";
                           "index_original.html" := "<p>old</p>" ]};
               manifest := Some {| m_timestamp := "2024-01-01_00-00-00";
                                   m_base_url := "https://example.com";
                                   m_pages := [PageOk "https://example.com/" "index.html"
                                                 (Some "index_original.html") []] |};
               changes := None |} ]};
     debug_files := ∅; requests := [] |}.

Definition example_clock : Clock :=
  {| now_snapshot := "2024-01-02_00-00-00"; now_debug := "20240102_000000";
     now_summary := "2024-01-02 00:00:00" |}.

Definition example_snapshot (http : nat -> string -> HttpResult) (pages : list string)
    (clock : Clock) : M (option string) :=
  snapshot html_parser urljoin_absolute simple_url_path toy_hexdigest http
    "https://example.com" "snapshots/example.com" clock (Some pages).

Definition empty_world : World :=
  {| asset_cache := ∅; cache_index := None; asset_files := ∅; snapshots := ∅;
     debug_files := ∅; requests := [] |}.

(** The site of the examples after a first snapshot of two pages. *)
Definition example_manifest2 : Manifest :=
  {| m_timestamp := "2024-01-01_00-00-00";
     m_base_url := "https://example.com";
     m_pages := [PageOk "https://example.com/" "index.html"
                   (Some "index_original.html") [];
                 PageOk "https://example.com/about" "about.html"
                   (Some "about_original.html") []] |}.

Definition example_dir2 : SnapshotDir :=
  {| files := {[ "index.html" := "<p>old</p>";
                 "index_original.html" := "<p>old</p>";
                 "about.html" := "<p>about</p>";
                 "about_original.html" := "<p>about</p>" ]};
     manifest := Some example_manifest2;
     changes := None |}.

Definition example_world2 : World :=
  {| asset_cache := ∅; cache_index := None; asset_files := ∅;
     snapshots := {[ "2024-01-01_00-00-00" := example_dir2 ]};
     debug_files := ∅; requests := [] |}.

(** A network where the page [/about] times out and every other request
    returns the page of the first snapshot. *)
Definition http_about_fails (n : nat) (url : string) : HttpResult :=
  if String.eqb url "https://example.com/about" then HttpError "timeout"
  else HttpOk "<p>old</p>" [].

(** ** Notions used in the statements *)

(** The tags of a document in document order. *)
Fixpoint tags_of_node (n : node) : list (string * list (string * string)) :=
  match n with
  | NavigableString _ => []
  | Tag name attrs children => (name, attrs) :: flat_map tags_of_node children
  end.

Definition tags_of (doc : soup) : list (string * list (string * string)) :=
  flat_map tags_of_node doc.

(** The attributes that the two loops of the normaliser go through. *)
Definition covered (name key : string) : bool :=
  (String.eqb key "href" && name_in ["a"; "link"; "script"; "img"] name)
  || (String.eqb key "src" && name_in ["img"; "script"] name).

(** The four parameter prefixes. *)
Definition tracking_prefixes : list string := ["?_gl="; "&_gl="; "?_ga="; "&_ga="].

(** No parameter whose name begins with [_g] starts in [s]. *)
Definition tracking_start (s : chars) : bool :=
  starts_with (explode "?_g") s || starts_with (explode "&_g") s.

Fixpoint tracking_free (s : chars) : bool :=
  match s with
  | [] => true
  | _ :: s' => negb (tracking_start s) && tracking_free s'
  end.

(** A parameter value: characters that the patterns take, none of which
    opens another parameter. *)
Definition value_char (c : ascii) : bool :=
  url_char c && negb (char_eqb c "?") && negb (char_eqb c "&").

Definition param_value (v : string) : Prop :=
  v <> "" /\ forallb value_char (explode v) = true.

(** A tag before and after the two loops: an attribute that is covered and
    ends in a tracking parameter loses the parameter; an attribute that is
    not covered is as it was. *)
Definition stripped (before after : string * list (string * string)) : Prop :=
  fst after = fst before
  /\ (forall key u p v,
        covered (fst before) key = true ->
        attr_get key (snd before) = Some (u +:+ p +:+ v) ->
        tracking_free (explode u) = true -> In p tracking_prefixes -> param_value v ->
        attr_get key (snd after) = Some u)
  /\ (forall key,
        covered (fst before) key = false ->
        attr_get key (snd after) = attr_get key (snd before)).

(** Length of the longest prefix of [s] in the class [p]. *)
Fixpoint span_len (p : ascii -> bool) (s : chars) : nat :=
  match s with
  | c :: s' => if p c then S (span_len p s') else 0
  | [] => 0
  end.


(** What a loop of [_rewrite_html] does, tag by tag.  [target name attrs] is
    the attribute and the reference that the loop fetches for a tag, if the
    tag passes its filter.  [rewritten target i n n' used j] relates a node
    [n] to the node [n'] that the loop leaves, when [i] requests had been made
    before the node was reached and [j] after it: a tag with a target costs
    one request; when that request fails, or returns nothing, the attributes
    stay as they are and nothing is added to [used]; when it succeeds, the
    attribute points at the stored copy and its path is added. *)
Section Rewritten.
Variable urljoin : string -> string -> string.
Variable http : nat -> string -> HttpResult.
Variable page_url : string.

Definition img_target (name : string) (attrs : list (string * string))
    : option (string * string) :=
  if String.eqb name "img" then
    match attr_get "src" attrs with
    | Some src => if truthy src then Some ("src", src) else None
    | None => None
    end
  else None.

Definition link_target (name : string) (attrs : list (string * string))
    : option (string * string) :=
  if String.eqb name "link" && rel_stylesheet attrs then
    match attr_get "href" attrs with
    | Some href => if truthy href then Some ("href", href) else None
    | None => None
    end
  else None.

Definition script_target (name : string) (attrs : list (string * string))
    : option (string * string) :=
  if String.eqb name "script" then
    match attr_get "src" attrs with
    | Some src => Some ("src", src)
    | None => None
    end
  else None.

Definition kept (attrs attrs' : list (string * string)) (own : list string) : Prop :=
  attrs' = attrs /\ own = [].

Definition tag_outcome (tgt : option (string * string)) (i : nat)
    (attrs attrs' : list (string * string)) (own : list string) (j : nat) : Prop :=
  match tgt with
  | None => kept attrs attrs' own /\ j = i
  | Some (key, ref) =>
      j = S i
      /\ match http i (urljoin page_url ref) with
         | HttpError _ => kept attrs attrs' own
         | HttpOk _ [] => kept attrs attrs' own
         | HttpOk _ (_ :: _) =>
             exists local_path,
               attrs' = attr_set key ("../../" +:+ local_path) attrs
               /\ own = [local_path]
         end
  end.

Variable target : string -> list (string * string) -> option (string * string).

Inductive rewritten : nat -> node -> node -> list string -> nat -> Prop :=
| rewritten_string i s :
    rewritten i (NavigableString s) (NavigableString s) [] i
| rewritten_tag i j k name attrs attrs' own children children' used :
    tag_outcome (target name attrs) i attrs attrs' own j ->
    rewritten_all j children children' used k ->
    rewritten i (Tag name attrs children) (Tag name attrs' children') (own ++ used) k
with rewritten_all : nat -> list node -> list node -> list string -> nat -> Prop :=
| rewritten_nil i : rewritten_all i [] [] [] i
| rewritten_cons i j k n n' used ns ns' useds :
    rewritten i n n' used j ->
    rewritten_all j ns ns' useds k ->
    rewritten_all i (n :: ns) (n' :: ns') (used ++ useds) k.

End Rewritten.


(** [name] is the greatest directory name of the snapshot root and [dir] is
    that directory. *)
Definition most_recent (w : World) (name : string) (dir : SnapshotDir) : Prop :=
  snapshots w !! name = Some dir
  /\ forall name' dir', snapshots w !! name' = Some dir' -> String.leb name' name = true.

Section Agreement.
Variable BeautifulSoup : string -> soup.

(** A fetched page agrees with the previous snapshot: the manifest has a
    successful record for its URL, the file of that record is there, and
    the two texts are equal once normalised.  Nothing is asked of a page
    that failed to fetch. *)
Definition page_matches (prev : SnapshotDir) (prev_pages : list PageRecord)
    (temp_page : TempPage) : Prop :=
  match temp_page with
  | TempFailed _ _ => True
  | TempOk url html =>
      exists prev_page prev_html,
        find_prev_page url prev_pages = Some prev_page
        /\ files prev !! prev_html_file prev_page = Some prev_html
        /\ _normalize_html_for_comparison BeautifulSoup html
           = _normalize_html_for_comparison BeautifulSoup prev_html
  end.

End Agreement.

(** *** The relative-time pattern *)

(** The relative-time pattern read off directly: the digits, the white
    space, the first unit word that fits, then white space, [ago] and a full
    stop as far as they are there.  [time_match] is shown below to be what
    the matcher computes for [re_time]. *)
Definition ci_prefix (l : string) (s : chars) : bool :=
  prefix_by (fun a c => char_eqb a (to_lower c)) (explode l) s.

Definition opt_s (s : chars) : nat := if ci_prefix "s" s then 1 else 0.

Definition unit_len (s : chars) : option nat :=
  if ci_prefix "h." s then Some 2
  else if ci_prefix "hour" s then Some (4 + opt_s (drop 4 s))
  else if ci_prefix "min" s then Some (3 + opt_s (drop 3 s))
  else if ci_prefix "minute" s then Some (6 + opt_s (drop 6 s))
  else if ci_prefix "day" s then Some (3 + opt_s (drop 3 s))
  else if ci_prefix "week" s then Some (4 + opt_s (drop 4 s))
  else if ci_prefix "month" s then Some (5 + opt_s (drop 5 s))
  else None.

Definition tail_len (s : chars) : nat :=
  let w := span_len is_space s in
  let a := if ci_prefix "ago" (drop w s) then 3 else 0 in
  let d := if starts_with (explode ".") (drop a (drop w s)) then 1 else 0 in
  w + a + d.

Definition time_match (s : chars) : option nat :=
  match s with
  | c :: _ =>
      if is_digit c then
        let d := span_len is_digit s in
        let w := span_len is_space (drop d s) in
        match unit_len (drop w (drop d s)) with
        | Some u => Some (d + w + u + tail_len (drop u (drop w (drop d s))))
        | None => None
        end
      else None
  | [] => None
  end.

(** The continuation that ends a match, and the continuation that stands
    after the unit in the relative-time pattern. *)
Definition final : chars -> nat -> option nat := fun _ n => Some n.

Definition tail_k : chars -> nat -> option nat :=
  fun s n => rmatch (Seq (Star is_space) (Seq (Opt (LitI "ago")) (Opt (Lit ".")))) s n final.

(** The words the relative-time pattern is made of. *)
Definition time_words : list string :=
  ["h."; "hour"; "min"; "minute"; "day"; "week"; "month"; "s"; "ago"].

(** The letters of the unit words and of [ago], and the full stop, in
    either case. *)
Definition unit_letter (c : ascii) : bool :=
  one_of "hoursmintedaywkg." (to_lower c).

(** What follows begins with no letter of the pattern. *)
Definition nonletter_head (x : chars) : Prop :=
  match x with [] => True | c :: _ => unit_letter c = false end.

(** What follows begins with a character that continues neither a unit
    word nor a run of white space. *)
Definition inert_head (x : chars) : Prop :=
  match x with
  | [] => True
  | c :: _ => unit_letter c = false /\ is_space c = false
  end.

Definition nondigit_head (x : chars) : Prop :=
  match x with
  | [] => True
  | c :: _ => is_digit c = false
  end.

(** The full stop that the pattern takes after [ago]. *)
Definition dot_len (post : chars) : nat :=
  if starts_with (explode ".") post then 1 else 0.

(** No match of the relative-time pattern starts anywhere in [s]. *)
Definition time_clean (s : chars) : Prop :=
  forall i, time_match (drop i s) = None.

(** A relative-time phrase: a number, a unit and [ago], with any white
    space between them. *)
Definition time_units : list string :=
  ["h."; "hour"; "hours"; "min"; "mins"; "day"; "days"; "week"; "weeks";
   "month"; "months"].

Inductive ago_phrase : chars -> Prop :=
| ago_phrase_intro (d w w' : chars) (u : string) :
    d <> [] -> forallb is_digit d = true -> forallb is_space w = true ->
    In u time_units -> forallb is_space w' = true ->
    ago_phrase (d ++ w ++ explode u ++ w' ++ explode "ago").

(** A relative-time phrase with or without [ago]. *)
Inductive time_phrase : chars -> Prop :=
| bare_phrase (d w : chars) (u : string) :
    d <> [] -> forallb is_digit d = true -> forallb is_space w = true ->
    In u time_units ->
    time_phrase (d ++ w ++ explode u)
| full_phrase a : ago_phrase a -> time_phrase a.

(** The characters of a relative-time phrase. *)
Definition phrase_char (c : ascii) : bool :=
  is_digit c || is_space c || one_of "hoursmindaywektg." c.

(** What follows a phrase begins with a character that the pattern does not
    take and that opens no token: no white space, no letter of the pattern,
    no full stop and no colon.  The end of the text and [<] are such. *)
Definition calm_char (c : ascii) : bool :=
  negb (unit_letter c) && negb (is_space c) && negb (char_eqb ":" c).

Definition calm (post : chars) : Prop :=
  match post with [] => True | c :: _ => calm_char c = true end.

(** The pattern, tried at digits that run into [a], takes the digits, [a]
    and [e] characters of [post]. *)
Definition takes (a post : chars) (e : nat) : Prop :=
  forall t, forallb is_digit t = true ->
    time_match (t ++ a ++ post) = Some (length t + length a + e).

(** [a] begins with a digit. *)
Definition digit_headed (a : chars) : Prop :=
  exists c r, a = c :: r /\ is_digit c = true.

(** *** The Cloudflare patterns *)

(** The three Cloudflare patterns have one shape: a literal, one or more
    characters of a class, and a closing character that is not in the class.
    [closer_at] is the end of the run of the class when the closing character
    stands there; [token_match] is shown below to be what the matcher
    computes for such a pattern. *)
Definition closer_at (p : ascii -> bool) (q : ascii) (s : chars) : option nat :=
  match drop (span_len p s) s with
  | c :: _ => if char_eqb q c then Some (S (span_len p s)) else None
  | [] => None
  end.

Definition token_match (l : string) (p : ascii -> bool) (q : ascii) (s : chars)
    : option nat :=
  if starts_with (explode l) s then
    match closer_at p q (drop (length (explode l)) s) with
    | Some (S (S n)) => Some (length (explode l) + S (S n))
    | _ => None
    end
  else None.

(** The classes and the literal of the Cloudflare patterns. *)
Definition not_brace (c : ascii) : bool := negb (char_eqb c "}").
Definition hex_char (c : ascii) : bool := in_range "a" "f" c || is_digit c.
Definition token_char (c : ascii) : bool := is_alpha c || is_digit c || one_of "+/=" c.
Definition cf_open : string := "window.__CF$cv$params={".

(** One of two texts is a prefix of the other. *)
Definition compat (x y : chars) : bool := starts_with x y || starts_with y x.

(** No proper, non-empty suffix of the literal [l] can begin a text that
    begins with [g]. *)
Definition no_straddle (l g : chars) : bool :=
  forallb (fun k => negb (compat (drop k l) g)) (seq 1 (length l - 1)).

(** No prefix of [l] of up to [j] characters can end a text that ends with
    [z]. *)
Definition no_tail (l z : chars) (j : nat) : bool :=
  forallb (fun k => negb (compat (rev (take k l)) (rev z))) (seq 1 j).

(** The literal [l] starts at no position of [g], whatever follows [g]. *)
Definition no_head (l g : chars) : bool :=
  forallb (fun i => negb (compat l (drop i g))) (seq 0 (length g)).

(** The literal cannot begin before [a] and end inside it. *)
Definition clear_of (l a : chars) : Prop :=
  forall t post, t <> [] -> length t < length l ->
    starts_with l (t ++ a ++ post) = false.

(** *** Two texts that differ in one place *)

(** The two attempts at [t ++ a ++ post] and [t ++ b ++ post] agree: both
    fail, or both match inside [t], or both run to the same point of
    [post]. *)
Definition attempts_agree (ra rb : option nat) (lt la lb : nat) : Prop :=
  (ra = None /\ rb = None)
  \/ (exists n, ra = Some (S n) /\ rb = Some (S n) /\ S n <= lt)
  \/ (exists e, ra = Some (lt + la + e) /\ rb = Some (lt + lb + e)).

(** Two texts that are equal, or that are [a] and [b] in the same
    surroundings. *)
Definition differ (a b x y : chars) : Prop :=
  x = y \/ exists pre post, x = pre ++ a ++ post /\ y = pre ++ b ++ post.

(** The attempts of a pattern that start before [a] and before [b] agree,
    whatever the surroundings are. *)
Definition agree_before (m : chars -> option nat) (a b : chars) : Prop :=
  forall t post, t <> [] ->
    attempts_agree (m (t ++ a ++ post)) (m (t ++ b ++ post))
                   (length t) (length a) (length b).

(** No match starts inside [a]. *)
Definition inner_free (m : chars -> option nat) (a : chars) : Prop :=
  forall i post, i < length a -> m (drop i a ++ post) = None.

(** A pattern that leaves [a] and [b] alone, unless it removes them with
    their surroundings. *)
Definition transparent (m : chars -> option nat) (a b : chars) : Prop :=
  agree_before m a b /\ inner_free m a /\ inner_free m b.

(** A pattern that matches [a] and [b], with the same characters after
    them. *)
Definition equalizing (m : chars -> option nat) (a b : chars) : Prop :=
  a <> [] /\ b <> [] /\ agree_before m a b
  /\ forall post, exists e,
       m (a ++ post) = Some (length a + e) /\ m (b ++ post) = Some (length b + e).

(** [differ] and [transparent] where what follows satisfies [Q], which the
    pass keeps. *)
Definition differ_in (Q : chars -> Prop) (a b x y : chars) : Prop :=
  x = y \/ exists pre post, Q post /\ x = pre ++ a ++ post /\ y = pre ++ b ++ post.

Definition transparent_in (Q : chars -> Prop) (m : chars -> option nat)
    (a b : chars) : Prop :=
  (forall t post, Q post -> t <> [] ->
     attempts_agree (m (t ++ a ++ post)) (m (t ++ b ++ post))
                    (length t) (length a) (length b))
  /\ (forall i post, Q post -> i < length a -> m (drop i a ++ post) = None)
  /\ (forall i post, Q post -> i < length b -> m (drop i b ++ post) = None)
  /\ (forall rep post, Q post -> Q (sub_skip m rep 0 post)).

(** *** Noise *)

(** The noise of a page: a Cloudflare [r] token, a [t] token, a parameter
    block. *)
Definition r_token (h : chars) : chars := explode "r:'" ++ h ++ ["'"%char].
Definition t_token (v : chars) : chars := explode "t:'" ++ v ++ ["'"%char].
Definition cf_block (body : chars) : chars := explode cf_open ++ body ++ ["}"%char].

(** Two pieces of noise of one kind: two relative-time phrases, two [r]
    tokens, two [t] tokens or two parameter blocks.  Of two phrases, both or
    neither are made of letters and digits only. *)
Inductive noise : chars -> chars -> Prop :=
| noise_time a b :
    ago_phrase a -> ago_phrase b ->
    forallb token_char a = forallb token_char b ->
    noise a b
| noise_r h h' :
    h <> [] -> h' <> [] ->
    forallb hex_char h = true -> forallb hex_char h' = true ->
    noise (r_token h) (r_token h')
| noise_t v v' :
    v <> [] -> v' <> [] ->
    forallb token_char v = true -> forallb token_char v' = true ->
    noise (t_token v) (t_token v')
| noise_block c c' :
    c <> [] -> c' <> [] ->
    forallb not_brace c = true -> forallb not_brace c' = true ->
    noise (cf_block c) (cf_block c').

(** Two pieces of noise that stand before [post]: noise of one kind
    before anything, or two relative-time phrases of any shape before a calm
    character. *)
Inductive noise_in (post : chars) : chars -> chars -> Prop :=
| noise_anywhere a b : noise a b -> noise_in post a b
| noise_calm a b :
    time_phrase a -> time_phrase b ->
    forallb token_char a = forallb token_char b ->
    calm post ->
    noise_in post a b.

(** Two texts that differ in pieces of noise only. *)
Inductive same_but_noise : chars -> chars -> Prop :=
| same_text x : same_but_noise x x
| noise_step pre a b post y :
    noise_in post a b -> same_but_noise (pre ++ b ++ post) y ->
    same_but_noise (pre ++ a ++ post) y.

(** The three Cloudflare passes and the relative-time pass of
    [normalize_text], on characters. *)
Definition noise_passes (x : chars) : chars :=
  sub_chars re_time "[TIME]"
    (sub_chars re_cf_t "t:'[REMOVED]'"
       (sub_chars re_cf_r "r:'[REMOVED]'"
          (sub_chars re_cf_params "window.__CF$cv$params={[REMOVED]}" x))).

(** *** Tracking parameters *)

(** The head of what follows does not continue a parameter name. *)
Definition sep_head (r : chars) : Prop :=
  match r with
  | [] => True
  | c :: _ => char_eqb "_" c = false /\ char_eqb "g" c = false
  end.

(** A character that is no separator of parameters. *)
Definition no_sep (c : ascii) : bool :=
  negb (char_eqb c "?") && negb (char_eqb c "&").

(** The value [x] is the reference [u], or [u] followed by one tracking
    parameter. *)
Definition with_param (u x : string) : Prop :=
  x = u \/ exists p v, In p tracking_prefixes /\ param_value v /\ x = u +:+ p +:+ v.

(** Two values of one reference that differ in the tracking parameter
    only. *)
Definition tracked_value (x1 x2 : string) : Prop :=
  exists u, tracking_free (explode u) = true /\ with_param u x1 /\ with_param u x2.

(** Two attribute lists of a tag [name] that differ only in the tracking
    parameters of the attributes that the two loops go through. *)
Inductive tracked_attrs (name : string)
    : list (string * string) -> list (string * string) -> Prop :=
| tracked_attrs_same attrs : tracked_attrs name attrs attrs
| tracked_attrs_step l1 key x1 x2 l2 attrs' :
    covered name key = true -> attr_get key l1 = None -> tracked_value x1 x2 ->
    tracked_attrs name (l1 ++ (key, x2) :: l2) attrs' ->
    tracked_attrs name (l1 ++ (key, x1) :: l2) attrs'.

(** Two documents that differ in such parameters only. *)
Inductive tracked_node : node -> node -> Prop :=
| tracked_string s : tracked_node (NavigableString s) (NavigableString s)
| tracked_tag name attrs attrs' children children' :
    tracked_attrs name attrs attrs' ->
    Forall2 tracked_node children children' ->
    tracked_node (Tag name attrs children) (Tag name attrs' children').

(** The two links of the example: [<a href=.../p?_gl=abc...>x</a>] and
    [<a href=.../p...>x</a>], the reference in double quotes. *)
Definition tracked_link : string :=
  "<a href=" +:+ String dquote "/p?_gl=abc" +:+ String dquote ">x</a>".

Definition plain_link : string :=
  "<a href=" +:+ String dquote "/p" +:+ String dquote ">x</a>".

(** *** White space *)

(** White space and words. *)
Definition nonspace (c : ascii) : bool := negb (is_space c).

(** [x] is empty or begins with white space; [y] is empty or begins with
    another character. *)
Definition space_headed (x : chars) : Prop :=
  match x with [] => True | c :: _ => is_space c = true end.

Definition nonspace_headed (y : chars) : Prop :=
  match y with [] => True | c :: _ => is_space c = false end.

(** The first word of [x], after its leading white space. *)
Definition next_word (x : chars) : chars :=
  take (span_len nonspace (drop (span_len is_space x) x))
       (drop (span_len is_space x) x).

(** [aligned t y]: [y] is [t] with every run of white space between two
    words replaced by one space, and without the white space at its end. *)
Inductive aligned : chars -> chars -> Prop :=
| aligned_end g : forallb is_space g = true -> aligned g []
| aligned_char c t y :
    is_space c = false -> aligned t y -> aligned (c :: t) (c :: y)
| aligned_gap g c t y :
    g <> [] -> forallb is_space g = true -> is_space c = false ->
    aligned (c :: t) (c :: y) ->
    aligned (g ++ c :: t) (" "%char :: c :: y).

(** *** Texts without tokens, plain text *)

(** The literal [l] stands somewhere in [s]. *)
Fixpoint occurs (l s : chars) : bool :=
  starts_with l s || match s with [] => false | _ :: s' => occurs l s' end.

(** A text in which none of the Cloudflare patterns and no [img] tag
    begins. *)
Definition quiet (s : chars) : bool :=
  negb (occurs (explode cf_open) s || occurs (explode "r:'") s
        || occurs (explode "t:'") s || occurs (explode "<img") s).

(** Plain text: no markup, no character reference, no apostrophe and no
    opening brace. *)
Definition plain_char (c : ascii) : bool := negb (one_of "<>&'{" c).

Definition plain (x : string) : Prop := forallb plain_char (explode x) = true.

(** ** Notions for the other methods *)

(** *** File names *)

(** The name has a slash: [open] looks for a directory below the snapshot
    directory. *)
Definition has_slash (name : string) : bool :=
  existsb (char_eqb "/") (explode name).

(** [parsed.path.strip('/')] *)
Definition stripped_path (url_path : string) : string :=
  implode (strip_char "/" (explode url_path)).

(** *** The scheduler *)

(** A time of day as [datetime.now()] gives it. *)
Definition valid_datetime (t : datetime) : Prop :=
  (0 <= hour t < 24 /\ 0 <= minute t < 60 /\ 0 <= second t < 60
   /\ 0 <= microsecond t < 1000000)%Z.

(** The start of hour [h] of the day of [t], in microseconds; [h = 24] is
    the midnight that ends the day. *)
Definition hour_start (t : datetime) (h : Z) : Z :=
  (day t * 24 * hour_us + h * hour_us)%Z.

Definition example_now : datetime :=
  {| day := 738000; hour := 21; minute := 17; second := 5; microsecond := 250000 |}.

(** *** The asset store and the snapshot directories *)

(** The part of the world that [_save_asset] reads and writes. *)
Definition store (w : World)
    : gmap string string * option (gmap string string) * gmap string bytes :=
  (asset_cache w, cache_index w, asset_files w).

Definition empty_dir : SnapshotDir :=
  {| files := ∅; manifest := None; changes := None |}.

(** The directory after [open(dir / name, 'w')] and [f.write(content)]. *)
Definition write_file (name content : string) (d : SnapshotDir) : SnapshotDir :=
  {| files := <[name := content]> (files d); manifest := manifest d;
     changes := changes d |}.

Section Pages.
Variable url_path : string -> string.

(** The two files that [snapshot] writes for a fetched page. *)
Definition page_file (url : string) : string := page_filename (url_path url).
Definition page_original (url : string) : string := original_filename (page_file url).

Definition file_names (temp_page : TempPage) : list string :=
  match temp_page with
  | TempOk url _ => [page_file url; page_original url]
  | TempFailed _ _ => []
  end.

(** A fetched page whose file cannot be opened for writing. *)
Definition unwritable (temp_page : TempPage) : bool :=
  match temp_page with
  | TempOk url _ => has_slash (page_file url)
  | TempFailed _ _ => false
  end.

(** [archived d temp_pages pages d']: the loop of lines 277-312 over
    [temp_pages] takes the directory [d] to [d'] and appends [pages] to
    the manifest, for some outcome of the rewriting of each page. *)
Inductive archived : SnapshotDir -> list TempPage -> list PageRecord -> SnapshotDir
    -> Prop :=
| archived_nil d : archived d [] [] d
| archived_ok d url html text used rest pages d' :
    archived (write_file (page_original url) html (write_file (page_file url) text d))
             rest pages d' ->
    archived d (TempOk url html :: rest)
             (PageOk url (page_file url) (Some (page_original url)) used :: pages) d'
| archived_failed d url error rest pages d' :
    archived d rest pages d' ->
    archived d (TempFailed url error :: rest) (PageFailed url error :: pages) d'.

End Pages.

(** The text of [CHANGES.txt] (lines 559-650), given the snapshot that
    [_get_most_recent_snapshot] returns. *)
Definition summary_lines (base_url snapshots_dir summary_date snapshot_dir : string)
    (BeautifulSoup : string -> soup)
    (previous_snapshot : option (string * SnapshotDir)) (temp_pages : list TempPage)
    : list SummaryLine :=
  [SL rule70; SL "WEBSITE CHANGE SUMMARY";
   SL ("Snapshot Date: " +:+ summary_date);
   SL ("Website: " +:+ base_url); SL rule70; SL ""]
  ++ summary_body BeautifulSoup previous_snapshot temp_pages
  ++ [SL ""; SL rule70; SLPagesMonitored (length temp_pages);
      SL ("Snapshot stored at: " +:+ snapshots_dir +:+ "/" +:+ snapshot_dir);
      SL rule70].

(** The in-memory cache is what the index file holds. *)
Definition cache_synced (w : World) : Prop :=
  asset_cache w = default ∅ (cache_index w).

(** Every path of the cache names a file of the store. *)
Definition cache_sound (w : World) : Prop :=
  forall h path, asset_cache w !! h = Some path -> is_Some (asset_files w !! path).

(** The asset is in the store. *)
Definition stored (w : World) (path : string) : Prop :=
  is_Some (asset_files w !! path).

(** [name] is the second greatest directory name of the snapshot root and
    [dir] is that directory. *)
Definition previous (w : World) (name : string) (dir : SnapshotDir) : Prop :=
  snapshots w !! name = Some dir
  /\ exists top dtop,
       most_recent w top dtop /\ top <> name
       /\ forall other d, snapshots w !! other = Some d -> other <> top ->
                          String.leb other name = true.

(** Two records at the same place of two manifests agree: when both are
    successful, the two files are there and hold the same text. *)
Definition records_agree (curr prev : SnapshotDir) (pair : PageRecord * PageRecord)
    : Prop :=
  match pair with
  | (PageOk _ curr_file _ _, PageOk _ prev_file _ _) =>
      exists content,
        files prev !! prev_file = Some content /\ files curr !! curr_file = Some content
  | _ => True
  end.

Section Listed.
Variable url_path : string -> string.

(** The record that [snapshot] appends to the manifest for a fetched
    page. *)
Definition listed (temp_page : TempPage) (record : PageRecord) : Prop :=
  match temp_page with
  | TempOk url _ =>
      exists assets,
        record = PageOk url (page_file url_path url)
                   (Some (page_original url_path url)) assets
  | TempFailed url error => record = PageFailed url error
  end.

End Listed.

(** The file names of the records with the status [success]. *)
Definition page_files (pages : list PageRecord) : list string :=
  flat_map (fun page => match page with
                        | PageOk _ file _ _ => [file]
                        | PageFailed _ _ => []
                        end) pages.

(** The text of a page in the bundle (line 352). *)
Definition bundled (html : string) : string :=
  str_replace html "../../assets/" "./assets/".

Section ContentAddressing.
Variable sha256_hexdigest : bytes -> string.

(** Every entry of the cache names a file below [assets/<type>/] whose
    name starts with the hash of the entry, and the file holds a content
    with that hash. *)
Definition content_addressed (w : World) : Prop :=
  forall h path,
    asset_cache w !! h = Some path ->
    (exists content,
        asset_files w !! path = Some content
        /\ _get_file_hash sha256_hexdigest content = h)
    /\ exists asset_type ext rest,
         path = "assets/" +:+ asset_type +:+ "/" +:+ h +:+ ext
         /\ has_slash asset_type = false
         /\ explode ext = "."%char :: rest.

(** The asset is a file that the cache names, with a content of the hash
    it is filed under. *)
Definition cached (w : World) (path : string) : Prop :=
  exists h content,
    asset_cache w !! h = Some path
    /\ asset_files w !! path = Some content
    /\ _get_file_hash sha256_hexdigest content = h.

End ContentAddressing.

(** A time stamp without a colon and without a space, as
    [strftime('%Y-%m-%d_%H-%M-%S')] writes it. *)
Definition plain_stamp (timestamp : string) : Prop :=
  forallb (fun c => negb (one_of ": " c)) (explode timestamp) = true.

Section Difference.
Variable BeautifulSoup : string -> soup.

(** The detector has found a page whose text differs from the text that
    [prev] keeps for its URL, and has written the two normalised texts to
    its debug files. *)
Definition difference_found (debug : string) (prev : SnapshotDir)
    (prev_pages : list PageRecord) (temp_pages : list TempPage) (w w' : World) : Prop :=
  exists url html prev_page prev_html,
    In (TempOk url html) temp_pages
    /\ find_prev_page url prev_pages = Some prev_page
    /\ files prev !! prev_html_file prev_page = Some prev_html
    /\ _normalize_html_for_comparison BeautifulSoup html
       <> _normalize_html_for_comparison BeautifulSoup prev_html
    /\ debug_files w'
       = <[("previous_" +:+ debug +:+ ".txt")
             := _normalize_html_for_comparison BeautifulSoup prev_html]>
           (<[("current_" +:+ debug +:+ ".txt")
                := _normalize_html_for_comparison BeautifulSoup html]>
              (debug_files w)).

End Difference.

(** A network that serves one image and, for every other URL, a page that
    shows it. *)
Definition http_logo (n : nat) (url : string) : HttpResult :=
  if String.eqb url "https://example.com/logo.png"
  then HttpOk "" [Byte.x89; Byte.x50; Byte.x4e; Byte.x47]
  else HttpOk "<p>new</p><img src='https://example.com/logo.png'/>" [].

(** A network whose pages [/a/b] and [/a_b] differ. *)
Definition http_two_pages (n : nat) (url : string) : HttpResult :=
  if String.eqb url "https://example.com/a/b" then HttpOk "<p>first</p>" []
  else HttpOk "<p>second</p>" [].

(** A store that holds the image of [http_logo]. *)
Definition world_with_logo : World :=
  {| asset_cache := {[ "89504e4700000000" := "assets/images/89504e4700000000.png" ]};
     cache_index := Some {[ "89504e4700000000" := "assets/images/89504e4700000000.png" ]};
     asset_files := {[ "assets/images/89504e4700000000.png"
                         := [Byte.x89; Byte.x50; Byte.x4e; Byte.x47] ]};
     snapshots := ∅; debug_files := ∅; requests := [] |}.

(** The order of [sorted] on the directories. *)
Definition by_name (a b : string * SnapshotDir) : Prop := String.le (fst a) (fst b).

(** * Properties *)

Arguments _normalize_html_for_comparison : simpl never.
Arguments _has_content_changed_from_temp : simpl never.
Arguments _get_most_recent_snapshot : simpl never.
Arguments _generate_change_summary : simpl never.
Arguments _rewrite_html : simpl never.
Arguments _save_asset : simpl never.
Arguments snapshot : simpl never.
Arguments normalize_text : simpl never.
Arguments soup_str : simpl never.
Arguments char_eqb : simpl never.

(** ** Filename derivation *)

Example splitext_examples :
  map (fun p => implode (splitext_ext (explode p)))
      ["/a/b.png"; "/a.b/c"; "/a/.bashrc"; "/a/..x.tar.gz"; "/a/b."; ""; "x.JS"]
  = [".png"; ""; ""; ".gz"; "."; ""; ".JS"].
Proof. vm_compute. reflexivity. Qed.

(** C2.  The root path gives [index.html] and [/about/team] gives
    [about_team.html], but the slashes are flattened only inside the test
    for the missing suffix: the path [/docs/page.html] keeps its slash, the
    derived name is [docs/page.html], and the snapshot of such a page stops
    with the error of opening a file in a directory that was never made. *)
Theorem page_filename_keeps_slash_of_html_path :
  page_filename "/" = "index.html"
  /\ page_filename "/about/team" = "about_team.html"
  /\ page_filename "/docs/page.html" = "docs/page.html"
  /\ fst (example_snapshot (fun _ _ => HttpOk "<p>doc</p>" [])
            ["https://example.com/docs/page.html"] example_clock empty_world)
     = Raise "FileNotFoundError".
Proof. vm_compute. repeat split. Qed.

(** ** The asset store *)
Section AssetStore.
Variable url_path : string -> string.
Variable sha256_hexdigest : bytes -> string.

Local Abbreviation save := (_save_asset url_path sha256_hexdigest).
Local Abbreviation hash := (_get_file_hash sha256_hexdigest).

Lemma save_asset_cached url content w path :
  asset_cache w !! hash content = Some path ->
  save url content w = (Ok path, w).
Proof.
  intros H. unfold _save_asset, bind, get_world. cbn. rewrite H. reflexivity.
Qed.

Lemma save_asset_fresh url content w :
  asset_cache w !! hash content = None ->
  exists path w',
    save url content w = (Ok path, w')
    /\ asset_cache w' = <[hash content := path]> (asset_cache w)
    /\ cache_index w' = Some (asset_cache w')
    /\ asset_files w' = <[path := content]> (asset_files w).
Proof.
  intros H. unfold _save_asset, bind, get_world. cbn. rewrite H. cbn.
  eexists _, _. split; [reflexivity|]. cbn. auto.
Qed.

(** An entry of the cache is never overwritten or removed. *)
Lemma save_asset_keeps url content w h path :
  asset_cache w !! h = Some path ->
  asset_cache (snd (save url content w)) !! h = Some path.
Proof.
  intros H. destruct (asset_cache w !! hash content) as [p|] eqn:E.
  - rewrite (save_asset_cached _ _ _ _ E). exact H.
  - destruct (save_asset_fresh url content w E) as (p & w' & -> & Hc & _).
    cbn. rewrite Hc. rewrite lookup_insert_ne; [exact H|].
    intros Heq. rewrite Heq in E. congruence.
Qed.

Lemma save_assets_keep others w h path :
  asset_cache w !! h = Some path ->
  asset_cache (snd (mapM (fun uc => save (fst uc) (snd uc)) others w)) !! h
  = Some path.
Proof.
  revert w. induction others as [|[u c] others IH]; intros w H; [exact H|].
  cbn. unfold bind.
  pose proof (save_asset_keeps u c w h path H) as H1.
  destruct (save u c w) as [[p|e] w1]; cbn in *; [|exact H1].
  specialize (IH w1 H1).
  destruct (mapM _ others w1) as [[ps|e] w2]; cbn in *; exact IH.
Qed.

(** C4.  Storing a content twice, under any two URLs and with any other
    store calls in between, returns the path of the first call the second
    time and leaves the whole state as it was (no file is written, the
    cache and its index file do not change); the first call adds one entry
    to the cache when the hash is new and none when it is known. *)
Theorem save_asset_deduplicates url1 url2 content others w :
  let run1 := save url1 content w in
  let runs := mapM (fun uc => save (fst uc) (snd uc)) others (snd run1) in
  let run2 := save url2 content (snd runs) in
  fst run2 = fst run1
  /\ snd run2 = snd runs
  /\ (exists path, fst run1 = Ok path
                   /\ asset_cache (snd run1) !! hash content = Some path)
  /\ match asset_cache w !! hash content with
     | Some _ => snd run1 = w
     | None =>
         size (asset_cache (snd run1)) = S (size (asset_cache w))
         /\ cache_index (snd run1) = Some (asset_cache (snd run1))
     end.
Proof.
  intros run1 runs run2.
  assert (exists path, fst run1 = Ok path
                       /\ asset_cache (snd run1) !! hash content = Some path
                       /\ match asset_cache w !! hash content with
                          | Some _ => snd run1 = w
                          | None =>
                              size (asset_cache (snd run1)) = S (size (asset_cache w))
                              /\ cache_index (snd run1) = Some (asset_cache (snd run1))
                          end) as (path & Hr & Hc & Hsz).
  { subst run1. destruct (asset_cache w !! hash content) as [p|] eqn:E.
    - rewrite (save_asset_cached _ _ _ _ E). cbn. eauto.
    - destruct (save_asset_fresh url1 content w E) as (p & w' & -> & Hc & Hi & _).
      cbn. exists p. rewrite Hc at 1. rewrite lookup_insert_eq.
      repeat split; [|exact Hi]. rewrite Hc. by apply map_size_insert_None. }
  pose proof (save_assets_keep others (snd run1) _ _ Hc) as Hk.
  fold runs in Hk. subst run2.
  rewrite (save_asset_cached _ _ _ _ Hk). cbn.
  repeat split; eauto.
Qed.

End AssetStore.

(** ** The monad *)

Lemma mapM_cons {A B} (f : A -> M B) (a : A) (l : list A) (w : World) :
  mapM f (a :: l) w =
  match f a w with
  | (Ok b, w1) =>
      match mapM f l w1 with
      | (Ok bs, w2) => (Ok (b :: bs), w2)
      | (Raise e, w2) => (Raise e, w2)
      end
  | (Raise e, w1) => (Raise e, w1)
  end.
Proof.
  cbn. unfold bind. destruct (f a w) as [[b|e] w1]; [|reflexivity].
  destruct (mapM f l w1) as [[bs|e] w2]; reflexivity.
Qed.

(** ** The most recent snapshot *)

Lemma leb_trans (a b c : string) :
  String.leb a b = true -> String.leb b c = true -> String.leb a c = true.
Proof.
  intros H1 H2. apply Is_true_true.
  change (String.le a c). transitivity b; apply Is_true_true; assumption.
Qed.

Lemma max_entry_cons {A} (kv : string * A) (l : list (string * A)) :
  max_entry (kv :: l) =
  match max_entry l with
  | None => Some kv
  | Some kv' => if String.leb (fst kv) (fst kv') then Some kv' else Some kv
  end.
Proof. reflexivity. Qed.

Lemma max_entry_nil {A} (l : list (string * A)) :
  max_entry l = None <-> l = [].
Proof.
  split; [|intros ->; reflexivity].
  destruct l as [|kv l]; [reflexivity|]. rewrite max_entry_cons.
  destruct (max_entry l) as [kv'|]; [|discriminate].
  destruct (String.leb (fst kv) (fst kv')); discriminate.
Qed.

Lemma max_entry_greatest {A} (l : list (string * A)) kv :
  max_entry l = Some kv ->
  In kv l /\ forall kv', In kv' l -> String.leb (fst kv') (fst kv) = true.
Proof.
  revert kv. induction l as [|x l IH]; intros kv; [discriminate|].
  rewrite max_entry_cons.
  destruct (max_entry l) as [m|] eqn:E.
  - destruct (IH m eq_refl) as [Hin Hmax].
    destruct (String.leb (fst x) (fst m)) eqn:Hle; intros [= <-].
    + split; [right; exact Hin|]. intros kv' [<-|H]; [exact Hle|auto].
    + assert (String.leb (fst m) (fst x) = true) as Hmx.
      { destruct (String.leb_total (fst x) (fst m)); congruence. }
      split; [left; reflexivity|].
      intros kv' [<-|H].
      * destruct (String.leb_total (fst x) (fst x)); assumption.
      * eapply leb_trans; [apply Hmax, H|exact Hmx].
  - apply max_entry_nil in E. subst l. intros [= <-].
    split; [left; reflexivity|]. intros kv' [<-|[]].
    destruct (String.leb_total (fst x) (fst x)); assumption.
Qed.

Lemma get_most_recent_none w :
  snapshots w = ∅ -> _get_most_recent_snapshot w = (Ok None, w).
Proof.
  intros H. unfold _get_most_recent_snapshot, bind, get_world, ret. cbn.
  rewrite H, map_to_list_empty. reflexivity.
Qed.

Lemma get_most_recent_some w name dir :
  most_recent w name dir <->
  _get_most_recent_snapshot w = (Ok (Some (name, dir)), w).
Proof.
  unfold _get_most_recent_snapshot, bind, get_world, ret. cbn. split.
  - intros [Hin Hmax].
    destruct (max_entry (map_to_list (snapshots w))) as [[k v]|] eqn:E.
    + destruct (max_entry_greatest _ _ E) as [Hk Hall].
      apply list_elem_of_In, elem_of_map_to_list in Hk.
      assert (k = name) as ->.
      { apply String.leb_antisym; [eapply Hmax; exact Hk|].
        apply (Hall (name, dir)), list_elem_of_In, elem_of_map_to_list, Hin. }
      rewrite Hk in Hin. injection Hin as ->. reflexivity.
    + apply max_entry_nil, map_to_list_empty_iff in E.
      rewrite E, lookup_empty in Hin. discriminate.
  - intros [= E]. destruct (max_entry_greatest _ _ E) as [Hk Hall].
    apply list_elem_of_In, elem_of_map_to_list in Hk. split; [exact Hk|].
    intros name' dir' H.
    apply (Hall (name', dir')), list_elem_of_In, elem_of_map_to_list, H.
Qed.

(** ** The change detector *)
Section Detector.
Variable BeautifulSoup : string -> soup.
Variable urljoin : string -> string -> string.
Variable url_path : string -> string.
Variable sha256_hexdigest : bytes -> string.
Variable http : nat -> string -> HttpResult.
Variables base_url snapshots_dir : string.

Local Abbreviation normalize := (_normalize_html_for_comparison BeautifulSoup).
Local Abbreviation has_changed := (_has_content_changed_from_temp BeautifulSoup).
Local Abbreviation fetch := (fetch_page urljoin http base_url).
Local Abbreviation url_of := (page_url_of urljoin base_url).
Local Abbreviation pages_of := (pages_or_default base_url).
Local Abbreviation matches := (page_matches BeautifulSoup).
Local Abbreviation run_snapshot :=
  (snapshot BeautifulSoup urljoin url_path sha256_hexdigest http base_url snapshots_dir).

Lemma compare_pages_matching debug prev prev_pages temp_pages w :
  Forall (matches prev prev_pages) temp_pages ->
  compare_pages BeautifulSoup debug prev prev_pages temp_pages w = (Ok false, w).
Proof.
  induction 1 as [|tp rest Htp _ IH]; [reflexivity|].
  destruct tp as [url html|url err]; cbn; [|exact IH].
  destruct Htp as (pp & ph & -> & -> & ->).
  rewrite String.eqb_refl. cbn. exact IH.
Qed.

Lemma compare_pages_false debug prev prev_pages temp_pages w w' :
  compare_pages BeautifulSoup debug prev prev_pages temp_pages w = (Ok false, w') ->
  w' = w /\ Forall (matches prev prev_pages) temp_pages.
Proof.
  induction temp_pages as [|tp rest IH]; cbn.
  - intros [= <-]. split; [reflexivity|constructor].
  - destruct tp as [url html|url err].
    + destruct (find_prev_page url prev_pages) as [pp|] eqn:Hf; [|discriminate].
      destruct (files prev !! prev_html_file pp) as [ph|] eqn:Hp; [|discriminate].
      destruct (String.eqb (normalize html) (normalize ph)) eqn:Hn; cbn.
      * intros H. destruct (IH H) as [-> HF]. split; [reflexivity|].
        constructor; [|exact HF]. cbn. exists pp, ph.
        apply String.eqb_eq in Hn. auto.
      * unfold bind, modify, ret. cbn. discriminate.
    + intros H. destruct (IH H) as [-> HF]. split; [reflexivity|].
      constructor; [exact I|exact HF].
Qed.

(** The detector answers false exactly when the most recent snapshot has a
    manifest with as many records as there are fetched pages and every
    fetched page agrees with it; the world is then as it was. *)
Lemma has_changed_false_iff debug temp_pages w w' :
  has_changed debug temp_pages w = (Ok false, w') <->
  w' = w /\ exists name prev m,
    most_recent w name prev /\ manifest prev = Some m
    /\ length temp_pages = length (m_pages m)
    /\ Forall (matches prev (m_pages m)) temp_pages.
Proof.
  unfold _has_content_changed_from_temp, bind. split.
  - destruct (_get_most_recent_snapshot w) as [[o|e] w1] eqn:E; [|discriminate].
    assert (w1 = w) as -> by (unfold _get_most_recent_snapshot, bind, get_world, ret in E;
                              cbn in E; congruence).
    destruct o as [[name prev]|]; [|discriminate].
    apply get_most_recent_some in E.
    destruct (manifest prev) as [m|] eqn:Hm; [|discriminate].
    destruct (length temp_pages =? length (m_pages m)) eqn:Hl; [|discriminate].
    cbn. intros H. apply compare_pages_false in H as [-> HF].
    split; [reflexivity|]. exists name, prev, m.
    apply Nat.eqb_eq in Hl. auto.
  - intros (-> & name & prev & m & Hr & Hm & Hl & HF).
    apply get_most_recent_some in Hr. rewrite Hr, Hm.
    apply Nat.eqb_eq in Hl. rewrite Hl. cbn.
    apply compare_pages_matching, HF.
Qed.

(** C3.  When the snapshot root holds no directory, or the most recent
    directory has no manifest, the detector answers true whatever the
    fetched pages and the normaliser are, and touches nothing: no file is
    read for a comparison and no debug file is written. *)
Theorem has_changed_without_previous debug temp_pages w :
  snapshots w = ∅
  \/ (exists name prev, most_recent w name prev /\ manifest prev = None) ->
  has_changed debug temp_pages w = (Ok true, w).
Proof.
  unfold _has_content_changed_from_temp, bind.
  intros [H|(name & prev & Hr & Hm)].
  - rewrite (get_most_recent_none _ H). reflexivity.
  - apply get_most_recent_some in Hr. rewrite Hr, Hm. reflexivity.
Qed.

(** The first loop of [snapshot] makes one request per page and nothing
    else. *)
Lemma fetch_page_spec page w :
  exists temp_page, fetch page w = (Ok temp_page, log_request (url_of page) w).
Proof.
  unfold fetch_page, bind, requests_get. fold (url_of page).
  destruct (http (length (requests w)) (url_of page)); eexists; reflexivity.
Qed.

Lemma fetch_pages_spec pages w :
  exists temp_pages w',
    mapM fetch pages w = (Ok temp_pages, w')
    /\ length temp_pages = length pages
    /\ requests w' = requests w ++ map url_of pages
    /\ disk w' = disk w /\ asset_cache w' = asset_cache w.
Proof.
  revert w. induction pages as [|p pages IH]; intros w.
  - exists [], w. cbn. rewrite app_nil_r. auto.
  - rewrite mapM_cons. destruct (fetch_page_spec p w) as [tp ->].
    destruct (IH (log_request (url_of p) w))
      as (tps & w' & -> & Hl & Hr & Hd & Hc).
    eexists _, w'. split; [reflexivity|]. cbn. rewrite Hl, Hr. cbn.
    rewrite <- app_assoc. auto.
Qed.

(** C8.  When the detector reports no change for the fetched batch,
    [snapshot] returns [None]; the disk (cache index file, asset files,
    snapshot directories with their manifests, debug files) and the asset
    cache are as before the call, and the only requests made are the ones
    for the pages: no asset is fetched. *)
Theorem snapshot_without_change clock pages_to_archive w :
  let fetched := mapM fetch (pages_of pages_to_archive) w in
  (exists temp_pages,
      fst fetched = Ok temp_pages
      /\ fst (has_changed (now_debug clock) temp_pages (snd fetched)) = Ok false) ->
  run_snapshot clock pages_to_archive w = (Ok None, snd fetched)
  /\ disk (snd fetched) = disk w
  /\ asset_cache (snd fetched) = asset_cache w
  /\ requests (snd fetched)
     = requests w ++ map url_of (pages_of pages_to_archive).
Proof.
  intros fetched (temp_pages & Hf & Hd).
  destruct (fetch_pages_spec (pages_of pages_to_archive) w)
    as (tps & w1 & E & _ & Hr & Hdisk & Hc).
  subst fetched. rewrite E in *. cbn in *. injection Hf as ->.
  split; [|auto].
  unfold snapshot. fold (pages_of pages_to_archive).
  unfold bind at 1. rewrite E.
  destruct (has_changed (now_debug clock) temp_pages w1) as [r w2] eqn:Hc2.
  cbn in Hd. subst r. pose proof Hc2 as Hc3.
  apply has_changed_false_iff in Hc3 as [-> _].
  unfold bind at 1. rewrite Hc2. reflexivity.
Qed.

(** C10.  A page that failed to fetch is passed over by the detector: when
    the most recent snapshot has a manifest with as many records as there
    are fetched pages and all the other fetched pages agree with it, the
    detector answers false and [snapshot] returns [None], whatever the
    manifest records for the failed page. *)
Theorem failed_page_does_not_trigger_snapshot
    clock pages w name prev m before url error after :
  let fetched := mapM fetch pages w in
  fst fetched = Ok (before ++ TempFailed url error :: after) ->
  most_recent w name prev ->
  manifest prev = Some m ->
  length pages = length (m_pages m) ->
  Forall (matches prev (m_pages m)) (before ++ after) ->
  has_changed (now_debug clock) (before ++ TempFailed url error :: after) (snd fetched)
  = (Ok false, snd fetched)
  /\ run_snapshot clock (Some pages) w = (Ok None, snd fetched).
Proof.
  intros fetched Hf Hr Hm Hl HF.
  destruct (fetch_pages_spec pages w) as (tps & w1 & E & Hlen & _ & Hdisk & _).
  subst fetched. rewrite E in *. cbn in *. injection Hf as ->.
  assert (has_changed (now_debug clock) (before ++ TempFailed url error :: after) w1
          = (Ok false, w1)) as Hc.
  { apply has_changed_false_iff. split; [reflexivity|].
    exists name, prev, m. repeat split.
    - unfold disk in Hdisk. destruct Hr as [Hr _]. congruence.
    - intros n d Hn. destruct Hr as [_ Hr]. apply (Hr n d).
      unfold disk in Hdisk. congruence.
    - exact Hm.
    - congruence.
    - apply Forall_app in HF as [HF1 HF2]. apply Forall_app. split; [exact HF1|].
      constructor; [exact I|exact HF2]. }
  split; [exact Hc|].
  unfold snapshot, pages_or_default. unfold bind at 1. rewrite E.
  unfold bind at 1. rewrite Hc. reflexivity.
Qed.

End Detector.

Lemma has_changed_without_previous_witness :
  (snapshots empty_world = ∅
   \/ exists name prev, most_recent empty_world name prev /\ manifest prev = None)
  /\ _has_content_changed_from_temp html_parser "20240102_000000"
       [TempOk "https://example.com/" "<p>new</p>"] empty_world
     = (Ok true, empty_world).
Proof.
  assert (snapshots empty_world = ∅
          \/ exists name prev, most_recent empty_world name prev /\ manifest prev = None)
    as H by (left; reflexivity).
  split; [exact H|].
  exact (has_changed_without_previous html_parser "20240102_000000"
           [TempOk "https://example.com/" "<p>new</p>"] empty_world H).
Defined.

Lemma snapshot_without_change_witness :
  let http := fun (_ : nat) (_ : string) => HttpOk "<p>old</p>" [] in
  let w1 := log_request "https://example.com/" example_world in
  fst (_has_content_changed_from_temp html_parser "20240102_000000"
         [TempOk "https://example.com/" "<p>old</p>"] w1) = Ok false
  /\ example_snapshot http ["https://example.com/"] example_clock example_world
     = (Ok None, w1)
  /\ disk w1 = disk example_world.
Proof.
  intros http w1.
  assert (fst (_has_content_changed_from_temp html_parser "20240102_000000"
                 [TempOk "https://example.com/" "<p>old</p>"] w1) = Ok false)
    as H by (vm_compute; reflexivity).
  split; [exact H|].
  pose proof (snapshot_without_change html_parser urljoin_absolute simple_url_path
                toy_hexdigest http "https://example.com" "snapshots/example.com"
                example_clock (Some ["https://example.com/"]) example_world
                (ex_intro _ [TempOk "https://example.com/" "<p>old</p>"]
                          (conj eq_refl H))) as (H1 & H2 & _).
  split; [exact H1|exact H2].
Defined.

Lemma failed_page_does_not_trigger_snapshot_witness :
  let w1 := log_request "https://example.com/about"
              (log_request "https://example.com/" example_world2) in
  _has_content_changed_from_temp html_parser "20240102_000000"
    [TempOk "https://example.com/" "<p>old</p>";
     TempFailed "https://example.com/about" "timeout"] w1
  = (Ok false, w1)
  /\ snapshot html_parser urljoin_absolute simple_url_path toy_hexdigest
       http_about_fails "https://example.com" "snapshots/example.com" example_clock
       (Some ["https://example.com/"; "https://example.com/about"]) example_world2
     = (Ok None, w1).
Proof.
  intros w1.
  apply (failed_page_does_not_trigger_snapshot html_parser urljoin_absolute
           simple_url_path toy_hexdigest http_about_fails "https://example.com"
           "snapshots/example.com" example_clock
           ["https://example.com/"; "https://example.com/about"] example_world2
           "2024-01-01_00-00-00" example_dir2 example_manifest2
           [TempOk "https://example.com/" "<p>old</p>"]
           "https://example.com/about" "timeout" []).
  - vm_compute. reflexivity.
  - apply get_most_recent_some. vm_compute. reflexivity.
  - reflexivity.
  - reflexivity.
  - constructor; [|constructor].
    exists ("index.html", Some "index_original.html"), "<p>old</p>".
    repeat split; vm_compute; reflexivity.
Defined.

(** ** The change summary *)

(** C1.  A run that finds a change and builds the snapshot
    [2024-01-02_00-00-00] next to the snapshot [2024-01-01_00-00-00]: the
    detector has written its debug files for the changed page, yet the
    summary of the new snapshot names the new snapshot itself as the one it
    compared to and reports that no page changed.  The summary looks for
    the most recent snapshot after the new directory, its files and its
    manifest have been written. *)
Theorem change_summary_compares_snapshot_with_itself :
  let r := example_snapshot (fun _ _ => HttpOk "<p>new</p>" [])
             ["https://example.com/"] example_clock example_world in
  fst r = Ok (Some "2024-01-02_00-00-00")
  /\ debug_files (snd r) !! "current_20240102_000000.txt" = Some "<p>new</p>"
  /\ debug_files (snd r) !! "previous_20240102_000000.txt" = Some "<p>old</p>"
  /\ (changes <$> snapshots (snd r) !! "2024-01-02_00-00-00")
     = Some (Some
         [SL rule70; SL "WEBSITE CHANGE SUMMARY";
          SL "Snapshot Date: 2024-01-02 00:00:00";
          SL "Website: https://example.com"; SL rule70; SL "";
          SL "Compared to: 2024-01-02_00-00-00"; SL "";
          SL "NO CHANGES DETECTED";
          SL "All monitored pages remain identical to previous snapshot";
          SL ""; SL rule70; SLPagesMonitored 1;
          SL "Snapshot stored at: snapshots/example.com/2024-01-02_00-00-00";
          SL rule70]).
Proof. vm_compute. repeat split. Qed.

(** ** The page rewriter *)

(** Induction on a node with the hypothesis for every child. *)
Fixpoint node_forall_ind (P : node -> Prop)
    (Hs : forall s, P (NavigableString s))
    (Ht : forall name attrs children, Forall P children -> P (Tag name attrs children))
    (n : node) : P n :=
  match n with
  | NavigableString s => Hs s
  | Tag name attrs children =>
      Ht name attrs children
         ((fix go (l : list node) : Forall P l :=
             match l with
             | [] => List.Forall_nil P
             | c :: l' => List.Forall_cons P c l' (node_forall_ind P Hs Ht c) (go l')
             end) children)
  end.

Section Rewriter.
Variable BeautifulSoup : string -> soup.
Variable urljoin : string -> string -> string.
Variable url_path : string -> string.
Variable sha256_hexdigest : bytes -> string.
Variable http : nat -> string -> HttpResult.
Variable page_url : string.

Local Abbreviation save := (_save_asset url_path sha256_hexdigest).
Local Abbreviation fetch_to := (fetch_into urljoin url_path sha256_hexdigest http page_url).
Local Abbreviation outcome := (tag_outcome urljoin http page_url).

Lemma save_asset_ok url content w :
  exists path w', save url content w = (Ok path, w') /\ requests w' = requests w.
Proof.
  destruct (asset_cache w !! _get_file_hash sha256_hexdigest content) as [p|] eqn:E.
  - exists p, w. split; [apply save_asset_cached, E|reflexivity].
  - unfold _save_asset, bind, get_world. cbn. rewrite E. cbn.
    eexists _, _. split; [reflexivity|reflexivity].
Qed.

Lemma fetch_into_spec key ref attrs w :
  exists attrs' own w',
    fetch_to key ref attrs w = (Ok (attrs', own), w')
    /\ outcome (Some (key, ref)) (length (requests w)) attrs attrs' own
               (length (requests w')).
Proof.
  unfold fetch_into, _download_asset, requests_get, bind, tag_outcome. cbn.
  destruct (http (length (requests w)) (urljoin page_url ref)) as [text content|e]; cbn.
  - destruct content as [|b content]; cbn.
    + eexists _, _, _. split; [reflexivity|]. cbn.
      rewrite length_app. cbn. split; [lia|]. split; reflexivity.
    + destruct (save_asset_ok (urljoin page_url ref) (b :: content)
                  (log_request (urljoin page_url ref) w)) as (path & w' & -> & Hr).
      eexists _, _, _. split; [reflexivity|]. rewrite Hr. cbn.
      rewrite length_app. cbn. split; [lia|]. eauto.
  - eexists _, _, _. split; [reflexivity|]. cbn.
    rewrite length_app. cbn. split; [lia|]. split; reflexivity.
Qed.

(** A loop body: fetch the target of the tag, if it has one. *)
Definition loop_body (target : string -> list (string * string) -> option (string * string))
    (f : string -> list (string * string) -> M (list (string * string) * list string))
    : Prop :=
  forall name attrs,
    f name attrs = match target name attrs with
                   | Some (key, ref) => fetch_to key ref attrs
                   | None => ret (attrs, [])
                   end.

Lemma rewrite_img_body :
  loop_body img_target (rewrite_img urljoin url_path sha256_hexdigest http page_url).
Proof.
  intros name attrs. unfold rewrite_img, img_target.
  destruct (String.eqb name "img"); [|reflexivity].
  destruct (attr_get "src" attrs) as [src|]; [|reflexivity].
  destruct (truthy src); reflexivity.
Qed.

Lemma rewrite_link_body :
  loop_body link_target (rewrite_link urljoin url_path sha256_hexdigest http page_url).
Proof.
  intros name attrs. unfold rewrite_link, link_target.
  destruct (String.eqb name "link" && rel_stylesheet attrs); [|reflexivity].
  destruct (attr_get "href" attrs) as [href|]; [|reflexivity].
  destruct (truthy href); reflexivity.
Qed.

Lemma rewrite_script_body :
  loop_body script_target (rewrite_script urljoin url_path sha256_hexdigest http page_url).
Proof.
  intros name attrs. unfold rewrite_script, script_target.
  destruct (String.eqb name "script"); [|reflexivity].
  destruct (attr_get "src" attrs) as [src|]; reflexivity.
Qed.

Section Loop.
Variable target : string -> list (string * string) -> option (string * string).
Variable f : string -> list (string * string) -> M (list (string * string) * list string).
Hypothesis f_body : loop_body target f.

Local Abbreviation rew := (rewritten urljoin http page_url target).
Local Abbreviation rew_all := (rewritten_all urljoin http page_url target).

Lemma loop_body_spec name attrs w :
  exists attrs' own w',
    f name attrs w = (Ok (attrs', own), w')
    /\ outcome (target name attrs) (length (requests w)) attrs attrs' own
               (length (requests w')).
Proof.
  rewrite f_body. destruct (target name attrs) as [[key ref]|].
  - apply fetch_into_spec.
  - exists attrs, [], w. split; [reflexivity|]. cbn. repeat split.
Qed.

Definition node_spec (n : node) : Prop :=
  forall w, exists n' used w',
    mapM_tags f n w = (Ok (n', used), w')
    /\ rew (length (requests w)) n n' used (length (requests w')).

Lemma nodes_spec (ns : list node) :
  Forall node_spec ns ->
  forall w, exists rs w',
    mapM (mapM_tags f) ns w = (Ok rs, w')
    /\ rew_all (length (requests w)) ns (map fst rs) (concat (map snd rs))
               (length (requests w')).
Proof.
  induction 1 as [|n ns Hn _ IH]; intros w.
  - exists [], w. split; [reflexivity|constructor].
  - rewrite mapM_cons. destruct (Hn w) as (n' & used & w1 & -> & Hrew).
    destruct (IH w1) as (rs & w2 & -> & Hall).
    eexists _, w2. split; [reflexivity|]. cbn. econstructor; eassumption.
Qed.

Lemma mapM_tags_spec (n : node) : node_spec n.
Proof.
  induction n as [s|name attrs children IH] using node_forall_ind; intros w.
  - exists (NavigableString s), [], w. split; [reflexivity|constructor].
  - cbn. unfold bind at 1.
    destruct (loop_body_spec name attrs w) as (attrs' & own & w1 & -> & Hout).
    destruct (nodes_spec children IH w1) as (rs & w2 & E & Hall).
    unfold bind at 1. cbn in E. cbn. rewrite E.
    eexists _, _, w2. split; [reflexivity|]. cbn. econstructor; eassumption.
Qed.

Lemma mapM_soup_spec (doc : soup) w :
  exists doc' used w',
    mapM_soup f doc w = (Ok (doc', used), w')
    /\ rew_all (length (requests w)) doc doc' used (length (requests w')).
Proof.
  unfold mapM_soup, bind.
  assert (Forall node_spec doc) as HF
    by (apply Forall_forall; intros n _; apply mapM_tags_spec).
  destruct (nodes_spec doc HF w) as (rs & w' & -> & Hall).
  eexists _, _, w'. split; [reflexivity|exact Hall].
Qed.

End Loop.


End Rewriter.

(** ** The matcher and [re.sub] *)

Lemma char_eqb_eq a b : char_eqb a b = true <-> a = b.
Proof. apply Ascii.eqb_eq. Qed.

Lemma char_eqb_refl a : char_eqb a a = true.
Proof. apply Ascii.eqb_refl. Qed.

Lemma explode_app (a b : string) : explode (a +:+ b) = explode a ++ explode b.
Proof.
  induction a as [|c a IH]; [reflexivity|].
  change (c :: explode (a +:+ b) = c :: explode a ++ explode b).
  f_equal. exact IH.
Qed.

Lemma explode_implode (s : chars) : explode (implode s) = s.
Proof. apply list_ascii_of_string_of_list_ascii. Qed.

Lemma implode_explode (s : string) : implode (explode s) = s.
Proof. apply string_of_list_ascii_of_string. Qed.

Lemma lit_loop_spec eq l s n k :
  lit_loop eq l s n k
  = if prefix_by eq l s then k (drop (length l) s) (n + length l) else None.
Proof.
  revert s n. induction l as [|a l IH]; intros s n; cbn.
  - rewrite Nat.add_0_r. reflexivity.
  - destruct s as [|c s]; [reflexivity|]. cbn.
    destruct (eq a c); cbn; [|reflexivity].
    rewrite IH. replace (S n + length l) with (n + S (length l)) by lia. reflexivity.
Qed.

Lemma star_loop_always p s n :
  star_loop p s n (fun _ m => Some m) = Some (n + span_len p s).
Proof.
  revert n. induction s as [|c s IH]; intros n; cbn.
  - f_equal. lia.
  - destruct (p c); [|f_equal; lia]. rewrite IH. f_equal. lia.
Qed.

Lemma star_loop_commit p s n k r :
  k (drop (span_len p s) s) (n + span_len p s) = Some r ->
  star_loop p s n k = Some r.
Proof.
  revert n. induction s as [|c s IH]; intros n; cbn.
  - rewrite Nat.add_0_r. auto.
  - destruct (p c); cbn.
    + intros H. rewrite (IH (S n)); [reflexivity|].
      replace (S n + span_len p s) with (n + S (span_len p s)) by lia. exact H.
    + rewrite Nat.add_0_r. auto.
Qed.

Lemma star_loop_none p s n k :
  (forall i, i <= span_len p s -> k (drop i s) (n + i) = None) ->
  star_loop p s n k = None.
Proof.
  revert n. induction s as [|c s IH]; intros n H; cbn.
  - specialize (H 0 (Nat.le_0_l _)). rewrite Nat.add_0_r in H. exact H.
  - cbn in H. destruct (p c).
    + rewrite (IH (S n)).
      * specialize (H 0 (Nat.le_0_l _)). rewrite Nat.add_0_r in H. exact H.
      * intros i Hi. specialize (H (S i) (le_n_S _ _ Hi)). cbn in H.
        replace (S n + i) with (n + S i) by lia. exact H.
    + specialize (H 0 (Nat.le_0_l _)). rewrite Nat.add_0_r in H. exact H.
Qed.

(** A literal followed by one or more characters of a class. *)
Lemma match_lit_plus l p s :
  match_at (Seq (Lit l) (Plus p)) s
  = if starts_with (explode l) s
    then match span_len p (drop (length (explode l)) s) with
         | 0 => None
         | S m => Some (length (explode l) + S m)
         end
    else None.
Proof.
  unfold match_at. cbn [rmatch]. rewrite lit_loop_spec. fold (starts_with (explode l) s).
  destruct (starts_with (explode l) s); [|reflexivity].
  destruct (drop (length (explode l)) s) as [|c s']; cbn; [reflexivity|].
  destruct (p c); [|reflexivity]. rewrite star_loop_always. f_equal. lia.
Qed.

Lemma sub_skip_drop m rep k s :
  sub_skip m rep k s = sub_skip m rep 0 (drop k s).
Proof.
  revert k. induction s as [|c s IH]; intros [|k]; cbn; try reflexivity.
  rewrite IH. reflexivity.
Qed.

Lemma sub_cons m rep c s :
  sub_skip m rep 0 (c :: s)
  = match m (c :: s) with
    | Some (S n) => rep ++ sub_skip m rep 0 (drop n s)
    | _ => c :: sub_skip m rep 0 s
    end.
Proof.
  cbn. destruct (m (c :: s)) as [[|n]|]; try reflexivity.
  rewrite sub_skip_drop. reflexivity.
Qed.

(** Where the pattern matches nowhere, [re.sub] returns its subject. *)
Lemma sub_no_match m rep s :
  (forall i, i < length s -> m (drop i s) = None) ->
  sub_skip m rep 0 s = s.
Proof.
  induction s as [|c s IH]; intros H; [reflexivity|].
  rewrite sub_cons. pose proof (H 0 (Nat.lt_0_succ _)) as H0. cbn in H0.
  rewrite H0. f_equal.
  apply IH. intros i Hi. apply (H (S i)). cbn. lia.
Qed.

(** ** Tracking parameters *)

Lemma tracking_pattern_shape :
  re_q_gl = Seq (Lit "?_gl=") (Plus url_char)
  /\ re_a_gl = Seq (Lit "&_gl=") (Plus url_char)
  /\ re_q_ga = Seq (Lit "?_ga=") (Plus url_char)
  /\ re_a_ga = Seq (Lit "&_ga=") (Plus url_char).
Proof. repeat split. Qed.

Lemma prefix_by_app eq p q t :
  prefix_by eq (p ++ q) t = true -> prefix_by eq p t = true.
Proof.
  revert t. induction p as [|a p IH]; intros t; [reflexivity|].
  destruct t as [|b t]; cbn; [discriminate|].
  intros H. apply andb_true_iff in H as [-> H]. cbn. apply IH, H.
Qed.

Lemma lit_tracking_start l t :
  In l tracking_prefixes ->
  starts_with (explode l) t = true -> tracking_start t = true.
Proof.
  unfold tracking_start, starts_with.
  intros [<-|[<-|[<-|[<-|[]]]]] H.
  - change (explode "?_gl=") with (explode "?_g" ++ explode "l=") in H.
    apply prefix_by_app in H. rewrite H. reflexivity.
  - change (explode "&_gl=") with (explode "&_g" ++ explode "l=") in H.
    apply prefix_by_app in H. rewrite H. apply orb_true_r.
  - change (explode "?_ga=") with (explode "?_g" ++ explode "a=") in H.
    apply prefix_by_app in H. rewrite H. reflexivity.
  - change (explode "&_ga=") with (explode "&_g" ++ explode "a=") in H.
    apply prefix_by_app in H. rewrite H. apply orb_true_r.
Qed.

Lemma tracking_no_start l t :
  In l tracking_prefixes ->
  tracking_start t = false ->
  match_at (Seq (Lit l) (Plus url_char)) t = None.
Proof.
  intros Hl Ht. rewrite match_lit_plus.
  destruct (starts_with (explode l) t) eqn:E; [|reflexivity].
  apply (lit_tracking_start _ _ Hl) in E. congruence.
Qed.

Lemma tracking_start_app u r :
  u <> [] -> tracking_start u = false -> sep_head r ->
  tracking_start (u ++ r) = false.
Proof.
  unfold tracking_start, starts_with, sep_head.
  destruct u as [|a [|b [|c u]]]; [congruence|..]; intros _ H Hr; cbn in *.
  - destruct r as [|x r]; cbn; [exact H|]. destruct Hr as [-> _].
    rewrite !andb_false_r. reflexivity.
  - destruct r as [|x r]; cbn; [exact H|]. destruct Hr as [_ ->].
    rewrite !andb_false_r. reflexivity.
  - exact H.
Qed.

Lemma sub_through_free m rep u r :
  (forall t, tracking_start t = false -> m t = None) ->
  tracking_free u = true -> sep_head r ->
  sub_skip m rep 0 (u ++ r) = u ++ sub_skip m rep 0 r.
Proof.
  intros Hm. induction u as [|c u IH]; intros Hu Hr; [reflexivity|].
  cbn [tracking_free] in Hu. apply andb_true_iff in Hu as [Hc Hu].
  apply negb_true_iff in Hc.
  change ((c :: u) ++ r) with (c :: (u ++ r)). rewrite sub_cons.
  rewrite (Hm (c :: u ++ r)).
  - cbn. f_equal. apply IH; assumption.
  - apply (tracking_start_app (c :: u) r); [discriminate|assumption..].
Qed.

Lemma no_sep_no_start t i :
  forallb no_sep t = true -> tracking_start (drop i t) = false.
Proof.
  revert i. induction t as [|c t IH]; intros i H.
  - destruct i; reflexivity.
  - cbn in H. apply andb_true_iff in H as [Hc H]. destruct i as [|i]; [|apply IH, H].
    unfold tracking_start, starts_with, no_sep in *. cbn.
    apply andb_true_iff in Hc as [H1 H2]. apply negb_true_iff in H1, H2.
    unfold char_eqb in *. rewrite (Ascii.eqb_sym "?" c), (Ascii.eqb_sym "&" c).
    rewrite H1, H2. reflexivity.
Qed.

Lemma sub_no_sep l rep t :
  In l tracking_prefixes -> forallb no_sep t = true ->
  sub_skip (match_at (Seq (Lit l) (Plus url_char))) rep 0 t = t.
Proof.
  intros Hl Ht. apply sub_no_match. intros i _.
  apply tracking_no_start; [exact Hl|]. apply no_sep_no_start, Ht.
Qed.

Lemma value_chars_span v :
  forallb value_char v = true -> span_len url_char v = length v.
Proof.
  induction v as [|c v IH]; cbn; [reflexivity|]. intros H.
  apply andb_true_iff in H as [Hc H]. unfold value_char in Hc.
  apply andb_true_iff in Hc as [Hc _]. apply andb_true_iff in Hc as [-> _].
  rewrite IH; auto.
Qed.

Lemma value_chars_no_sep v :
  forallb value_char v = true -> forallb no_sep v = true.
Proof.
  induction v as [|c v IH]; cbn; [reflexivity|]. intros H.
  apply andb_true_iff in H as [Hc H]. rewrite IH; [|exact H].
  unfold value_char in Hc. apply andb_true_iff in Hc as [Hc H2].
  apply andb_true_iff in Hc as [_ H1]. unfold no_sep. rewrite H1, H2. reflexivity.
Qed.

Lemma prefix_by_self_app l v : starts_with l (l ++ v) = true.
Proof.
  unfold starts_with. induction l as [|a l IH]; [reflexivity|].
  cbn. rewrite char_eqb_refl. exact IH.
Qed.

(** A match that covers the whole subject. *)
Lemma sub_whole m rep s :
  s <> [] -> m s = Some (length s) -> sub_skip m rep 0 s = rep.
Proof.
  destruct s as [|c s]; [congruence|]. intros _ H.
  rewrite sub_cons, H. cbn [length]. rewrite drop_all. cbn. apply app_nil_r.
Qed.

Lemma match_own_parameter l v :
  v <> [] -> forallb value_char v = true ->
  match_at (Seq (Lit l) (Plus url_char)) (explode l ++ v)
  = Some (length (explode l ++ v)).
Proof.
  intros Hv Hvc. rewrite match_lit_plus, prefix_by_self_app.
  rewrite drop_app_length, (value_chars_span v Hvc).
  destruct v as [|c v]; [congruence|]. rewrite length_app. reflexivity.
Qed.

Lemma match_other_parameter l p v :
  In l tracking_prefixes -> In p tracking_prefixes -> l <> p ->
  forallb value_char v = true ->
  sub_skip (match_at (Seq (Lit l) (Plus url_char))) [] 0 (explode p ++ v)
  = explode p ++ v.
Proof.
  intros Hl Hp Hne Hvc. pose proof (value_chars_no_sep v Hvc) as Hns.
  apply sub_no_match. intros [|i] _.
  - rewrite match_lit_plus.
    destruct Hl as [<-|[<-|[<-|[<-|[]]]]]; destruct Hp as [<-|[<-|[<-|[<-|[]]]]];
      try congruence; vm_compute; reflexivity.
  - apply tracking_no_start; [exact Hl|].
    destruct Hp as [<-|[<-|[<-|[<-|[]]]]];
      apply (no_sep_no_start (_ :: _ :: _ :: _ :: v) i);
      cbn [forallb]; rewrite Hns; reflexivity.
Qed.

(** One pass over a value that ends in a tracking parameter: the pass for
    that parameter removes it, the other passes change nothing. *)
Lemma sub_tracking l p u v :
  In l tracking_prefixes -> In p tracking_prefixes ->
  tracking_free u = true -> v <> [] -> forallb value_char v = true ->
  sub_chars (Seq (Lit l) (Plus url_char)) "" (u ++ explode p ++ v)
  = if String.eqb l p then u else u ++ explode p ++ v.
Proof.
  intros Hl Hp Hu Hv Hvc. unfold sub_chars.
  rewrite sub_through_free;
    [|intros t; apply tracking_no_start, Hl|exact Hu|].
  2:{ destruct Hp as [<-|[<-|[<-|[<-|[]]]]]; split; reflexivity. }
  destruct (String.eqb l p) eqn:E.
  - apply String.eqb_eq in E. subst p.
    rewrite sub_whole; [apply app_nil_r| |apply match_own_parameter; assumption].
    destruct (explode l); [exact Hv|discriminate].
  - apply String.eqb_neq in E. f_equal. apply match_other_parameter; assumption.
Qed.

Lemma sub_tracking_free l u :
  In l tracking_prefixes -> tracking_free u = true ->
  sub_chars (Seq (Lit l) (Plus url_char)) "" u = u.
Proof.
  intros Hl Hu. unfold sub_chars.
  rewrite <- (app_nil_r u) at 1.
  rewrite sub_through_free;
    [apply app_nil_r|intros t; apply tracking_no_start, Hl|exact Hu|exact I].
Qed.

Ltac in_prefixes :=
  unfold tracking_prefixes;
  first [ left; reflexivity
        | right; left; reflexivity
        | right; right; left; reflexivity
        | right; right; right; left; reflexivity ].

Lemma re_sub_tracking l p u v :
  In l tracking_prefixes -> In p tracking_prefixes ->
  tracking_free (explode u) = true -> param_value v ->
  re_sub (Seq (Lit l) (Plus url_char)) "" (u +:+ p +:+ v)
  = if String.eqb l p then u else u +:+ p +:+ v.
Proof.
  intros Hl Hp Hu [Hv Hvc].
  assert (explode v <> []) as Hv' by (destruct v; [congruence|discriminate]).
  unfold re_sub. rewrite !explode_app, sub_tracking by assumption.
  destruct (String.eqb l p); [apply implode_explode|].
  rewrite <- !explode_app. apply implode_explode.
Qed.

Lemma re_sub_tracking_free l u :
  In l tracking_prefixes -> tracking_free (explode u) = true ->
  re_sub (Seq (Lit l) (Plus url_char)) "" u = u.
Proof.
  intros Hl Hu. unfold re_sub. rewrite sub_tracking_free by assumption.
  apply implode_explode.
Qed.

Ltac tracking_pass l :=
  first [ rewrite (re_sub_tracking l) by (assumption || in_prefixes)
        | rewrite (re_sub_tracking_free l) by (assumption || in_prefixes) ];
  cbn [String.eqb Ascii.eqb Bool.eqb].

(** Lines 420-423 on a value that ends in one tracking parameter. *)
Lemma strip_tracking_param u p v :
  tracking_free (explode u) = true -> In p tracking_prefixes -> param_value v ->
  strip_tracking_params (u +:+ p +:+ v) = u.
Proof.
  intros Hu Hp Hv. unfold strip_tracking_params.
  destruct tracking_pattern_shape as (-> & -> & -> & ->).
  destruct Hp as [<-|[<-|[<-|[<-|[]]]]];
    tracking_pass "?_gl="; tracking_pass "&_gl=";
    tracking_pass "?_ga="; tracking_pass "&_ga="; reflexivity.
Qed.

Lemma attr_get_set_eq key value attrs :
  attr_get key (attr_set key value attrs) = Some value.
Proof.
  induction attrs as [|[k v] attrs IH]; cbn.
  - rewrite String.eqb_refl. reflexivity.
  - destruct (String.eqb k key) eqn:E; cbn; rewrite E; [reflexivity|exact IH].
Qed.

Lemma attr_get_set_ne key key' value attrs :
  key <> key' ->
  attr_get key' (attr_set key value attrs) = attr_get key' attrs.
Proof.
  intros Hne. induction attrs as [|[k v] attrs IH]; cbn.
  - apply String.eqb_neq in Hne. rewrite Hne. reflexivity.
  - destruct (String.eqb k key) eqn:E; cbn.
    + apply String.eqb_eq in E. subst k.
      apply String.eqb_neq in Hne. rewrite Hne. reflexivity.
    + rewrite IH. reflexivity.
Qed.

Lemma strip_href_get_other name key attrs :
  key <> "href" -> attr_get key (strip_href name attrs) = attr_get key attrs.
Proof.
  intros Hne. unfold strip_href.
  destruct (name_in _ name); [|reflexivity].
  destruct (attr_get "href" attrs); [|reflexivity].
  apply attr_get_set_ne. congruence.
Qed.

Lemma strip_src_get_other name key attrs :
  key <> "src" -> attr_get key (strip_src name attrs) = attr_get key attrs.
Proof.
  intros Hne. unfold strip_src.
  destruct (name_in _ name); [|reflexivity].
  destruct (attr_get "src" attrs); [|reflexivity].
  apply attr_get_set_ne. congruence.
Qed.

Lemma tags_of_map_tags f n :
  tags_of_node (map_tags f n)
  = map (fun t => (fst t, f (fst t) (snd t))) (tags_of_node n).
Proof.
  induction n as [s|name attrs children IH] using node_forall_ind; [reflexivity|].
  cbn. f_equal. induction IH as [|c children Hc _ IHc]; [reflexivity|].
  cbn. rewrite map_app. f_equal; assumption.
Qed.

Lemma tags_of_map f doc :
  tags_of (map (map_tags f) doc)
  = map (fun t => (fst t, f (fst t) (snd t))) (tags_of doc).
Proof.
  unfold tags_of. induction doc as [|n doc IH]; [reflexivity|].
  cbn. rewrite map_app, tags_of_map_tags. f_equal. exact IH.
Qed.

Lemma stripped_tag name attrs :
  stripped (name, attrs) (name, strip_src name (strip_href name attrs)).
Proof.
  split; [reflexivity|]. cbn [fst snd]. split.
  - intros key u p v Hcov Hget Hu Hp Hv. unfold covered in Hcov.
    apply orb_true_iff in Hcov as [H|H]; apply andb_true_iff in H as [Hk Hn];
      apply String.eqb_eq in Hk; subst key.
    + rewrite strip_src_get_other by discriminate.
      change (name_in ["a"; "link"; "script"; "img"] name = true) in Hn.
      unfold strip_href. rewrite Hn, Hget, attr_get_set_eq.
      f_equal. apply strip_tracking_param; assumption.
    + change (name_in ["img"; "script"] name = true) in Hn.
      unfold strip_src. rewrite Hn.
      rewrite strip_href_get_other by discriminate.
      rewrite Hget, attr_get_set_eq.
      f_equal. apply strip_tracking_param; assumption.
  - intros key Hcov. unfold covered in Hcov.
    apply orb_false_iff in Hcov as [H1 H2].
    destruct (String.eqb key "href") eqn:Eh.
    + apply String.eqb_eq in Eh. subst key.
      change (name_in ["a"; "link"; "script"; "img"] name = false) in H1.
      rewrite strip_src_get_other by discriminate.
      unfold strip_href. rewrite H1. reflexivity.
    + destruct (String.eqb key "src") eqn:Es.
      * apply String.eqb_eq in Es. subst key.
        change (name_in ["img"; "script"] name = false) in H2.
        unfold strip_src. rewrite H2.
        apply strip_href_get_other. discriminate.
      * apply String.eqb_neq in Eh, Es.
        rewrite strip_src_get_other, strip_href_get_other by assumption.
        reflexivity.
Qed.



(** ** The relative-time pattern *)

Ltac all_chars c :=
  destruct c as [[] [] [] [] [] [] [] []]; vm_compute; intros; congruence.

Lemma digit_not_space c : is_digit c = true -> is_space c = false.
Proof. all_chars c. Qed.

(** A digit or a white-space character begins no unit word. *)
Lemma no_unit_letter c :
  is_digit c = true \/ is_space c = true ->
  char_eqb "h" (to_lower c) = false /\ char_eqb "m" (to_lower c) = false
  /\ char_eqb "d" (to_lower c) = false /\ char_eqb "w" (to_lower c) = false.
Proof.
  intros H. repeat split; revert H;
    destruct c as [[] [] [] [] [] [] [] []]; vm_compute; intros [?|?]; congruence.
Qed.

Lemma unit_len_no_letter c s :
  is_digit c = true \/ is_space c = true -> unit_len (c :: s) = None.
Proof.
  intros H. destruct (no_unit_letter c H) as (Hh & Hm & Hd & Hw).
  unfold unit_len, ci_prefix. cbn. rewrite Hh, Hm, Hd, Hw. reflexivity.
Qed.

Lemma opt_lit_i l s n k :
  rmatch (Opt (LitI l)) s n k
  = if ci_prefix l s
    then match k (drop (length (explode l)) s) (n + length (explode l)) with
         | Some x => Some x
         | None => k s n
         end
    else k s n.
Proof.
  cbn [rmatch]. rewrite lit_loop_spec. fold (ci_prefix l s).
  destruct (ci_prefix l s); reflexivity.
Qed.

Lemma opt_lit_final l s n :
  rmatch (Opt (Lit l)) s n final
  = Some (n + if starts_with (explode l) s then length (explode l) else 0).
Proof.
  cbn [rmatch]. rewrite lit_loop_spec. fold (starts_with (explode l) s).
  destruct (starts_with (explode l) s); unfold final; f_equal; lia.
Qed.

Lemma tail_spec s n :
  rmatch (Seq (Star is_space) (Seq (Opt (LitI "ago")) (Opt (Lit ".")))) s n final
  = Some (n + tail_len s).
Proof.
  cbn [rmatch]. apply star_loop_commit.
  set (w := span_len is_space s). unfold tail_len. fold w.
  change (rmatch (Opt (LitI "ago")) (drop w s) (n + w)
            (fun s' n' => rmatch (Opt (Lit ".")) s' n' final)
          = Some (n + (w + (if ci_prefix "ago" (drop w s) then 3 else 0)
                       + (if starts_with (explode ".")
                               (drop (if ci_prefix "ago" (drop w s) then 3 else 0)
                                     (drop w s))
                          then 1 else 0)))).
  rewrite opt_lit_i. destruct (ci_prefix "ago" (drop w s)).
  - rewrite opt_lit_final. f_equal.
    destruct (starts_with (explode ".") _); cbn [explode list_ascii_of_string length]; lia.
  - rewrite opt_lit_final. f_equal. cbn [drop].
    destruct (starts_with (explode ".") _); cbn [explode list_ascii_of_string length]; lia.
Qed.

Lemma unit_word_spec l s n :
  rmatch (Seq (LitI l) (Opt (LitI "s"))) s n tail_k
  = if ci_prefix l s
    then Some (n + (length (explode l) + opt_s (drop (length (explode l)) s))
               + tail_len (drop (length (explode l) + opt_s (drop (length (explode l)) s)) s))
    else None.
Proof.
  cbn [rmatch]. rewrite lit_loop_spec. fold (ci_prefix l s).
  destruct (ci_prefix l s); [|reflexivity].
  set (m := length (explode l)).
  change (lit_loop _ (explode "s") (drop m s) (n + m) tail_k)
    with (rmatch (LitI "s") (drop m s) (n + m) tail_k).
  change (match rmatch (LitI "s") (drop m s) (n + m) tail_k with
          | Some x => Some x
          | None => tail_k (drop m s) (n + m)
          end) with (rmatch (Opt (LitI "s")) (drop m s) (n + m) tail_k).
  rewrite opt_lit_i. unfold opt_s, tail_k.
  destruct (ci_prefix "s" (drop m s)); rewrite !tail_spec.
  - cbn [explode list_ascii_of_string length]. rewrite drop_drop.
    f_equal. replace (m + 1) with (m + 1) by lia. lia.
  - rewrite Nat.add_0_r. f_equal.
Qed.

Lemma alt_spec r1 r2 s n k :
  rmatch (Alt r1 r2) s n k
  = match rmatch r1 s n k with
    | Some x => Some x
    | None => rmatch r2 s n k
    end.
Proof. reflexivity. Qed.

Lemma unit_spec s n :
  rmatch re_time_unit s n tail_k
  = match unit_len s with
    | Some u => Some (n + u + tail_len (drop u s))
    | None => None
    end.
Proof.
  unfold re_time_unit. rewrite !alt_spec, !unit_word_spec.
  change (rmatch (LitI "h.") s n tail_k)
    with (lit_loop (fun a c => char_eqb a (to_lower c)) (explode "h.") s n tail_k).
  rewrite lit_loop_spec. fold (ci_prefix "h." s). unfold unit_len.
  cbn [explode list_ascii_of_string length].
  destruct (ci_prefix "h." s); [unfold tail_k; rewrite tail_spec; f_equal; lia|].
  destruct (ci_prefix "hour" s); [reflexivity|].
  destruct (ci_prefix "min" s); [reflexivity|].
  destruct (ci_prefix "minute" s); [reflexivity|].
  destruct (ci_prefix "day" s); [reflexivity|].
  destruct (ci_prefix "week" s); [reflexivity|].
  destruct (ci_prefix "month" s); reflexivity.
Qed.

Lemma span_len_inside p s i :
  i < span_len p s -> exists c s', drop i s = c :: s' /\ p c = true.
Proof.
  revert i. induction s as [|c s IH]; intros i; cbn; [lia|].
  destruct (p c) eqn:E; [|lia]. destruct i as [|i]; [eauto|].
  intros H. apply IH. lia.
Qed.

Lemma span_len_stop p s :
  match drop (span_len p s) s with
  | c :: _ => p c = false
  | [] => True
  end.
Proof.
  induction s as [|c s IH]; cbn; [exact I|].
  destruct (p c) eqn:E; [exact IH|exact E].
Qed.

(** After the digits: white space, a unit word and the tail. *)
Lemma time_after_digits s n :
  star_loop is_space s n (fun s2 n2 => rmatch re_time_unit s2 n2 tail_k)
  = match unit_len (drop (span_len is_space s) s) with
    | Some u =>
        Some (n + span_len is_space s + u
              + tail_len (drop u (drop (span_len is_space s) s)))
    | None => None
    end.
Proof.
  destruct (unit_len (drop (span_len is_space s) s)) as [u|] eqn:E.
  - apply star_loop_commit. rewrite unit_spec, E. reflexivity.
  - apply star_loop_none. intros i Hi. rewrite unit_spec.
    destruct (Nat.eq_dec i (span_len is_space s)) as [->|Hne]; [rewrite E; reflexivity|].
    destruct (span_len_inside is_space s i) as (c & s' & -> & Hc); [lia|].
    rewrite unit_len_no_letter; auto.
Qed.

Lemma time_rest s n :
  rmatch (Seq (Star is_space)
            (Seq re_time_unit
               (Seq (Star is_space) (Seq (Opt (LitI "ago")) (Opt (Lit "."))))))
         s n final
  = match unit_len (drop (span_len is_space s) s) with
    | Some u =>
        Some (n + span_len is_space s + u
              + tail_len (drop u (drop (span_len is_space s) s)))
    | None => None
    end.
Proof. exact (time_after_digits s n). Qed.

Lemma plus_spec p r s n k :
  rmatch (Seq (Plus p) r) s n k
  = match s with
    | c :: s' =>
        if p c then star_loop p s' (S n) (fun s1 n1 => rmatch r s1 n1 k) else None
    | [] => None
    end.
Proof. destruct s; reflexivity. Qed.

(** The matcher computes [time_match] for the relative-time pattern. *)
Lemma match_time s : match_at re_time s = time_match s.
Proof.
  unfold match_at, re_time, time_match. rewrite plus_spec. fold final.
  destruct s as [|c s]; [reflexivity|].
  destruct (is_digit c) eqn:Hc; [|reflexivity].
  cbn [span_len]. rewrite Hc. cbn [drop].
  set (d := span_len is_digit s).
  destruct (unit_len (drop (span_len is_space (drop d s)) (drop d s))) as [u|] eqn:E.
  - apply star_loop_commit. rewrite time_rest. fold d. rewrite E.
    f_equal.
  - apply star_loop_none. intros i Hi. rewrite time_rest.
    destruct (Nat.eq_dec i d) as [->|Hne]; [rewrite E; reflexivity|].
    destruct (span_len_inside is_digit s i) as (x & s' & -> & Hx); [fold d; lia|].
    cbn [span_len]. rewrite (digit_not_space x Hx). cbn [drop].
    rewrite unit_len_no_letter; auto.
Qed.

(** *** What the pattern looks at *)

Lemma span_len_le p s : span_len p s <= length s.
Proof. induction s as [|c s IH]; cbn; [lia|]. destruct (p c); lia. Qed.

Lemma span_len_app_lt p t x :
  span_len p t < length t -> span_len p (t ++ x) = span_len p t.
Proof.
  induction t as [|c t IH]; cbn; [lia|].
  destruct (p c); [|reflexivity]. intros H. f_equal. apply IH. lia.
Qed.

Lemma span_len_app_all p t x :
  span_len p t = length t -> span_len p (t ++ x) = length t + span_len p x.
Proof.
  induction t as [|c t IH]; cbn; [reflexivity|].
  destruct (p c); [|discriminate]. intros H. f_equal. apply IH. lia.
Qed.

Lemma span_len_head_false p x :
  match x with [] => True | c :: _ => p c = false end -> span_len p x = 0.
Proof. destruct x as [|c x]; cbn; [reflexivity|]. intros ->. reflexivity. Qed.

(** A class that the head of [x] is not in sees, in [t ++ x], what it sees
    in [t]. *)
Lemma span_len_app_stop p t x :
  match x with [] => True | c :: _ => p c = false end ->
  span_len p (t ++ x) = span_len p t.
Proof.
  intros Hx. pose proof (span_len_le p t) as Hle.
  destruct (Nat.eq_dec (span_len p t) (length t)) as [E|E].
  - rewrite span_len_app_all, span_len_head_false by assumption. lia.
  - apply span_len_app_lt. lia.
Qed.

Lemma prefix_by_app_stop eq l t x :
  l <> [] ->
  match x with [] => True | c :: _ => Forall (fun a => eq a c = false) l end ->
  prefix_by eq l (t ++ x) = prefix_by eq l t.
Proof.
  intros Hl Hx. revert l Hl Hx. induction t as [|b t IH]; intros l Hl Hx.
  - destruct l as [|a l]; [congruence|]. cbn.
    destruct x as [|c x]; [reflexivity|]. cbn.
    apply Forall_cons in Hx as [-> _]. reflexivity.
  - destruct l as [|a l]; [congruence|]. cbn.
    destruct (eq a b); [|reflexivity]. cbn.
    destruct l as [|a' l]; [reflexivity|].
    apply IH; [discriminate|].
    destruct x as [|c x]; [exact I|]. apply Forall_cons in Hx as [_ Hx]. exact Hx.
Qed.

Lemma unit_letter_word l c :
  In l time_words -> unit_letter c = false ->
  Forall (fun a => char_eqb a (to_lower c) = false) (explode l).
Proof.
  unfold unit_letter, one_of. intros Hl Hc.
  apply Forall_forall. intros a Ha.
  destruct (char_eqb a (to_lower c)) eqn:E; [|reflexivity].
  apply char_eqb_eq in E. subst a.
  rewrite <- Hc. symmetry. apply existsb_exists.
  exists (to_lower c). split; [|apply char_eqb_refl].
  apply list_elem_of_In in Ha.
  destruct Hl as [<-|[<-|[<-|[<-|[<-|[<-|[<-|[<-|[<-|[]]]]]]]]]];
    cbn in Ha |- *; tauto.
Qed.

Lemma ci_prefix_app_stop l t x :
  In l time_words -> match x with [] => True | c :: _ => unit_letter c = false end ->
  ci_prefix l (t ++ x) = ci_prefix l t.
Proof.
  intros Hl Hx. unfold ci_prefix. apply prefix_by_app_stop.
  - destruct Hl as [<-|[<-|[<-|[<-|[<-|[<-|[<-|[<-|[<-|[]]]]]]]]]]; discriminate.
  - destruct x as [|c x]; [exact I|]. apply unit_letter_word; assumption.
Qed.

Lemma ci_prefix_length l s :
  ci_prefix l s = true -> length (explode l) <= length s.
Proof.
  unfold ci_prefix. generalize (explode l) as p. intros p. revert s.
  induction p as [|a p IH]; intros s; cbn; [lia|].
  destruct s as [|c s]; [discriminate|]. cbn.
  intros H. apply andb_true_iff in H as [_ H]. apply IH in H. lia.
Qed.

Lemma opt_s_app_stop t x :
  nonletter_head x -> opt_s (t ++ x) = opt_s t.
Proof.
  intros Hx. unfold opt_s. rewrite ci_prefix_app_stop; [reflexivity| |exact Hx].
  unfold time_words. cbn. tauto.
Qed.

Lemma opt_s_le t : opt_s t <= length t.
Proof.
  unfold opt_s. destruct (ci_prefix "s" t) eqn:E; [|lia].
  apply ci_prefix_length in E. exact E.
Qed.

Ltac in_time_words := unfold time_words; cbn; tauto.

Ltac unit_word l t E :=
  destruct (ci_prefix l t) eqn:E;
  [apply ci_prefix_length in E; cbn [explode list_ascii_of_string length] in E|].

Lemma unit_len_app_stop t x :
  nonletter_head x -> unit_len (t ++ x) = unit_len t.
Proof.
  intros Hx. unfold unit_len.
  rewrite !(ci_prefix_app_stop _ t x) by (in_time_words || exact Hx).
  unit_word "h." t E1; [reflexivity|].
  unit_word "hour" t E2;
    [rewrite drop_app_le by exact E2; rewrite opt_s_app_stop by exact Hx; reflexivity|].
  unit_word "min" t E3;
    [rewrite drop_app_le by exact E3; rewrite opt_s_app_stop by exact Hx; reflexivity|].
  unit_word "minute" t E4;
    [rewrite drop_app_le by exact E4; rewrite opt_s_app_stop by exact Hx; reflexivity|].
  unit_word "day" t E5;
    [rewrite drop_app_le by exact E5; rewrite opt_s_app_stop by exact Hx; reflexivity|].
  unit_word "week" t E6;
    [rewrite drop_app_le by exact E6; rewrite opt_s_app_stop by exact Hx; reflexivity|].
  unit_word "month" t E7;
    [rewrite drop_app_le by exact E7; rewrite opt_s_app_stop by exact Hx; reflexivity|].
  reflexivity.
Qed.

Lemma unit_len_le t u : unit_len t = Some u -> u <= length t.
Proof.
  unfold unit_len.
  assert (forall k, k <= length t -> k + opt_s (drop k t) <= length t) as Hk.
  { intros k Hk. pose proof (opt_s_le (drop k t)) as Ho.
    rewrite length_drop in Ho. lia. }
  unit_word "h." t E1; [intros [= <-]; exact E1|].
  unit_word "hour" t E2; [intros [= <-]; apply (Hk 4), E2|].
  unit_word "min" t E3; [intros [= <-]; apply (Hk 3), E3|].
  unit_word "minute" t E4; [intros [= <-]; apply (Hk 6), E4|].
  unit_word "day" t E5; [intros [= <-]; apply (Hk 3), E5|].
  unit_word "week" t E6; [intros [= <-]; apply (Hk 4), E6|].
  unit_word "month" t E7; [intros [= <-]; apply (Hk 5), E7|].
  discriminate.
Qed.

Lemma unit_letter_dot c : unit_letter c = false -> char_eqb "." c = false.
Proof. all_chars c. Qed.

Lemma tail_len_app_stop t x :
  inert_head x -> tail_len (t ++ x) = tail_len t.
Proof.
  intros Hx. unfold tail_len.
  assert (nonletter_head x) as Hn by (destruct x; [exact I|apply Hx]).
  rewrite (span_len_app_stop is_space t x) by (destruct x; [exact I|apply Hx]).
  set (w := span_len is_space t).
  rewrite (drop_app_le t x w) by apply span_len_le.
  rewrite ci_prefix_app_stop by (in_time_words || exact Hn).
  set (a := if ci_prefix "ago" (drop w t) then 3 else 0).
  assert (a <= length (drop w t)) as Ha.
  { subst a. destruct (ci_prefix "ago" (drop w t)) eqn:E; [|lia].
    apply ci_prefix_length in E. exact E. }
  rewrite drop_app_le by exact Ha.
  unfold starts_with. rewrite prefix_by_app_stop; [reflexivity|discriminate|].
  destruct x as [|c x]; [exact I|]. constructor; [|constructor].
  apply unit_letter_dot, Hx.
Qed.

Lemma tail_len_le t : tail_len t <= length t.
Proof.
  unfold tail_len. set (w := span_len is_space t).
  pose proof (span_len_le is_space t) as Hw. fold w in Hw.
  set (a := if ci_prefix "ago" (drop w t) then 3 else 0).
  assert (a <= length (drop w t)) as Ha.
  { subst a. destruct (ci_prefix "ago" (drop w t)) eqn:E; [|lia].
    apply ci_prefix_length in E. exact E. }
  rewrite length_drop in Ha.
  assert ((if starts_with (explode ".") (drop a (drop w t)) then 1 else 0)
          <= length (drop a (drop w t))) as Hd.
  { destruct (starts_with (explode ".") (drop a (drop w t))) eqn:E; [|lia].
    destruct (drop a (drop w t)); [discriminate|cbn; lia]. }
  rewrite !length_drop in Hd. lia.
Qed.

(** The match at the head of [t ++ x] is the match at the head of [t] when
    the head of [x] continues nothing: it is neither white space nor a
    letter of the pattern, and either it is no digit or the digits of [t]
    have ended before. *)
Lemma time_match_app_stop t x :
  inert_head x ->
  span_len is_digit t < length t \/ nondigit_head x ->
  time_match (t ++ x) = time_match t.
Proof.
  intros Hx Hd.
  assert (nonletter_head x) as Hn by (destruct x; [exact I|apply Hx]).
  destruct t as [|c t].
  - destruct Hd as [Hd|Hd]; [cbn in Hd; lia|].
    destruct x as [|c x]; [reflexivity|]. cbn in Hd |- *. rewrite Hd. reflexivity.
  - change ((c :: t) ++ x) with (c :: (t ++ x)). unfold time_match.
    destruct (is_digit c) eqn:Hc; [|reflexivity].
    change (c :: (t ++ x)) with ((c :: t) ++ x).
    assert (span_len is_digit ((c :: t) ++ x) = span_len is_digit (c :: t)) as ->.
    { destruct Hd as [Hd|Hd]; [apply span_len_app_lt, Hd|].
      apply span_len_app_stop. destruct x; [exact I|exact Hd]. }
    set (d := span_len is_digit (c :: t)).
    rewrite (drop_app_le (c :: t) x d) by apply span_len_le.
    rewrite (span_len_app_stop is_space) by (destruct x; [exact I|apply Hx]).
    set (w := span_len is_space (drop d (c :: t))).
    rewrite (drop_app_le _ x w) by apply span_len_le.
    rewrite unit_len_app_stop by exact Hn.
    destruct (unit_len (drop w (drop d (c :: t)))) as [u|] eqn:E; [|reflexivity].
    apply unit_len_le in E.
    rewrite drop_app_le by exact E. rewrite tail_len_app_stop by exact Hx.
    reflexivity.
Qed.

Lemma time_match_bounds s n : time_match s = Some n -> 1 <= n <= length s.
Proof.
  unfold time_match. destruct s as [|c s]; [discriminate|].
  destruct (is_digit c) eqn:Hc; [|discriminate].
  set (d := span_len is_digit (c :: s)).
  set (w := span_len is_space (drop d (c :: s))).
  destruct (unit_len (drop w (drop d (c :: s)))) as [u|] eqn:E; [|discriminate].
  intros [= <-].
  pose proof (span_len_le is_digit (c :: s)) as Hd. fold d in Hd.
  pose proof (span_len_le is_space (drop d (c :: s))) as Hw. fold w in Hw.
  apply unit_len_le in E.
  pose proof (tail_len_le (drop u (drop w (drop d (c :: s))))) as Ht.
  rewrite !length_drop in *.
  assert (1 <= d) by (subst d; cbn; rewrite Hc; lia).
  lia.
Qed.

(** *** The output of the relative-time pass holds no match *)

Lemma sub_skip_ext m m' rep k s :
  (forall t, m t = m' t) -> sub_skip m rep k s = sub_skip m' rep k s.
Proof.
  intros H. revert k. induction s as [|c s IH]; intros k; [reflexivity|].
  cbn. destruct k as [|k]; [|apply IH]. rewrite H.
  destruct (m' (c :: s)) as [[|n]|]; rewrite ?IH; reflexivity.
Qed.

Lemma digit_inert c : is_digit c = true -> unit_letter c = false /\ is_space c = false.
Proof. split; revert H; all_chars c. Qed.

Lemma time_match_head_digit c s n :
  time_match (c :: s) = Some n -> is_digit c = true.
Proof. cbn. destruct (is_digit c); [reflexivity|discriminate]. Qed.

Lemma time_match_all_digits t :
  span_len is_digit t = length t -> time_match t = None.
Proof.
  intros H. unfold time_match. destruct t as [|c t]; [reflexivity|].
  destruct (is_digit c); [|reflexivity].
  rewrite H, drop_all. reflexivity.
Qed.

Lemma drop_app_lt {A} (r s : list A) i :
  i < length r -> drop i (r ++ s) = drop i r ++ s.
Proof. intros H. apply drop_app_le. lia. Qed.

(** A failed attempt that stops short of a digit also fails when a
    placeholder stands where the digit stood. *)
Lemma time_match_before_placeholder t c s b :
  t <> [] -> is_digit c = true ->
  time_match (t ++ c :: s) = None ->
  time_match (t ++ explode "[TIME]" ++ b) = None.
Proof.
  intros Ht Hc H.
  rewrite time_match_app_stop; [| |right; reflexivity].
  2:{ split; reflexivity. }
  pose proof (span_len_le is_digit t) as Hle.
  destruct (Nat.eq_dec (span_len is_digit t) (length t)) as [E|E].
  - apply time_match_all_digits, E.
  - rewrite <- H. symmetry. apply time_match_app_stop.
    + apply digit_inert, Hc.
    + left. lia.
Qed.

Lemma time_sub_clean_gen n :
  forall s r, length s <= n ->
    (forall i, i < length r -> time_match (drop i (r ++ s)) = None) ->
    time_clean (r ++ sub_skip time_match (explode "[TIME]") 0 s).
Proof.
  induction n as [|n IH]; intros s r Hn Hr.
  - destruct s; [|cbn in Hn; lia]. cbn. intros i.
    destruct (Nat.lt_ge_cases i (length r)) as [Hi|Hi].
    + apply Hr, Hi.
    + rewrite app_nil_r, drop_ge by lia. reflexivity.
  - destruct s as [|c s].
    { cbn. intros i. destruct (Nat.lt_ge_cases i (length r)) as [Hi|Hi].
      - apply Hr, Hi.
      - rewrite app_nil_r, drop_ge by lia. reflexivity. }
    cbn in Hn. rewrite sub_cons.
    destruct (time_match (c :: s)) as [k|] eqn:E.
    + pose proof (time_match_bounds _ _ E) as [Hk1 Hk2].
      pose proof (time_match_head_digit _ _ _ E) as Hc.
      destruct k as [|k]; [lia|]. cbn in Hk2.
      assert (time_clean (sub_skip time_match (explode "[TIME]") 0 (drop k s))) as Hb.
      { apply (IH (drop k s) []); [rewrite length_drop; lia|]. cbn. lia. }
      set (b := sub_skip time_match (explode "[TIME]") 0 (drop k s)) in *.
      intros i. destruct (Nat.lt_ge_cases i (length r)) as [Hi|Hi].
      * rewrite drop_app_lt by exact Hi.
        apply (time_match_before_placeholder _ c s).
        -- intros Hd. apply (f_equal length) in Hd. rewrite length_drop in Hd.
           cbn in Hd. lia.
        -- exact Hc.
        -- rewrite <- (drop_app_lt r (c :: s)) by exact Hi. apply Hr, Hi.
      * rewrite drop_app_ge by exact Hi.
        destruct (i - length r) as [|[|[|[|[|[|j]]]]]] eqn:Ej; try reflexivity.
        apply (Hb j).
    + intros i.
      replace (r ++ c :: sub_skip time_match (explode "[TIME]") 0 s)
        with ((r ++ [c]) ++ sub_skip time_match (explode "[TIME]") 0 s)
        by (rewrite <- app_assoc; reflexivity).
      apply (IH s (r ++ [c])); [lia|].
      intros j Hj. rewrite <- app_assoc. cbn [app].
      rewrite length_app in Hj. cbn in Hj.
      destruct (Nat.lt_ge_cases j (length r)) as [Hjr|Hjr]; [apply Hr, Hjr|].
      assert (j = length r) as -> by lia.
      rewrite drop_app_length. exact E.
Qed.

Lemma time_sub_clean s :
  time_clean (sub_chars re_time "[TIME]" s).
Proof.
  unfold sub_chars. rewrite (sub_skip_ext _ time_match) by apply match_time.
  apply (time_sub_clean_gen (length s) s []); [lia|]. cbn. lia.
Qed.

Lemma time_clean_sub s :
  time_clean s -> sub_chars re_time "[TIME]" s = s.
Proof.
  intros H. unfold sub_chars. apply sub_no_match. intros i _.
  rewrite match_time. apply H.
Qed.

(** *** Two texts that differ in one place *)

Lemma drop_app_plus {A} (a s : list A) e :
  drop (length a + e) (a ++ s) = drop e s.
Proof. rewrite drop_app_ge by lia. f_equal. lia. Qed.

Lemma sub_equalize m rep a b post n :
  a <> [] -> b <> [] ->
  forall pre, length pre <= n ->
    (forall i, i < length pre ->
       attempts_agree (m (drop i pre ++ a ++ post)) (m (drop i pre ++ b ++ post))
                      (length (drop i pre)) (length a) (length b)) ->
    (exists e, m (a ++ post) = Some (length a + e)
               /\ m (b ++ post) = Some (length b + e)) ->
    sub_skip m rep 0 (pre ++ a ++ post) = sub_skip m rep 0 (pre ++ b ++ post).
Proof.
  intros Ha Hb. induction n as [|n IH]; intros pre Hn Hpre (e & Ea & Eb).
  - destruct pre; [|cbn in Hn; lia]. cbn [app].
    destruct a as [|ca a]; [congruence|]. destruct b as [|cb b]; [congruence|].
    cbn [app] in *. rewrite !sub_cons, Ea, Eb. cbn [length plus].
    f_equal. rewrite !drop_app_plus. reflexivity.
  - destruct pre as [|c pre].
    { apply (IH []); [cbn; lia|cbn; lia|eauto]. }
    cbn in Hn. cbn [app]. rewrite !sub_cons.
    pose proof (Hpre 0 (Nat.lt_0_succ _)) as H0. cbn [drop app length] in H0.
    destruct H0 as [[-> ->]|[(k & -> & -> & Hk)|(x & -> & ->)]].
    + f_equal. apply IH; [lia| |eauto].
      intros i Hi. apply (Hpre (S i)). cbn. lia.
    + f_equal. rewrite !drop_app_le by lia.
      apply IH; [rewrite length_drop; lia| |eauto].
      intros i Hi. rewrite drop_drop. rewrite length_drop in Hi.
      replace (k + i) with (i + k) by lia.
      specialize (Hpre (S (i + k))). cbn [drop] in Hpre.
      replace (i + k) with (k + i) in Hpre |- * by lia.
      apply Hpre. cbn. lia.
    + cbn [plus]. f_equal.
      rewrite <- !Nat.add_assoc, !drop_app_plus. reflexivity.
Qed.

(** *** The match of a whole phrase *)

Ltac eval_chars :=
  repeat match goal with
  | |- context [char_eqb ?a (to_lower ?b)] =>
      lazymatch b with
      | Ascii _ _ _ _ _ _ _ _ =>
          let v := eval vm_compute in (char_eqb a (to_lower b)) in
          change (char_eqb a (to_lower b)) with v
      end
  end; cbn [andb].

Lemma span_len_forallb p l : forallb p l = true -> span_len p l = length l.
Proof.
  induction l as [|c l IH]; cbn; [reflexivity|].
  intros H. apply andb_true_iff in H as [-> H]. f_equal. apply IH, H.
Qed.

Lemma span_len_run p l x :
  forallb p l = true -> span_len p (l ++ x) = length l + span_len p x.
Proof. intros H. apply span_len_app_all, span_len_forallb, H. Qed.

Lemma space_not_digit c : is_space c = true -> is_digit c = false.
Proof. all_chars c. Qed.

Lemma space_not_s c : is_space c = true -> char_eqb "s" (to_lower c) = false.
Proof. all_chars c. Qed.

Lemma opt_s_before_ago w' post :
  forallb is_space w' = true -> opt_s (w' ++ explode "ago" ++ post) = 0.
Proof.
  intros Hw. unfold opt_s, ci_prefix. destruct w' as [|c w'].
  - cbn [explode list_ascii_of_string app prefix_by]. eval_chars. reflexivity.
  - cbn in Hw. apply andb_true_iff in Hw as [Hc _].
    cbn [explode list_ascii_of_string app prefix_by].
    rewrite (space_not_s c Hc). reflexivity.
Qed.

Lemma unit_len_unit u y :
  In u time_units -> opt_s y = 0 ->
  unit_len (explode u ++ y) = Some (length (explode u)).
Proof.
  intros Hu Hy. unfold time_units in Hu.
  destruct Hu as [<-|[<-|[<-|[<-|[<-|[<-|[<-|[<-|[<-|[<-|[<-|[]]]]]]]]]]]];
    unfold unit_len, ci_prefix;
    cbn [explode list_ascii_of_string app prefix_by length]; eval_chars;
    cbn [drop]; rewrite ?drop_0, ?Hy; try reflexivity;
    unfold opt_s, ci_prefix; cbn [explode list_ascii_of_string prefix_by];
    eval_chars; reflexivity.
Qed.

Lemma unit_head u y :
  In u time_units ->
  exists c r, explode u ++ y = c :: r /\ is_digit c = false /\ is_space c = false.
Proof.
  intros Hu. unfold time_units in Hu.
  destruct Hu as [<-|[<-|[<-|[<-|[<-|[<-|[<-|[<-|[<-|[<-|[<-|[]]]]]]]]]]]];
    eexists _, _; (split; [reflexivity|split; reflexivity]).
Qed.

Lemma tail_len_ago w' post :
  forallb is_space w' = true ->
  tail_len (w' ++ explode "ago" ++ post) = length w' + 3 + dot_len post.
Proof.
  intros Hw. unfold tail_len.
  rewrite (span_len_run is_space w' _ Hw).
  cbn [explode list_ascii_of_string app span_len].
  replace (is_space "a") with false by reflexivity.
  rewrite Nat.add_0_r, drop_app_length.
  unfold ci_prefix. cbn [explode list_ascii_of_string prefix_by]. eval_chars.
  cbn [drop]. reflexivity.
Qed.

Lemma time_match_digits d r :
  d <> [] -> forallb is_digit d = true -> nondigit_head r ->
  time_match (d ++ r)
  = match unit_len (drop (span_len is_space r) r) with
    | Some u =>
        Some (length d + span_len is_space r + u
              + tail_len (drop u (drop (span_len is_space r) r)))
    | None => None
    end.
Proof.
  intros Hd Hdig Hr. destruct d as [|c d]; [congruence|].
  unfold time_match. cbn [app].
  pose proof Hdig as Hc. cbn in Hc. apply andb_true_iff in Hc as [Hc _].
  rewrite Hc. change (c :: d ++ r) with ((c :: d) ++ r).
  rewrite (span_len_run is_digit (c :: d) r Hdig).
  rewrite (span_len_head_false is_digit r) by (destruct r; [exact I|exact Hr]).
  rewrite Nat.add_0_r, drop_app_length. reflexivity.
Qed.

(** The pattern, tried at digits that run into a phrase, takes the digits,
    the phrase and a full stop after it. *)
Lemma time_match_phrase t a post :
  forallb is_digit t = true -> ago_phrase a ->
  time_match (t ++ a ++ post) = Some (length t + length a + dot_len post).
Proof.
  intros Ht [d w w' u Hd Hdig Hw Hu Hw'].
  replace (t ++ (d ++ w ++ explode u ++ w' ++ explode "ago") ++ post)
    with ((t ++ d) ++ (w ++ explode u ++ w' ++ explode "ago" ++ post))
    by (rewrite <- !app_assoc; reflexivity).
  set (y := w' ++ explode "ago" ++ post).
  destruct (unit_head u y Hu) as (c & r & Ecr & Hcd & Hcs).
  rewrite time_match_digits.
  - rewrite (span_len_run is_space w _ Hw).
    rewrite (span_len_head_false is_space (explode u ++ y)) by (rewrite Ecr; exact Hcs).
    rewrite Nat.add_0_r, drop_app_length.
    rewrite unit_len_unit by (exact Hu || apply opt_s_before_ago, Hw').
    rewrite drop_app_length. subst y. rewrite tail_len_ago by exact Hw'.
    f_equal. rewrite !length_app. cbn [explode list_ascii_of_string length]. lia.
  - destruct t; [exact Hd|discriminate].
  - rewrite forallb_app, Ht, Hdig. reflexivity.
  - destruct w as [|x w]; [cbn [app]; rewrite Ecr; exact Hcd|].
    cbn in Hw |- *. apply andb_true_iff in Hw as [Hx _]. apply space_not_digit, Hx.
Qed.

Lemma ago_phrase_head a : ago_phrase a -> digit_headed a.
Proof.
  intros [d w w' u Hd Hdig Hw Hu Hw']. destruct d as [|c d]; [congruence|].
  cbn in Hdig. apply andb_true_iff in Hdig as [Hc _]. exists c. eauto.
Qed.

Lemma ago_takes a post : ago_phrase a -> takes a post (dot_len post).
Proof. intros Ha t Ht. apply time_match_phrase; assumption. Qed.

(** The attempts before two phrases agree. *)
Lemma time_attempts_agree t a b post e :
  t <> [] -> digit_headed a -> digit_headed b ->
  takes a post e -> takes b post e ->
  attempts_agree (time_match (t ++ a ++ post)) (time_match (t ++ b ++ post))
                 (length t) (length a) (length b).
Proof.
  intros Ht Ha Hb Ta Tb. pose proof (span_len_le is_digit t) as Hle.
  destruct (Nat.eq_dec (span_len is_digit t) (length t)) as [E|E].
  - right. right. exists e.
    assert (forallb is_digit t = true) as Hdig.
    { clear -E. induction t as [|c t IH]; [reflexivity|]. cbn in *.
      destruct (is_digit c); [|discriminate]. apply IH. lia. }
    rewrite (Ta t Hdig), (Tb t Hdig). auto.
  - destruct Ha as (ca & ra & -> & Hca). destruct Hb as (cb & rb & -> & Hcb).
    rewrite !time_match_app_stop
      by ((left; lia) || (cbn [app]; apply digit_inert; assumption)).
    destruct (time_match t) as [n|] eqn:En; [|left; auto].
    right. left. apply time_match_bounds in En.
    destruct n as [|n]; [lia|]. exists n. repeat split; lia.
Qed.

(** The relative-time pass gives the same text for two texts that differ
    in one phrase, when the pattern takes the two phrases and the same
    characters after them. *)
Lemma time_sub_equal pre a b post e :
  digit_headed a -> digit_headed b -> takes a post e -> takes b post e ->
  sub_chars re_time "[TIME]" (pre ++ a ++ post)
  = sub_chars re_time "[TIME]" (pre ++ b ++ post).
Proof.
  intros Ha Hb Ta Tb. unfold sub_chars.
  rewrite !(sub_skip_ext (match_at re_time) time_match) by apply match_time.
  apply (sub_equalize _ _ a b post (length pre)).
  - destruct Ha as (c & r & -> & _). discriminate.
  - destruct Hb as (c & r & -> & _). discriminate.
  - lia.
  - intros i Hi. apply (time_attempts_agree _ _ _ _ e); try assumption.
    intros Hd. apply (f_equal length) in Hd. rewrite length_drop in Hd. cbn in Hd. lia.
  - exists e. split; [apply (Ta [] eq_refl)|apply (Tb [] eq_refl)].
Qed.

Lemma time_sub_phrase pre a b post :
  ago_phrase a -> ago_phrase b ->
  sub_chars re_time "[TIME]" (pre ++ a ++ post)
  = sub_chars re_time "[TIME]" (pre ++ b ++ post).
Proof.
  intros Ha Hb. apply (time_sub_equal _ _ _ _ (dot_len post));
    (apply ago_phrase_head || apply ago_takes); assumption.
Qed.

(** *** Phrases before a calm character *)

Lemma calm_inert post : calm post -> inert_head post.
Proof.
  destruct post as [|c post]; [auto|]. unfold calm, calm_char. cbn. intros H.
  apply andb_true_iff in H as [H _]. apply andb_true_iff in H as [H1 H2].
  apply negb_true_iff in H1, H2. auto.
Qed.

Lemma calm_no_dot post : calm post -> dot_len post = 0.
Proof.
  intros H. apply calm_inert in H. unfold dot_len, starts_with.
  destruct post as [|c post]; [reflexivity|]. cbn.
  rewrite (unit_letter_dot c (proj1 H)). reflexivity.
Qed.

Lemma time_match_bare t d w u post :
  forallb is_digit t = true ->
  d <> [] -> forallb is_digit d = true -> forallb is_space w = true ->
  In u time_units -> calm post ->
  time_match (t ++ (d ++ w ++ explode u) ++ post)
  = Some (length t + length (d ++ w ++ explode u) + 0).
Proof.
  intros Ht Hd Hdig Hw Hu Hpost. apply calm_inert in Hpost.
  assert (nonletter_head post) as Hn by (destruct post; [exact I|apply Hpost]).
  replace (t ++ (d ++ w ++ explode u) ++ post)
    with ((t ++ d) ++ (w ++ explode u ++ post))
    by (rewrite <- !app_assoc; reflexivity).
  destruct (unit_head u post Hu) as (c & r & Ecr & Hcd & Hcs).
  rewrite time_match_digits.
  - rewrite (span_len_run is_space w _ Hw).
    rewrite (span_len_head_false is_space (explode u ++ post)) by (rewrite Ecr; exact Hcs).
    rewrite Nat.add_0_r, drop_app_length.
    rewrite unit_len_unit; [|exact Hu|apply (opt_s_app_stop [] post Hn)].
    rewrite drop_app_length.
    assert (tail_len post = 0) as -> by apply (tail_len_app_stop [] post Hpost).
    f_equal. rewrite !length_app. lia.
  - destruct t; [exact Hd|discriminate].
  - rewrite forallb_app, Ht, Hdig. reflexivity.
  - destruct w as [|x w]; [cbn [app]; rewrite Ecr; exact Hcd|].
    cbn in Hw |- *. apply andb_true_iff in Hw as [Hx _]. apply space_not_digit, Hx.
Qed.

Lemma time_phrase_head a : time_phrase a -> digit_headed a.
Proof.
  intros [d w u Hd Hdig Hw Hu|x Hx]; [|apply ago_phrase_head, Hx].
  destruct d as [|c d]; [congruence|].
  cbn in Hdig. apply andb_true_iff in Hdig as [Hc _]. exists c. eauto.
Qed.

Lemma calm_takes a post : time_phrase a -> calm post -> takes a post 0.
Proof.
  intros [d w u Hd Hdig Hw Hu|x Hx] Hpost t Ht.
  - apply time_match_bare; assumption.
  - rewrite <- (calm_no_dot post Hpost). apply time_match_phrase; assumption.
Qed.

Lemma time_sub_calm pre a b post :
  time_phrase a -> time_phrase b -> calm post ->
  sub_chars re_time "[TIME]" (pre ++ a ++ post)
  = sub_chars re_time "[TIME]" (pre ++ b ++ post).
Proof.
  intros Ha Hb Hpost. apply (time_sub_equal _ _ _ _ 0);
    (apply time_phrase_head || apply calm_takes); assumption.
Qed.

(** ** The Cloudflare patterns *)

Lemma star_loop_stop p s n k :
  (forall i, i < span_len p s -> k (drop i s) (n + i) = None) ->
  star_loop p s n k = k (drop (span_len p s) s) (n + span_len p s).
Proof.
  revert n. induction s as [|c s IH]; intros n H; cbn.
  - rewrite Nat.add_0_r. reflexivity.
  - cbn in H. destruct (p c).
    + rewrite (IH (S n)).
      * replace (S n + span_len p s) with (n + S (span_len p s)) by lia. cbn [drop].
        destruct (k (drop (span_len p s) s) (n + S (span_len p s))) eqn:E; [reflexivity|].
        specialize (H 0 (Nat.lt_0_succ _)). rewrite Nat.add_0_r in H. exact H.
      * intros i Hi. specialize (H (S i)). cbn in H.
        replace (S n + i) with (n + S i) by lia. apply H. lia.
    + rewrite Nat.add_0_r. reflexivity.
Qed.

(** A literal, a run of a class and a closing character outside the class:
    the run cannot give characters back. *)
Lemma match_token l p q s :
  p q = false ->
  match_at (Seq (Lit l) (Seq (Plus p) (Lit (String q EmptyString)))) s
  = token_match l p q s.
Proof.
  intros Hq. unfold match_at, token_match. cbn [rmatch].
  rewrite lit_loop_spec. fold (starts_with (explode l) s).
  destruct (starts_with (explode l) s); [|reflexivity].
  generalize (drop (length (explode l)) s) as s1. intros s1.
  unfold closer_at. destruct s1 as [|c s1]; [reflexivity|]. cbn [span_len].
  destruct (p c) eqn:Hc.
  - rewrite star_loop_stop.
    + cbn [drop explode list_ascii_of_string lit_loop].
      destruct (drop (span_len p s1) s1) as [|x r]; [reflexivity|].
      destruct (char_eqb q x); [f_equal; lia|reflexivity].
    + intros i Hi. destruct (span_len_inside p s1 i Hi) as (x & r & -> & Hx).
      cbn [explode list_ascii_of_string lit_loop].
      destruct (char_eqb q x) eqn:E; [|reflexivity].
      apply char_eqb_eq in E. congruence.
  - cbn [drop]. destruct (char_eqb q c); reflexivity.
Qed.

Lemma cf_pattern_shape s :
  match_at re_cf_params s = token_match cf_open not_brace "}" s
  /\ match_at re_cf_r s = token_match "r:'" hex_char "'" s
  /\ match_at re_cf_t s = token_match "t:'" token_char "'" s.
Proof. repeat split; apply match_token; reflexivity. Qed.

(** *** Literals across a boundary *)

Lemma starts_with_app_compat x g r :
  starts_with x (g ++ r) = true -> compat x g = true.
Proof.
  unfold compat, starts_with. revert g.
  induction x as [|a x IH]; intros g; [reflexivity|].
  destruct g as [|b g]; [intros _; apply orb_true_r|]. cbn.
  intros H. apply andb_true_iff in H as [Hab H]. rewrite Hab. cbn.
  apply char_eqb_eq in Hab. subst b. rewrite char_eqb_refl. cbn.
  apply IH, H.
Qed.

Lemma starts_with_split l t x :
  length t < length l -> starts_with l (t ++ x) = true ->
  starts_with (drop (length t) l) x = true.
Proof.
  unfold starts_with. revert l. induction t as [|b t IH]; intros l Hl H; [exact H|].
  destruct l as [|a l]; [cbn in Hl; lia|]. cbn in *.
  apply andb_true_iff in H as [_ H]. apply IH; [lia|exact H].
Qed.

Lemma starts_with_app_le l t x :
  length l <= length t -> starts_with l (t ++ x) = starts_with l t.
Proof.
  unfold starts_with. revert t. induction l as [|a l IH]; intros t Hl; [reflexivity|].
  destruct t as [|b t]; [cbn in Hl; lia|]. cbn in *.
  rewrite IH by lia. reflexivity.
Qed.

Lemma straddle_none l g t r :
  t <> [] -> length t < length l -> no_straddle l g = true ->
  starts_with l (t ++ g ++ r) = false.
Proof.
  intros Ht Hl Hn. destruct (starts_with l (t ++ g ++ r)) eqn:E; [|reflexivity].
  apply starts_with_split in E; [|exact Hl].
  apply starts_with_app_compat in E.
  unfold no_straddle in Hn. rewrite forallb_forall in Hn.
  enough (negb (compat (drop (length t) l) g) = true) as Hc
    by (rewrite E in Hc; discriminate).
  apply Hn, in_seq. destruct t; [congruence|]. cbn in *. lia.
Qed.

Lemma starts_with_lookup l y j x :
  starts_with l y = true -> nth_error l j = Some x -> nth_error y j = Some x.
Proof.
  unfold starts_with. revert y j. induction l as [|a l IH]; intros y j H Hj.
  - destruct j; discriminate.
  - destruct y as [|b y]; [discriminate|]. cbn in H.
    apply andb_true_iff in H as [Hab H]. apply char_eqb_eq in Hab. subst b.
    destruct j as [|j]; [exact Hj|]. cbn in *. apply IH; assumption.
Qed.

Lemma starts_with_take l s r :
  length s <= length l -> starts_with l (s ++ r) = true -> take (length s) l = s.
Proof.
  unfold starts_with. revert l. induction s as [|b s IH]; intros l Hl H; [reflexivity|].
  destruct l as [|a l]; [cbn in Hl; lia|]. cbn in *.
  apply andb_true_iff in H as [Hab H]. apply char_eqb_eq in Hab. subst b.
  f_equal. apply IH; [lia|exact H].
Qed.

Lemma head_none l g r i :
  no_head l g = true -> i < length g ->
  starts_with l (drop i (g ++ r)) = false.
Proof.
  intros Hn Hi. rewrite drop_app_lt by exact Hi.
  destruct (starts_with l (drop i g ++ r)) eqn:E; [|reflexivity].
  apply starts_with_app_compat in E.
  unfold no_head in Hn. rewrite forallb_forall in Hn.
  enough (negb (compat l (drop i g)) = true) as Hc
    by (rewrite E in Hc; discriminate).
  apply Hn, in_seq. lia.
Qed.

(** A literal that holds a character that [a] does not hold, and whose
    beginning cannot end [a], starts nowhere in [a]. *)
Lemma inner_none l x j a1 z post i :
  nth_error l j = Some x ->
  forallb (fun c => negb (char_eqb x c)) (a1 ++ z) = true ->
  no_tail l z j = true ->
  i < length (a1 ++ z) ->
  starts_with l (drop i (a1 ++ z) ++ post) = false.
Proof.
  intros Hj Hx Hn Hi. set (a := a1 ++ z) in *. set (s := drop i a).
  assert (length s = length a - i) as Hs by apply length_drop.
  destruct (starts_with l (s ++ post)) eqn:E; [|reflexivity].
  destruct (Nat.lt_ge_cases j (length s)) as [Hlt|Hge].
  - pose proof (starts_with_lookup _ _ _ _ E Hj) as Hy.
    rewrite nth_error_app1 in Hy by exact Hlt.
    apply nth_error_In in Hy.
    assert (In x a) as Ha.
    { rewrite <- (take_drop i a). apply in_or_app. right. exact Hy. }
    rewrite forallb_forall in Hx. specialize (Hx x Ha).
    rewrite char_eqb_refl in Hx. discriminate.
  - assert (j < length l) as Hjl by (apply nth_error_Some; congruence).
    pose proof (starts_with_take l s post ltac:(lia) E) as Ht.
    assert (starts_with (rev s) (rev z ++ rev a1) = true) as Hr.
    { assert (rev a = rev s ++ rev (take i a)) as Ea.
      { rewrite <- rev_app_distr. unfold s. rewrite take_drop. reflexivity. }
      rewrite <- rev_app_distr. fold a. rewrite Ea. apply prefix_by_self_app. }
    apply starts_with_app_compat in Hr. rewrite <- Ht in Hr.
    unfold no_tail in Hn. rewrite forallb_forall in Hn.
    enough (negb (compat (rev (take (length s) l)) (rev z)) = true) as Hc
      by (rewrite Hr in Hc; discriminate).
    apply Hn, in_seq. destruct s; [|cbn in *; lia].
    cbn in Hs. lia.
Qed.

(** *** The run of the class and its closing character *)

Lemma closer_in p q t x :
  span_len p t < length t -> closer_at p q (t ++ x) = closer_at p q t.
Proof.
  intros H. unfold closer_at. rewrite span_len_app_lt by exact H.
  rewrite drop_app_lt by exact H.
  destruct (drop (span_len p t) t) as [|c r] eqn:E; [|reflexivity].
  apply (f_equal length) in E. rewrite length_drop in E. cbn in E. lia.
Qed.

Lemma closer_bound p q t n : closer_at p q t = Some n -> 1 <= n <= length t.
Proof.
  unfold closer_at. destruct (drop (span_len p t) t) as [|c r] eqn:E; [discriminate|].
  destruct (char_eqb q c); [|discriminate]. intros [= <-].
  apply (f_equal length) in E. rewrite length_drop in E. cbn in E. lia.
Qed.

Lemma closer_run p q t x :
  span_len p t = length t ->
  closer_at p q (t ++ x)
  = match closer_at p q x with Some n => Some (length t + n) | None => None end.
Proof.
  intros H. unfold closer_at. rewrite span_len_app_all by exact H.
  rewrite drop_app_plus.
  destruct (drop (span_len p x) x) as [|c r]; [reflexivity|].
  destruct (char_eqb q c); [f_equal; lia|reflexivity].
Qed.

(** The run ends inside [a], at a character that does not close it. *)
Lemma closer_blocked p q a x :
  existsb (fun c => negb (p c)) a = true ->
  forallb (fun c => negb (char_eqb q c)) a = true ->
  closer_at p q (a ++ x) = None.
Proof.
  intros He Hq.
  assert (span_len p a < length a) as Hlt.
  { clear Hq. induction a as [|c a IH]; [discriminate|]. cbn in *.
    destruct (p c); [|lia]. apply -> Nat.succ_lt_mono. apply IH, He. }
  rewrite closer_in by exact Hlt. unfold closer_at.
  destruct (drop (span_len p a) a) as [|c r] eqn:E; [reflexivity|].
  assert (In c a) as Hc.
  { rewrite <- (take_drop (span_len p a) a), E. apply in_or_app. right. left. reflexivity. }
  rewrite forallb_forall in Hq. specialize (Hq c Hc).
  apply negb_true_iff in Hq. rewrite Hq. reflexivity.
Qed.

(** The run goes through [a] and [b] alike. *)
Lemma closer_through p q a b x :
  forallb p a = true -> forallb p b = true ->
  attempts_agree (closer_at p q (a ++ x)) (closer_at p q (b ++ x))
                 0 (length a) (length b).
Proof.
  intros Ha Hb. rewrite !closer_run by (apply span_len_forallb; assumption).
  destruct (closer_at p q x) as [n|]; [|left; auto].
  right. right. exists n. auto.
Qed.

(** The run is closed by the last character of [a]. *)
Lemma closer_closed p q a0 x :
  forallb p a0 = true -> p q = false ->
  closer_at p q ((a0 ++ [q]) ++ x) = Some (length (a0 ++ [q])).
Proof.
  intros Ha Hq. rewrite <- app_assoc. rewrite closer_run by (apply span_len_forallb, Ha).
  unfold closer_at. cbn. rewrite Hq. cbn. rewrite char_eqb_refl.
  rewrite length_app. reflexivity.
Qed.

(** *** Attempts before the place where two texts differ *)

Lemma clear_of_prefix l g a :
  no_straddle l g = true -> clear_of l (g ++ a).
Proof.
  intros H t post Ht Hl. rewrite <- app_assoc. apply straddle_none; assumption.
Qed.

Lemma token_attempts l p q t a b post :
  t <> [] -> clear_of (explode l) a -> clear_of (explode l) b ->
  2 <= length a -> 2 <= length b ->
  attempts_agree (closer_at p q (a ++ post)) (closer_at p q (b ++ post))
                 0 (length a) (length b) ->
  attempts_agree (token_match l p q (t ++ a ++ post))
                 (token_match l p q (t ++ b ++ post))
                 (length t) (length a) (length b).
Proof.
  intros Ht Ca Cb La Lb H. unfold token_match.
  destruct (Nat.le_gt_cases (length (explode l)) (length t)) as [Hl|Hl].
  - rewrite !starts_with_app_le by exact Hl.
    destruct (starts_with (explode l) t); [|left; auto].
    rewrite !drop_app_le by exact Hl.
    set (r := drop (length (explode l)) t).
    assert (length (explode l) + length r = length t) as Hr
      by (unfold r; rewrite length_drop; lia).
    pose proof (span_len_le p r) as Hle.
    destruct (Nat.eq_dec (span_len p r) (length r)) as [E|E].
    + rewrite (closer_run p q r (a ++ post)), (closer_run p q r (b ++ post)) by exact E.
      destruct H as [[-> ->]|[(k & _ & _ & Hk)|(e & -> & ->)]]; [left; auto|lia|].
      destruct (length r + (0 + length a + e)) as [|[|n]] eqn:En; [lia|lia|].
      destruct (length r + (0 + length b + e)) as [|[|n']] eqn:En'; [lia|lia|].
      right. right. exists e. split; f_equal; lia.
    + rewrite (closer_in p q r (a ++ post)), (closer_in p q r (b ++ post)) by lia.
      destruct (closer_at p q r) as [[|[|n]]|] eqn:En; try (left; auto; fail).
      apply closer_bound in En. right. left.
      exists (length (explode l) + S n).
      replace (length (explode l) + S (S n)) with (S (length (explode l) + S n)) by lia.
      repeat split. lia.
  - rewrite Ca, Cb by assumption. left. auto.
Qed.

(** *** A pass that leaves the place alone *)

Lemma sub_inner_free m rep a post :
  (forall i, i < length a -> m (drop i a ++ post) = None) ->
  sub_skip m rep 0 (a ++ post) = a ++ sub_skip m rep 0 post.
Proof.
  induction a as [|c a IH]; intros H; [reflexivity|].
  cbn [app]. rewrite sub_cons.
  pose proof (H 0 (Nat.lt_0_succ _)) as H0. cbn [drop app] in H0. rewrite H0.
  f_equal. apply IH. intros i Hi. apply (H (S i)). cbn. lia.
Qed.

(** Either the pass removes the place together with what surrounds it, or
    the place is there after the pass, in the same surroundings. *)
Lemma sub_dichotomy m rep a b post n :
  (forall i, i < length a -> m (drop i a ++ post) = None) ->
  (forall i, i < length b -> m (drop i b ++ post) = None) ->
  forall pre, length pre <= n ->
    (forall i, i < length pre ->
       attempts_agree (m (drop i pre ++ a ++ post)) (m (drop i pre ++ b ++ post))
                      (length (drop i pre)) (length a) (length b)) ->
    sub_skip m rep 0 (pre ++ a ++ post) = sub_skip m rep 0 (pre ++ b ++ post)
    \/ exists pre',
         sub_skip m rep 0 (pre ++ a ++ post) = pre' ++ a ++ sub_skip m rep 0 post
         /\ sub_skip m rep 0 (pre ++ b ++ post) = pre' ++ b ++ sub_skip m rep 0 post.
Proof.
  intros Ia Ib. induction n as [|n IH]; intros pre Hn Hpre.
  - destruct pre; [|cbn in Hn; lia]. right. exists [].
    cbn [app]. rewrite !sub_inner_free by assumption. auto.
  - destruct pre as [|c pre].
    { apply (IH []); [cbn; lia|cbn; lia]. }
    cbn in Hn. cbn [app]. rewrite !sub_cons.
    pose proof (Hpre 0 (Nat.lt_0_succ _)) as H0. cbn [drop app length] in H0.
    destruct H0 as [[-> ->]|[(k & -> & -> & Hk)|(x & -> & ->)]].
    + destruct (IH pre) as [E|(pre' & Ea & Eb)]; [lia| | |].
      * intros i Hi. apply (Hpre (S i)). cbn. lia.
      * left. rewrite E. reflexivity.
      * right. exists (c :: pre'). rewrite Ea, Eb. auto.
    + rewrite !drop_app_le by lia.
      destruct (IH (drop k pre)) as [E|(pre' & Ea & Eb)]; [rewrite length_drop; lia| | |].
      * intros i Hi. rewrite drop_drop. rewrite length_drop in Hi.
        replace (k + i) with (i + k) by lia.
        specialize (Hpre (S (i + k))). cbn [drop] in Hpre.
        replace (i + k) with (k + i) in Hpre |- * by lia.
        apply Hpre. cbn. lia.
      * left. rewrite E. reflexivity.
      * right. exists (rep ++ pre'). rewrite Ea, Eb, <- !app_assoc. auto.
    + left. cbn [plus]. f_equal.
      rewrite <- !Nat.add_assoc, !drop_app_plus. reflexivity.
Qed.

Lemma pass_transparent m rep a b x y :
  transparent m a b -> differ a b x y ->
  differ a b (sub_skip m rep 0 x) (sub_skip m rep 0 y).
Proof.
  intros (Hab & Ia & Ib) [->|(pre & post & -> & ->)]; [left; reflexivity|].
  destruct (sub_dichotomy m rep a b post (length pre)
              (fun i => Ia i post) (fun i => Ib i post) pre (le_n _))
    as [E|(pre' & Ea & Eb)].
  - intros i Hi. apply Hab. intros Hd. apply (f_equal length) in Hd.
    rewrite length_drop in Hd. cbn in Hd. lia.
  - left. exact E.
  - right. eauto.
Qed.

Lemma pass_equalize m rep a b x y :
  equalizing m a b -> differ a b x y ->
  sub_skip m rep 0 x = sub_skip m rep 0 y.
Proof.
  intros (Ha & Hb & Hab & Hown) [->|(pre & post & -> & ->)]; [reflexivity|].
  apply (sub_equalize m rep a b post (length pre) Ha Hb pre (le_n _)).
  - intros i Hi. apply Hab. intros Hd. apply (f_equal length) in Hd.
    rewrite length_drop in Hd. cbn in Hd. lia.
  - apply Hown.
Qed.

Lemma token_inner_free l p q a :
  (forall i post, i < length a -> starts_with (explode l) (drop i a ++ post) = false) ->
  inner_free (token_match l p q) a.
Proof. intros H i post Hi. unfold token_match. rewrite H by exact Hi. reflexivity. Qed.

Lemma token_agree_before l p q a b :
  clear_of (explode l) a -> clear_of (explode l) b ->
  2 <= length a -> 2 <= length b ->
  (forall post, attempts_agree (closer_at p q (a ++ post)) (closer_at p q (b ++ post))
                               0 (length a) (length b)) ->
  agree_before (token_match l p q) a b.
Proof. intros Ca Cb La Lb H t post Ht. apply token_attempts; auto. Qed.

(** The pattern matches a token of its own. *)
Lemma token_own l p q v post :
  v <> [] -> forallb p v = true -> p q = false ->
  token_match l p q ((explode l ++ v ++ [q]) ++ post)
  = Some (length (explode l ++ v ++ [q]) + 0).
Proof.
  intros Hv Hp Hq. unfold token_match.
  rewrite <- app_assoc, prefix_by_self_app, drop_app_length.
  rewrite (closer_closed p q v post Hp Hq).
  destruct v as [|c v]; [congruence|].
  replace (length ((c :: v) ++ [q])) with (S (S (length v)))
    by (rewrite length_app; cbn; lia).
  f_equal. rewrite !length_app. cbn. lia.
Qed.

Lemma closer_blocked_at p q a0 c r :
  forallb p a0 = true -> p c = false -> char_eqb q c = false ->
  closer_at p q (a0 ++ c :: r) = None.
Proof.
  intros Ha Hc Hq. rewrite closer_run by (apply span_len_forallb, Ha).
  unfold closer_at. cbn. rewrite Hc. cbn. rewrite Hq. reflexivity.
Qed.

Lemma forallb_imp {A} (p p' : A -> bool) l :
  (forall c, p c = true -> p' c = true) -> forallb p l = true -> forallb p' l = true.
Proof.
  intros H. induction l as [|c l IH]; [reflexivity|]. cbn.
  intros Hl. apply andb_true_iff in Hl as [Hc Hl]. rewrite (H c Hc), IH; auto.
Qed.

Lemma forallb_drop {A} (p : A -> bool) s i :
  forallb p s = true -> forallb p (drop i s) = true.
Proof.
  revert i. induction s as [|c s IH]; intros i H; [destruct i; reflexivity|].
  destruct i as [|i]; [exact H|]. cbn in H. apply andb_true_iff in H as [_ H].
  apply IH, H.
Qed.

Lemma forallb_false_existsb {A} (p : A -> bool) l :
  forallb p l = false -> existsb (fun c => negb (p c)) l = true.
Proof.
  induction l as [|c l IH]; [discriminate|]. cbn.
  destruct (p c); cbn; [exact IH|reflexivity].
Qed.

(** *** The Cloudflare passes and a relative-time phrase *)

Lemma clear_of_head l c r :
  forallb (fun x => negb (char_eqb x c)) l = true -> clear_of l (c :: r).
Proof.
  intros H t post Ht Hl.
  destruct (starts_with l (t ++ (c :: r) ++ post)) eqn:E; [|reflexivity].
  apply starts_with_split in E; [|exact Hl].
  destruct (drop (length t) l) as [|x d] eqn:Ed.
  { apply (f_equal length) in Ed. rewrite length_drop in Ed. cbn in Ed. lia. }
  cbn in E. apply andb_true_iff in E as [E _].
  assert (In x l) as Hx.
  { rewrite <- (take_drop (length t) l), Ed. apply in_or_app. right. left. reflexivity. }
  rewrite forallb_forall in H. specialize (H x Hx). rewrite E in H. discriminate.
Qed.

Lemma phrase_chars a : ago_phrase a -> forallb phrase_char a = true.
Proof.
  intros [d w w' u Hd Hdig Hw Hu Hw']. rewrite !forallb_app.
  rewrite (forallb_imp is_digit phrase_char d), (forallb_imp is_space phrase_char w),
    (forallb_imp is_space phrase_char w'); try assumption.
  - unfold time_units in Hu.
    destruct Hu as [<-|[<-|[<-|[<-|[<-|[<-|[<-|[<-|[<-|[<-|[<-|[]]]]]]]]]]]]; reflexivity.
  - intros c. all_chars c.
  - intros c. all_chars c.
  - intros c. all_chars c.
Qed.

Lemma phrase_tail a : ago_phrase a -> exists a1, a = a1 ++ explode "ago".
Proof.
  intros [d w w' u _ _ _ _ _]. exists (d ++ w ++ explode u ++ w').
  rewrite <- !app_assoc. reflexivity.
Qed.

Lemma phrase_length a : ago_phrase a -> 2 <= length a.
Proof.
  intros H. destruct (phrase_tail a H) as (a1 & ->). rewrite length_app. cbn. lia.
Qed.

Lemma phrase_clear l a :
  ago_phrase a ->
  (forall c, is_digit c = true ->
     forallb (fun x => negb (char_eqb x c)) (explode l) = true) ->
  clear_of (explode l) a.
Proof.
  intros Ha H. destruct (ago_phrase_head a Ha) as (c & r & -> & Hc).
  apply clear_of_head, H, Hc.
Qed.

Lemma phrase_inner l p q x j a :
  ago_phrase a ->
  nth_error (explode l) j = Some x ->
  (forall c, phrase_char c = true -> negb (char_eqb x c) = true) ->
  no_tail (explode l) (explode "ago") j = true ->
  inner_free (token_match l p q) a.
Proof.
  intros Ha Hj Hx Hn. apply token_inner_free. intros i post Hi.
  pose proof (phrase_chars a Ha) as Hc.
  destruct (phrase_tail a Ha) as (a1 & ->).
  apply (inner_none _ x j); try assumption.
  apply (forallb_imp phrase_char); assumption.
Qed.

Lemma time_transparent_params a b :
  ago_phrase a -> ago_phrase b ->
  transparent (token_match cf_open not_brace "}") a b.
Proof.
  intros Ha Hb.
  assert (forall c, is_digit c = true ->
            forallb (fun x => negb (char_eqb x c)) (explode cf_open) = true) as Hd
    by (intros c; all_chars c).
  assert (forall c, phrase_char c = true -> negb (char_eqb "_" c) = true) as Hx
    by (intros c; all_chars c).
  assert (forall c, phrase_char c = true -> not_brace c = true) as Hp
    by (intros c; all_chars c).
  split; [|split].
  - apply token_agree_before; try (apply phrase_clear || apply phrase_length); try assumption.
    intros post. apply closer_through; apply (forallb_imp phrase_char);
      try assumption; apply phrase_chars; assumption.
  - apply (phrase_inner _ _ _ "_" 7); auto.
  - apply (phrase_inner _ _ _ "_" 7); auto.
Qed.

Lemma time_transparent_r a b :
  ago_phrase a -> ago_phrase b ->
  transparent (token_match "r:'" hex_char "'") a b.
Proof.
  intros Ha Hb.
  assert (forall c, is_digit c = true ->
            forallb (fun x => negb (char_eqb x c)) (explode "r:'") = true) as Hd
    by (intros c; all_chars c).
  assert (forall c, phrase_char c = true -> negb (char_eqb ":" c) = true) as Hx
    by (intros c; all_chars c).
  assert (forall c, phrase_char c = true -> negb (char_eqb "'" c) = true) as Hq
    by (intros c; all_chars c).
  assert (forall x post, ago_phrase x -> closer_at hex_char "'" (x ++ post) = None) as Hc.
  { intros x post Hx'. apply closer_blocked.
    - destruct (phrase_tail x Hx') as (a1 & ->). rewrite existsb_app.
      apply orb_true_iff. right. reflexivity.
    - apply (forallb_imp phrase_char); [exact Hq|apply phrase_chars, Hx']. }
  split; [|split].
  - apply token_agree_before; try (apply phrase_clear || apply phrase_length); try assumption.
    intros post. left. split; apply Hc; assumption.
  - apply (phrase_inner _ _ _ ":" 1); auto.
  - apply (phrase_inner _ _ _ ":" 1); auto.
Qed.

Lemma time_transparent_t a b :
  ago_phrase a -> ago_phrase b ->
  forallb token_char a = forallb token_char b ->
  transparent (token_match "t:'" token_char "'") a b.
Proof.
  intros Ha Hb Hab.
  assert (forall c, is_digit c = true ->
            forallb (fun x => negb (char_eqb x c)) (explode "t:'") = true) as Hd
    by (intros c; all_chars c).
  assert (forall c, phrase_char c = true -> negb (char_eqb ":" c) = true) as Hx
    by (intros c; all_chars c).
  assert (forall c, phrase_char c = true -> negb (char_eqb "'" c) = true) as Hq
    by (intros c; all_chars c).
  split; [|split].
  - apply token_agree_before; try (apply phrase_clear || apply phrase_length); try assumption.
    intros post. destruct (forallb token_char a) eqn:Ea.
    + apply closer_through; [exact Ea|symmetry; exact Hab].
    + left. split; apply closer_blocked;
        try (apply forallb_false_existsb; congruence);
        apply (forallb_imp phrase_char); try exact Hq; apply phrase_chars; assumption.
  - apply (phrase_inner _ _ _ ":" 1); auto.
  - apply (phrase_inner _ _ _ ":" 1); auto.
Qed.

(** *** The Cloudflare passes and the Cloudflare tokens *)

Lemma inner_none_first l x a post i :
  nth_error l 0 = Some x ->
  forallb (fun c => negb (char_eqb x c)) a = true ->
  i < length a ->
  starts_with l (drop i a ++ post) = false.
Proof.
  intros Hl Hx Hi. pose proof (inner_none l x 0 a [] post i) as H.
  rewrite app_nil_r in H. apply H; auto.
Qed.

Lemma block_not_brace g v :
  forallb not_brace g = true -> forallb not_brace v = true ->
  forallb not_brace (g ++ v ++ ["'"%char]) = true.
Proof. intros Hg Hv. rewrite !forallb_app, Hg, Hv. reflexivity. Qed.

Lemma r_transparent_params h h' :
  forallb hex_char h = true -> forallb hex_char h' = true ->
  transparent (token_match cf_open not_brace "}") (r_token h) (r_token h').
Proof.
  intros Hh Hh'.
  assert (forall c, hex_char c = true -> negb (char_eqb "w" c) = true) as Hw
    by (intros c; all_chars c).
  assert (forall c, hex_char c = true -> not_brace c = true) as Hb
    by (intros c; all_chars c).
  assert (forall v, forallb hex_char v = true ->
            inner_free (token_match cf_open not_brace "}") (r_token v)) as Hin.
  { intros v Hv. apply token_inner_free. intros i post Hi.
    apply (inner_none_first _ "w"); [reflexivity| |exact Hi].
    unfold r_token. rewrite !forallb_app, (forallb_imp hex_char _ v Hw Hv). reflexivity. }
  split; [|split; apply Hin; assumption].
  apply token_agree_before.
  - apply clear_of_prefix. reflexivity.
  - apply clear_of_prefix. reflexivity.
  - unfold r_token. cbn. lia.
  - unfold r_token. cbn. lia.
  - intros post. apply closer_through; apply block_not_brace;
      try reflexivity; apply (forallb_imp hex_char); assumption.
Qed.

Lemma r_equalizing h h' :
  h <> [] -> h' <> [] ->
  forallb hex_char h = true -> forallb hex_char h' = true ->
  equalizing (token_match "r:'" hex_char "'") (r_token h) (r_token h').
Proof.
  intros Hn Hn' Hh Hh'. split; [|split; [|split]].
  - discriminate.
  - discriminate.
  - apply token_agree_before.
    + apply clear_of_prefix. reflexivity.
    + apply clear_of_prefix. reflexivity.
    + unfold r_token. cbn. lia.
    + unfold r_token. cbn. lia.
    + intros post. left.
      split; apply (closer_blocked_at hex_char "'" [] "r"); reflexivity.
  - intros post. exists 0. split; apply token_own; auto.
Qed.

Lemma t_transparent_params v v' :
  forallb token_char v = true -> forallb token_char v' = true ->
  transparent (token_match cf_open not_brace "}") (t_token v) (t_token v').
Proof.
  intros Hv Hv'.
  assert (forall c, token_char c = true -> negb (char_eqb "." c) = true) as Hd
    by (intros c; all_chars c).
  assert (forall c, token_char c = true -> not_brace c = true) as Hb
    by (intros c; all_chars c).
  assert (forall x, forallb token_char x = true ->
            inner_free (token_match cf_open not_brace "}") (t_token x)) as Hin.
  { intros x Hx. apply token_inner_free. intros i post Hi.
    unfold t_token in *. rewrite app_assoc in Hi |- *.
    apply (inner_none _ "." 6); [reflexivity| |reflexivity|exact Hi].
    rewrite !forallb_app, (forallb_imp token_char _ x Hd Hx). reflexivity. }
  split; [|split; apply Hin; assumption].
  apply token_agree_before.
  - apply clear_of_prefix. reflexivity.
  - apply clear_of_prefix. reflexivity.
  - unfold t_token. cbn. lia.
  - unfold t_token. cbn. lia.
  - intros post. apply closer_through; apply block_not_brace;
      try reflexivity; apply (forallb_imp token_char); assumption.
Qed.

Lemma t_transparent_r v v' :
  forallb token_char v = true -> forallb token_char v' = true ->
  transparent (token_match "r:'" hex_char "'") (t_token v) (t_token v').
Proof.
  intros Hv Hv'.
  assert (forall c, token_char c = true -> negb (char_eqb ":" c) = true) as Hc
    by (intros c; all_chars c).
  assert (forall x, forallb token_char x = true ->
            inner_free (token_match "r:'" hex_char "'") (t_token x)) as Hin.
  { intros x Hx. apply token_inner_free. intros i post Hi. unfold t_token in *.
    destruct (Nat.lt_ge_cases i (length (explode "t:'"))) as [Hlt|Hge].
    - rewrite <- drop_app_lt by exact Hi. rewrite <- app_assoc.
      apply head_none; [reflexivity|exact Hlt].
    - rewrite drop_app_ge by exact Hge. rewrite length_app in Hi.
      apply (inner_none _ ":" 1); [reflexivity| |reflexivity|lia].
      rewrite forallb_app, (forallb_imp token_char _ x Hc Hx). reflexivity. }
  split; [|split; apply Hin; assumption].
  apply token_agree_before.
  - apply clear_of_prefix. reflexivity.
  - apply clear_of_prefix. reflexivity.
  - unfold t_token. cbn. lia.
  - unfold t_token. cbn. lia.
  - intros post. left.
    split; apply (closer_blocked_at hex_char "'" [] "t"); reflexivity.
Qed.

Lemma t_equalizing v v' :
  v <> [] -> v' <> [] ->
  forallb token_char v = true -> forallb token_char v' = true ->
  equalizing (token_match "t:'" token_char "'") (t_token v) (t_token v').
Proof.
  intros Hn Hn' Hv Hv'. split; [|split; [|split]].
  - discriminate.
  - discriminate.
  - apply token_agree_before.
    + apply clear_of_prefix. reflexivity.
    + apply clear_of_prefix. reflexivity.
    + unfold t_token. cbn. lia.
    + unfold t_token. cbn. lia.
    + intros post. left.
      split; apply (closer_blocked_at token_char "'" ["t"%char] ":"); reflexivity.
  - intros post. exists 0. split; apply token_own; auto.
Qed.

Lemma block_equalizing c c' :
  c <> [] -> c' <> [] ->
  forallb not_brace c = true -> forallb not_brace c' = true ->
  equalizing (token_match cf_open not_brace "}") (cf_block c) (cf_block c').
Proof.
  intros Hn Hn' Hc Hc'. split; [|split; [|split]].
  - discriminate.
  - discriminate.
  - apply token_agree_before.
    + apply clear_of_prefix. reflexivity.
    + apply clear_of_prefix. reflexivity.
    + unfold cf_block. cbn. lia.
    + unfold cf_block. cbn. lia.
    + intros post. right. right. exists 0. unfold cf_block.
      rewrite !app_assoc, !closer_closed
        by (reflexivity || (rewrite forallb_app; cbn; assumption)).
      split; f_equal; lia.
  - intros post. exists 0. split; apply token_own; auto.
Qed.

(** *** The Cloudflare passes and a phrase before a calm character *)

Lemma pass_transparent_in Q m rep a b x y :
  transparent_in Q m a b -> differ_in Q a b x y ->
  differ_in Q a b (sub_skip m rep 0 x) (sub_skip m rep 0 y).
Proof.
  intros (Hab & Ia & Ib & Hk) [->|(pre & post & Hq & -> & ->)]; [left; reflexivity|].
  destruct (sub_dichotomy m rep a b post (length pre)
              (fun i => Ia i post Hq) (fun i => Ib i post Hq) pre (le_n _))
    as [E|(pre' & Ea & Eb)].
  - intros i Hi. apply Hab; [exact Hq|]. intros Hd. apply (f_equal length) in Hd.
    rewrite length_drop in Hd. cbn in Hd. lia.
  - left. exact E.
  - right. exists pre', (sub_skip m rep 0 post). auto.
Qed.

Lemma time_phrase_chars a : time_phrase a -> forallb phrase_char a = true.
Proof.
  intros [d w u Hd Hdig Hw Hu|x Hx]; [|apply phrase_chars, Hx].
  rewrite !forallb_app.
  rewrite (forallb_imp is_digit phrase_char d), (forallb_imp is_space phrase_char w);
    try assumption.
  - unfold time_units in Hu.
    destruct Hu as [<-|[<-|[<-|[<-|[<-|[<-|[<-|[<-|[<-|[<-|[<-|[]]]]]]]]]]]]; reflexivity.
  - intros c. all_chars c.
  - intros c. all_chars c.
Qed.

Lemma time_phrase_length a : time_phrase a -> 2 <= length a.
Proof.
  intros [d w u Hd Hdig Hw Hu|x Hx]; [|apply phrase_length, Hx].
  rewrite !length_app. destruct d as [|c d]; [congruence|].
  destruct (unit_head u [] Hu) as (x & r & E & _). rewrite app_nil_r in E.
  rewrite E. cbn. lia.
Qed.

Lemma time_phrase_clear l a :
  time_phrase a ->
  (forall c, is_digit c = true ->
     forallb (fun x => negb (char_eqb x c)) (explode l) = true) ->
  clear_of (explode l) a.
Proof.
  intros Ha H. destruct (time_phrase_head a Ha) as (c & r & -> & Hc).
  apply clear_of_head, H, Hc.
Qed.

(** Every phrase holds a character that is no hexadecimal digit. *)
Lemma time_phrase_not_hex a :
  time_phrase a -> existsb (fun c => negb (hex_char c)) a = true.
Proof.
  intros [d w u Hd Hdig Hw Hu|x Hx].
  - rewrite !existsb_app. apply orb_true_iff. right. apply orb_true_iff. right.
    unfold time_units in Hu.
    destruct Hu as [<-|[<-|[<-|[<-|[<-|[<-|[<-|[<-|[<-|[<-|[<-|[]]]]]]]]]]]]; reflexivity.
  - destruct (phrase_tail x Hx) as (a1 & ->). rewrite existsb_app.
    apply orb_true_iff. right. reflexivity.
Qed.

Lemma time_phrase_inner_params a :
  time_phrase a -> forall i post, i < length a ->
    token_match cf_open not_brace "}" (drop i a ++ post) = None.
Proof.
  intros Ha.
  assert (forall c, phrase_char c = true -> negb (char_eqb "_" c) = true) as Hx
    by (intros c; all_chars c).
  pose proof Ha as Hc. apply time_phrase_chars in Hc.
  destruct Ha as [d w u Hd Hdig Hw Hu|x Hx'].
  - apply token_inner_free. intros i post Hi.
    rewrite (app_assoc d w) in Hi, Hc |- *.
    apply (inner_none _ "_" 7); [reflexivity| | |exact Hi].
    + apply (forallb_imp phrase_char); assumption.
    + unfold time_units in Hu.
      destruct Hu as [<-|[<-|[<-|[<-|[<-|[<-|[<-|[<-|[<-|[<-|[<-|[]]]]]]]]]]]];
        reflexivity.
  - apply (phrase_inner _ _ _ "_" 7); auto.
Qed.

(** A literal of three characters whose second character is not in [a]
    and does not follow [a] starts nowhere in [a]. *)
Lemma inner_second c1 c2 c3 a post i :
  forallb (fun c => negb (char_eqb c2 c)) a = true ->
  match post with [] => True | c :: _ => char_eqb c2 c = false end ->
  i < length a ->
  starts_with [c1; c2; c3] (drop i a ++ post) = false.
Proof.
  intros Ha Hpost Hi. pose proof (forallb_drop _ a i Ha) as Hs.
  destruct (drop i a) as [|y s] eqn:E.
  { apply (f_equal length) in E. rewrite length_drop in E. cbn in E. lia. }
  unfold starts_with. cbn. destruct s as [|z s].
  - cbn. destruct post as [|c post]; [apply andb_false_r|]. cbn. rewrite Hpost.
    apply andb_false_r.
  - cbn in Hs |- *. apply andb_true_iff in Hs as [_ Hs].
    apply andb_true_iff in Hs as [Hz _]. apply negb_true_iff in Hz. rewrite Hz.
    apply andb_false_r.
Qed.

Lemma calm_no_colon post :
  calm post -> match post with [] => True | c :: _ => char_eqb ":" c = false end.
Proof.
  destruct post as [|c post]; [auto|]. unfold calm, calm_char. intros H.
  apply andb_true_iff in H as [_ H]. apply negb_true_iff in H. exact H.
Qed.

Lemma time_phrase_inner_token l c1 c3 p q a :
  explode l = [c1; ":"%char; c3] ->
  time_phrase a -> forall i post, calm post -> i < length a ->
    token_match l p q (drop i a ++ post) = None.
Proof.
  intros El Ha i post Hpost Hi. unfold token_match. rewrite El.
  rewrite inner_second; [reflexivity| |apply calm_no_colon, Hpost|exact Hi].
  apply (forallb_imp phrase_char); [|apply time_phrase_chars, Ha].
  intros c. all_chars c.
Qed.

(** A pass whose literal begins with a letter of the relative-time pattern
    leaves a calm character at the head of a text where it is. *)
Lemma token_keeps_calm l c0 r p q rep post :
  explode l = c0 :: r -> unit_letter c0 = true ->
  calm post -> calm (sub_skip (token_match l p q) rep 0 post).
Proof.
  intros El Hc0 Hpost. destruct post as [|c s]; [exact I|].
  rewrite sub_cons. unfold token_match at 1. rewrite El. unfold starts_with. cbn.
  destruct (char_eqb c0 c) eqn:E.
  - apply char_eqb_eq in E. subst c. unfold calm, calm_char in Hpost.
    rewrite Hc0 in Hpost. discriminate.
  - cbn. exact Hpost.
Qed.

Lemma calm_transparent_params a b :
  time_phrase a -> time_phrase b ->
  transparent_in calm (token_match cf_open not_brace "}") a b.
Proof.
  intros Ha Hb.
  assert (forall c, is_digit c = true ->
            forallb (fun x => negb (char_eqb x c)) (explode cf_open) = true) as Hd
    by (intros c; all_chars c).
  assert (forall c, phrase_char c = true -> not_brace c = true) as Hp
    by (intros c; all_chars c).
  split; [|split; [|split]].
  - intros t post _ Ht. apply token_attempts;
      try (apply time_phrase_clear || apply time_phrase_length); try assumption.
    apply closer_through; apply (forallb_imp phrase_char);
      try assumption; apply time_phrase_chars; assumption.
  - intros i post _. apply time_phrase_inner_params, Ha.
  - intros i post _. apply time_phrase_inner_params, Hb.
  - intros rep post. apply (token_keeps_calm cf_open "w" _ _ _ _ _ eq_refl eq_refl).
Qed.

Lemma calm_transparent_r a b :
  time_phrase a -> time_phrase b ->
  transparent_in calm (token_match "r:'" hex_char "'") a b.
Proof.
  intros Ha Hb.
  assert (forall c, is_digit c = true ->
            forallb (fun x => negb (char_eqb x c)) (explode "r:'") = true) as Hd
    by (intros c; all_chars c).
  assert (forall c, phrase_char c = true -> negb (char_eqb "'" c) = true) as Hq
    by (intros c; all_chars c).
  assert (forall x post, time_phrase x -> closer_at hex_char "'" (x ++ post) = None) as Hc.
  { intros x post Hx. apply closer_blocked; [apply time_phrase_not_hex, Hx|].
    apply (forallb_imp phrase_char); [exact Hq|apply time_phrase_chars, Hx]. }
  split; [|split; [|split]].
  - intros t post _ Ht. apply token_attempts;
      try (apply time_phrase_clear || apply time_phrase_length); try assumption.
    left. split; apply Hc; assumption.
  - intros i post. apply (time_phrase_inner_token "r:'" "r" "'" _ _ _ eq_refl Ha).
  - intros i post. apply (time_phrase_inner_token "r:'" "r" "'" _ _ _ eq_refl Hb).
  - intros rep post. apply (token_keeps_calm "r:'" "r" _ _ _ _ _ eq_refl eq_refl).
Qed.

Lemma calm_transparent_t a b :
  time_phrase a -> time_phrase b ->
  forallb token_char a = forallb token_char b ->
  transparent_in calm (token_match "t:'" token_char "'") a b.
Proof.
  intros Ha Hb Hab.
  assert (forall c, is_digit c = true ->
            forallb (fun x => negb (char_eqb x c)) (explode "t:'") = true) as Hd
    by (intros c; all_chars c).
  assert (forall c, phrase_char c = true -> negb (char_eqb "'" c) = true) as Hq
    by (intros c; all_chars c).
  split; [|split; [|split]].
  - intros t post _ Ht. apply token_attempts;
      try (apply time_phrase_clear || apply time_phrase_length); try assumption.
    destruct (forallb token_char a) eqn:Ea.
    + apply closer_through; [exact Ea|symmetry; exact Hab].
    + left. split; apply closer_blocked;
        try (apply forallb_false_existsb; congruence);
        apply (forallb_imp phrase_char); try exact Hq; apply time_phrase_chars; assumption.
  - intros i post. apply (time_phrase_inner_token "t:'" "t" "'" _ _ _ eq_refl Ha).
  - intros i post. apply (time_phrase_inner_token "t:'" "t" "'" _ _ _ eq_refl Hb).
  - intros rep post. apply (token_keeps_calm "t:'" "t" _ _ _ _ _ eq_refl eq_refl).
Qed.

(** *** The passes of [normalize_text] on two texts that differ in noise *)

Lemma normalize_text_passes s :
  normalize_text s
  = implode (collapse_ws (sub_chars re_fb_pixel "" (noise_passes (explode s)))).
Proof.
  unfold normalize_text, noise_passes, re_sub. rewrite !explode_implode. reflexivity.
Qed.

Lemma sub_params rep x :
  sub_chars re_cf_params rep x
  = sub_skip (token_match cf_open not_brace "}") (explode rep) 0 x.
Proof. apply sub_skip_ext. intros t. apply cf_pattern_shape. Qed.

Lemma sub_r rep x :
  sub_chars re_cf_r rep x = sub_skip (token_match "r:'" hex_char "'") (explode rep) 0 x.
Proof. apply sub_skip_ext. intros t. apply cf_pattern_shape. Qed.

Lemma sub_t rep x :
  sub_chars re_cf_t rep x = sub_skip (token_match "t:'" token_char "'") (explode rep) 0 x.
Proof. apply sub_skip_ext. intros t. apply cf_pattern_shape. Qed.

Lemma time_equalizes a b x y :
  ago_phrase a -> ago_phrase b -> differ a b x y ->
  sub_chars re_time "[TIME]" x = sub_chars re_time "[TIME]" y.
Proof.
  intros Ha Hb [->|(pre & post & -> & ->)]; [reflexivity|].
  apply time_sub_phrase; assumption.
Qed.

Lemma time_equalizes_calm a b x y :
  time_phrase a -> time_phrase b -> differ_in calm a b x y ->
  sub_chars re_time "[TIME]" x = sub_chars re_time "[TIME]" y.
Proof.
  intros Ha Hb [->|(pre & post & Hq & -> & ->)]; [reflexivity|].
  apply time_sub_calm; assumption.
Qed.

(** One piece of noise: after the four passes the two texts are equal. *)
Lemma noise_passes_one pre a b post :
  noise_in post a b ->
  noise_passes (pre ++ a ++ post) = noise_passes (pre ++ b ++ post).
Proof.
  intros H. unfold noise_passes. rewrite !sub_params, !sub_r, !sub_t.
  assert (differ a b (pre ++ a ++ post) (pre ++ b ++ post)) as Hd by (right; eauto).
  destruct H as [a b H|a b Ha Hb Hab Hpost].
  - destruct H
      as [a b Ha Hb Hab|h h' Hn Hn' Hh Hh'|v v' Hn Hn' Hv Hv'|c c' Hn Hn' Hc Hc'].
    + apply (time_equalizes a b); [assumption..|].
      apply pass_transparent; [apply time_transparent_t; assumption|].
      apply pass_transparent; [apply time_transparent_r; assumption|].
      apply pass_transparent; [apply time_transparent_params; assumption|].
      exact Hd.
    + do 2 f_equal. apply (pass_equalize _ _ (r_token h) (r_token h'));
        [apply r_equalizing; assumption|].
      apply pass_transparent; [apply r_transparent_params; assumption|].
      exact Hd.
    + f_equal. apply (pass_equalize _ _ (t_token v) (t_token v'));
        [apply t_equalizing; assumption|].
      apply pass_transparent; [apply t_transparent_r; assumption|].
      apply pass_transparent; [apply t_transparent_params; assumption|].
      exact Hd.
    + do 3 f_equal. apply (pass_equalize _ _ (cf_block c) (cf_block c'));
        [apply block_equalizing; assumption|].
      exact Hd.
  - apply (time_equalizes_calm a b); [assumption..|].
    apply pass_transparent_in; [apply calm_transparent_t; assumption|].
    apply pass_transparent_in; [apply calm_transparent_r; assumption|].
    apply pass_transparent_in; [apply calm_transparent_params; assumption|].
    right. eauto.
Qed.

Lemma noise_passes_equal x y :
  same_but_noise x y -> noise_passes x = noise_passes y.
Proof.
  induction 1 as [x|pre a b post y Hn _ IH]; [reflexivity|].
  rewrite <- IH. apply noise_passes_one, Hn.
Qed.

Lemma normalize_text_noise s s' :
  same_but_noise (explode s) (explode s') -> normalize_text s = normalize_text s'.
Proof.
  intros H. rewrite !normalize_text_passes, (noise_passes_equal _ _ H). reflexivity.
Qed.

(** ** Documents that differ in tracking parameters *)

Lemma strip_tracking_free u :
  tracking_free (explode u) = true -> strip_tracking_params u = u.
Proof.
  intros Hu. unfold strip_tracking_params.
  destruct tracking_pattern_shape as (-> & -> & -> & ->).
  tracking_pass "?_gl=". tracking_pass "&_gl=".
  tracking_pass "?_ga=". tracking_pass "&_ga=". reflexivity.
Qed.

Lemma strip_with_param u x :
  tracking_free (explode u) = true -> with_param u x -> strip_tracking_params x = u.
Proof.
  intros Hu [->|(p & v & Hp & Hv & ->)].
  - apply strip_tracking_free, Hu.
  - apply strip_tracking_param; assumption.
Qed.

Lemma strip_tracked_value x1 x2 :
  tracked_value x1 x2 -> strip_tracking_params x1 = strip_tracking_params x2.
Proof.
  intros (u & Hu & H1 & H2).
  rewrite (strip_with_param u x1), (strip_with_param u x2) by assumption. reflexivity.
Qed.

Lemma attr_get_app key l1 l2 :
  attr_get key (l1 ++ l2)
  = match attr_get key l1 with Some y => Some y | None => attr_get key l2 end.
Proof.
  induction l1 as [|[k v] l1 IH]; [reflexivity|]. cbn.
  destruct (String.eqb k key); [reflexivity|exact IH].
Qed.

Lemma attr_set_app_some key value l1 l2 y :
  attr_get key l1 = Some y ->
  attr_set key value (l1 ++ l2) = attr_set key value l1 ++ l2.
Proof.
  induction l1 as [|[k v] l1 IH]; [discriminate|]. cbn.
  destruct (String.eqb k key); [reflexivity|]. intros H. cbn. rewrite IH by exact H.
  reflexivity.
Qed.

Lemma attr_set_app_none key value l1 l2 :
  attr_get key l1 = None ->
  attr_set key value (l1 ++ l2) = l1 ++ attr_set key value l2.
Proof.
  induction l1 as [|[k v] l1 IH]; [reflexivity|]. cbn.
  destruct (String.eqb k key); [discriminate|]. intros H. rewrite IH by exact H.
  reflexivity.
Qed.

(** A loop over one attribute leaves another attribute where it is. *)
Lemma strip_attr_around (names : list string) key' name l1 key l2 :
  key <> key' -> attr_get key l1 = None ->
  exists l1' l2',
    attr_get key l1' = None
    /\ forall x,
         (if name_in names name then
            match attr_get key' (l1 ++ (key, x) :: l2) with
            | Some v => attr_set key' (strip_tracking_params v) (l1 ++ (key, x) :: l2)
            | None => l1 ++ (key, x) :: l2
            end
          else l1 ++ (key, x) :: l2)
         = l1' ++ (key, x) :: l2'.
Proof.
  intros Hne H1. destruct (name_in names name); [|exists l1, l2; auto].
  assert (String.eqb key key' = false) as Hk by (apply String.eqb_neq, Hne).
  destruct (attr_get key' l1) as [y|] eqn:E1.
  - exists (attr_set key' (strip_tracking_params y) l1), l2. split.
    + rewrite attr_get_set_ne by congruence. exact H1.
    + intros x. rewrite attr_get_app, E1.
      apply (attr_set_app_some _ _ _ _ y), E1.
  - destruct (attr_get key' l2) as [y|] eqn:E2.
    + exists l1, (attr_set key' (strip_tracking_params y) l2). split; [exact H1|].
      intros x. rewrite attr_get_app, E1. cbn. rewrite Hk, E2.
      rewrite attr_set_app_none by exact E1. cbn. rewrite Hk. reflexivity.
    + exists l1, l2. split; [exact H1|].
      intros x. rewrite attr_get_app, E1. cbn. rewrite Hk, E2. reflexivity.
Qed.

Lemma strip_attr_at (names : list string) name l1 key x l2 :
  attr_get key l1 = None -> name_in names name = true ->
  (if name_in names name then
     match attr_get key (l1 ++ (key, x) :: l2) with
     | Some v => attr_set key (strip_tracking_params v) (l1 ++ (key, x) :: l2)
     | None => l1 ++ (key, x) :: l2
     end
   else l1 ++ (key, x) :: l2)
  = l1 ++ (key, strip_tracking_params x) :: l2.
Proof.
  intros H1 Hn. rewrite Hn, attr_get_app, H1. cbn. rewrite String.eqb_refl.
  rewrite attr_set_app_none by exact H1. cbn. rewrite String.eqb_refl. reflexivity.
Qed.

Lemma strip_attrs_one name l1 key x1 x2 l2 :
  covered name key = true -> attr_get key l1 = None -> tracked_value x1 x2 ->
  strip_src name (strip_href name (l1 ++ (key, x1) :: l2))
  = strip_src name (strip_href name (l1 ++ (key, x2) :: l2)).
Proof.
  intros Hcov H1 Hx. apply strip_tracked_value in Hx.
  unfold covered in Hcov.
  apply orb_true_iff in Hcov as [H|H]; apply andb_true_iff in H as [Hk Hn];
    apply String.eqb_eq in Hk; subst key.
  - f_equal. unfold strip_href.
    rewrite !(strip_attr_at ["a"; "link"; "script"; "img"]) by assumption.
    rewrite Hx. reflexivity.
  - destruct (strip_attr_around ["a"; "link"; "script"; "img"] "href" name l1 "src" l2)
      as (l1' & l2' & H1' & E); [discriminate|exact H1|].
    unfold strip_href. rewrite !E. unfold strip_src.
    rewrite !(strip_attr_at ["img"; "script"]) by assumption.
    rewrite Hx. reflexivity.
Qed.

Lemma strip_tracked_attrs name attrs attrs' :
  tracked_attrs name attrs attrs' ->
  strip_src name (strip_href name attrs) = strip_src name (strip_href name attrs').
Proof.
  induction 1 as [attrs|l1 key x1 x2 l2 attrs' Hc H1 Hx _ IH]; [reflexivity|].
  rewrite <- IH. apply strip_attrs_one; assumption.
Qed.

Lemma strip_tracked_node n :
  forall n', tracked_node n n' ->
    map_tags strip_src (map_tags strip_href n)
    = map_tags strip_src (map_tags strip_href n').
Proof.
  induction n as [s|name attrs children IH] using node_forall_ind; intros n' H.
  - inversion H. reflexivity.
  - inversion H as [|name' attrs1 attrs' ch ch' Ha Hc]. subst. cbn. f_equal.
    + apply strip_tracked_attrs, Ha.
    + clear H Ha. revert ch' Hc. induction IH as [|c children Hd _ IHc]; intros ch' Hc.
      * inversion Hc. reflexivity.
      * inversion Hc as [|c1 c' l1 l' Hcc Hl]. subst. cbn. f_equal; [apply Hd, Hcc|].
        apply IHc, Hl.
Qed.

Lemma strip_tracked doc doc' :
  Forall2 tracked_node doc doc' -> strip_tracking doc = strip_tracking doc'.
Proof.
  unfold strip_tracking. induction 1 as [|n n' doc doc' Hn _ IH]; [reflexivity|].
  cbn. f_equal; [apply strip_tracked_node, Hn|exact IH].
Qed.

(** ** Noise invariance *)




(** The alternative [minutes?] of the pattern stands after [mins?] and is
    never reached: of [5 minutes ago] only [5 min] is replaced. *)
Example minutes_alternative_unreached :
  _normalize_html_for_comparison html_parser "5 minutes ago" = "[TIME]utes ago".
Proof. vm_compute. reflexivity. Qed.

(** ** White space *)

(** *** White space and the relative-time pattern *)

Lemma space_not_letter c : is_space c = true -> unit_letter c = false.
Proof. all_chars c. Qed.

Lemma unit_len_word r x : space_headed x -> unit_len (r ++ x) = unit_len r.
Proof.
  intros Hx. apply unit_len_app_stop.
  destruct x as [|c x]; [exact I|]. apply space_not_letter, Hx.
Qed.

Lemma next_word_split x :
  exists rest, drop (span_len is_space x) x = next_word x ++ rest /\ space_headed rest.
Proof.
  unfold next_word. set (s := drop (span_len is_space x) x).
  exists (drop (span_len nonspace s) s). split; [symmetry; apply take_drop|].
  pose proof (span_len_stop nonspace s) as H.
  destruct (drop (span_len nonspace s) s) as [|c r]; [exact I|].
  unfold nonspace in H. apply negb_false_iff in H. exact H.
Qed.

(** Whether the pattern matches at the head of a word depends on the rest
    of the word and on the word after it, not on the white space between. *)
Lemma time_none_word r x x' :
  forallb nonspace r = true -> space_headed x -> space_headed x' ->
  next_word x = next_word x' ->
  time_match (r ++ x) = None -> time_match (r ++ x') = None.
Proof.
  intros Hr Hx Hx' Hw.
  assert (forall z, space_headed z -> nondigit_head z) as Hnd.
  { intros [|c z]; [auto|]. cbn. apply space_not_digit. }
  destruct r as [|c r0].
  { intros _. cbn [app]. destruct x' as [|c z]; [reflexivity|].
    cbn in Hx' |- *. rewrite (space_not_digit c Hx'). reflexivity. }
  set (R := c :: r0) in *. unfold time_match. change (R ++ x) with (c :: r0 ++ x).
  change (R ++ x') with (c :: r0 ++ x'). cbv iota.
  destruct (is_digit c) eqn:Hc; [|reflexivity].
  change (c :: r0 ++ x) with (R ++ x). change (c :: r0 ++ x') with (R ++ x').
  pose proof (span_len_le is_digit R) as Hle.
  destruct (Nat.eq_dec (span_len is_digit R) (length R)) as [E|E].
  - rewrite !(span_len_app_all is_digit R) by exact E.
    rewrite !(span_len_head_false is_digit) by (apply Hnd; assumption).
    rewrite !Nat.add_0_r, !drop_app_length.
    destruct (next_word_split x) as (rest & -> & Hrest).
    destruct (next_word_split x') as (rest' & -> & Hrest').
    rewrite !unit_len_word by assumption. rewrite Hw.
    destruct (unit_len (next_word x')); [discriminate|reflexivity].
  - rewrite !(span_len_app_lt is_digit R) by lia.
    rewrite !(drop_app_lt R) by lia.
    assert (forallb nonspace (drop (span_len is_digit R) R) = true) as Hr'
      by (apply forallb_drop, Hr).
    assert (length (drop (span_len is_digit R) R) <> 0) as Hl
      by (rewrite length_drop; lia).
    remember (drop (span_len is_digit R) R) as r' eqn:Er'.
    assert (exists c' z, r' = c' :: z /\ is_space c' = false) as (c' & z & Er & Hc').
    { destruct r' as [|c' z]; [cbn in Hl; congruence|].
      exists c', z. split; [reflexivity|].
      cbn in Hr'. apply andb_true_iff in Hr' as [Hh _].
      unfold nonspace in Hh. apply negb_true_iff in Hh. exact Hh. }
    rewrite !(span_len_head_false is_space) by (rewrite Er; exact Hc').
    cbn [drop]. rewrite !drop_0, !unit_len_word by assumption.
    destruct (unit_len r'); [discriminate|reflexivity].
Qed.

(** *** The white-space pass *)

Lemma aligned_word_end w g :
  forallb nonspace w = true -> forallb is_space g = true -> aligned (w ++ g) w.
Proof.
  intros Hw Hg. induction w as [|c w IH]; [apply aligned_end, Hg|].
  cbn in Hw. apply andb_true_iff in Hw as [Hc Hw].
  apply aligned_char; [apply negb_true_iff, Hc|apply IH, Hw].
Qed.

Lemma aligned_prefix w t y :
  forallb nonspace w = true -> aligned t y -> aligned (w ++ t) (w ++ y).
Proof.
  intros Hw H. induction w as [|c w IH]; [exact H|].
  cbn in Hw. apply andb_true_iff in Hw as [Hc Hw].
  apply aligned_char; [apply negb_true_iff, Hc|apply IH, Hw].
Qed.

Lemma next_word_of_word r x :
  r <> [] -> forallb nonspace r = true -> space_headed x -> next_word (r ++ x) = r.
Proof.
  intros Hn Hr Hx. unfold next_word.
  assert (span_len is_space (r ++ x) = 0) as ->.
  { destruct r as [|c r]; [congruence|]. cbn in Hr |- *.
    apply andb_true_iff in Hr as [Hc _]. apply negb_true_iff in Hc. rewrite Hc.
    reflexivity. }
  cbn [drop]. rewrite drop_0, span_len_run by exact Hr.
  rewrite (span_len_head_false nonspace x).
  - rewrite Nat.add_0_r. apply take_app_length.
  - destruct x as [|c x]; [exact I|]. unfold nonspace. cbn in Hx. rewrite Hx. reflexivity.
Qed.

Lemma next_word_skip g x :
  forallb is_space g = true -> ~ space_headed x \/ x = [] ->
  next_word (g ++ x) = next_word x.
Proof.
  intros Hg Hx. unfold next_word.
  assert (span_len is_space x = 0) as E.
  { destruct x as [|c x]; [reflexivity|]. cbn.
    destruct (is_space c) eqn:Ec; [|reflexivity].
    destruct Hx as [Hx|Hx]; [destruct Hx; exact Ec|discriminate]. }
  rewrite span_len_run by exact Hg. rewrite E, Nat.add_0_r, drop_app_length.
  cbn [drop]. rewrite drop_0. reflexivity.
Qed.

(** Two aligned texts begin with the same word, have white space or
    nothing after it, and then the same word again. *)
Lemma aligned_word t y :
  aligned t y ->
  exists r x x',
    t = r ++ x /\ y = r ++ x' /\ forallb nonspace r = true
    /\ space_headed x /\ space_headed x' /\ next_word x = next_word x'.
Proof.
  induction 1 as [g Hg|c t y Hc _ IH|g c t y Hn Hg Hc _ IH].
  - exists [], g, []. repeat split; try reflexivity.
    + destruct g as [|c g]; [exact I|]. cbn in Hg |- *.
      apply andb_true_iff in Hg as [Hg _]. exact Hg.
    + unfold next_word. rewrite (span_len_forallb is_space g Hg), drop_all. reflexivity.
  - destruct IH as (r & x & x' & -> & -> & Hr & Hx & Hx' & Hw).
    exists (c :: r), x, x'. repeat split; try assumption.
    cbn. unfold nonspace at 1. rewrite Hc. exact Hr.
  - destruct IH as (r & x & x' & Et & Ey & Hr & Hx & Hx' & Hw).
    assert (r <> []) as Hrn.
    { intros ->. cbn in Et. subst x. cbn in Hx. congruence. }
    exists [], (g ++ c :: t), (" "%char :: c :: y). repeat split; try reflexivity.
    + destruct g as [|a g]; [congruence|]. cbn in Hg |- *.
      apply andb_true_iff in Hg as [Hg _]. exact Hg.
    + rewrite next_word_skip by (assumption || (left; cbn; congruence)).
      change (" "%char :: c :: y) with ([" "%char] ++ c :: y).
      rewrite next_word_skip by (reflexivity || (left; cbn; congruence)).
      rewrite Et, Ey, !next_word_of_word by assumption. reflexivity.
Qed.

Lemma aligned_time t y :
  aligned t y -> time_match t = None -> time_match y = None.
Proof.
  intros H. destruct (aligned_word t y H) as (r & x & x' & -> & -> & Hr & Hx & Hx' & Hw).
  apply time_none_word; assumption.
Qed.

(** Every place of [y] is a place of [t], or begins with a space. *)
Lemma aligned_suffix t y :
  aligned t y ->
  forall i, space_headed (drop i y) \/ exists j, aligned (drop j t) (drop i y).
Proof.
  induction 1 as [g Hg|c t y Hc H IH|g c t y Hn Hg Hc H IH]; intros i.
  - left. destruct i; exact I.
  - destruct i as [|i]; [right; exists 0; apply aligned_char; assumption|].
    destruct (IH i) as [E|(j & Hj)]; [left; exact E|right; exists (S j); exact Hj].
  - destruct i as [|i]; [left; reflexivity|].
    destruct (IH i) as [E|(j & Hj)]; [left; exact E|].
    right. exists (length g + j). rewrite drop_app_plus. exact Hj.
Qed.

Lemma space_headed_no_match x : space_headed x -> time_match x = None.
Proof.
  destruct x as [|c x]; [reflexivity|]. cbn. intros H.
  rewrite (space_not_digit c H). reflexivity.
Qed.

Lemma aligned_clean t y : aligned t y -> time_clean t -> time_clean y.
Proof.
  intros H Ht i. destruct (aligned_suffix t y H i) as [E|(j & Hj)].
  - apply space_headed_no_match, E.
  - apply (aligned_time _ _ Hj), Ht.
Qed.

(** A literal without white space at the head of [y] stands at the head
    of [t]. *)
Lemma aligned_prefix_lit l :
  forallb nonspace l = true ->
  forall t y, aligned t y -> starts_with l y = true -> starts_with l t = true.
Proof.
  unfold starts_with. induction l as [|a l IH]; intros Hl t y H E; [reflexivity|].
  cbn in Hl. apply andb_true_iff in Hl as [Ha Hl]. apply negb_true_iff in Ha.
  destruct y as [|c y]; [discriminate|]. cbn in E.
  apply andb_true_iff in E as [Hac E]. apply char_eqb_eq in Hac. subst c.
  inversion H as [|c2 t2 y2 Hc2 Ht2|g2 c2 t2 y2 Hn2 Hg2 Hc2 Ht2]; subst.
  - cbn. rewrite char_eqb_refl. apply (IH Hl t2 y); assumption.
  - discriminate.
Qed.

Lemma join_sp_cons w ws :
  join_sp (w :: ws)
  = w ++ match ws with [] => [] | _ :: _ => " "%char :: join_sp ws end.
Proof. destruct ws; cbn; [rewrite app_nil_r|]; reflexivity. Qed.

Lemma split_nil s :
  forall cur, split_ws cur s = [] -> cur = [] /\ forallb is_space s = true.
Proof.
  induction s as [|c s IH]; intros cur; cbn.
  - destruct cur; [auto|discriminate].
  - destruct (is_space c) eqn:Ec.
    + destruct cur; [|discriminate]. intros H. apply IH in H as [_ H]. auto.
    + intros H. apply IH in H as [H _]. discriminate.
Qed.

Lemma rev_nonspace cur :
  cur <> [] -> forallb nonspace cur = true ->
  exists c r, rev cur = c :: r /\ is_space c = false /\ forallb nonspace (rev cur) = true.
Proof.
  intros Hn Hc.
  assert (forallb nonspace (rev cur) = true) as Hr.
  { apply forallb_forall. intros a Ha. apply in_rev in Ha.
    rewrite forallb_forall in Hc. apply Hc, Ha. }
  destruct (rev cur) as [|c r] eqn:E.
  - apply (f_equal length) in E. rewrite length_rev in E.
    destruct cur; [congruence|discriminate].
  - exists c, r. repeat split; [|exact Hr]. cbn in Hr.
    apply andb_true_iff in Hr as [Hh _]. apply negb_true_iff in Hh. exact Hh.
Qed.

Lemma split_words s :
  forall cur, Forall (fun w => w <> []) (split_ws cur s).
Proof.
  assert (forall (a : ascii) cur, rev (a :: cur) <> []) as Hrev.
  { intros a cur H. apply (f_equal length) in H. rewrite length_rev in H. discriminate. }
  induction s as [|c s IH]; intros cur; cbn [split_ws].
  - destruct cur; constructor; [apply Hrev|constructor].
  - destruct (is_space c); [|apply IH].
    destruct cur; [apply IH|]. constructor; [apply Hrev|apply IH].
Qed.

(** The output of the white-space pass does not begin with a space. *)
Lemma join_split_head s :
  forall cur, forallb nonspace cur = true ->
    nonspace_headed (join_sp (split_ws cur s)).
Proof.
  induction s as [|c s IH]; intros cur Hc.
  - cbn [split_ws]. destruct cur as [|a cur]; [exact I|].
    destruct (rev_nonspace (a :: cur)) as (x & r & E & Hx & _); [discriminate|exact Hc|].
    cbn [join_sp]. rewrite E. exact Hx.
  - cbn [split_ws]. destruct (is_space c) eqn:Ec.
    + destruct cur as [|a cur]; [apply IH; reflexivity|].
      destruct (rev_nonspace (a :: cur)) as (x & r & E & Hx & _); [discriminate|exact Hc|].
      rewrite join_sp_cons, E. exact Hx.
    + apply IH. cbn. unfold nonspace at 1. rewrite Ec. exact Hc.
Qed.

(** The output of the white-space pass is aligned with its input, past
    the white space the input begins with. *)
Lemma split_aligned s :
  forall cur, forallb nonspace cur = true ->
    exists g t,
      rev cur ++ s = g ++ t /\ forallb is_space g = true
      /\ (cur <> [] -> g = [])
      /\ aligned t (join_sp (split_ws cur s)).
Proof.
  induction s as [|c s IH]; intros cur Hc.
  - cbn [split_ws]. destruct cur as [|a cur].
    + exists [], []. repeat split; auto. apply aligned_end. reflexivity.
    + destruct (rev_nonspace (a :: cur)) as (x & r & E & Hx & Hr); [discriminate|exact Hc|].
      exists [], (rev (a :: cur) ++ []). repeat split; auto.
      cbn [join_sp]. apply aligned_word_end; [exact Hr|reflexivity].
  - cbn [split_ws]. destruct (is_space c) eqn:Ec.
    + destruct (IH [] eq_refl) as (g & t & Es & Hg & _ & Ha). cbn [rev app] in Es.
      destruct cur as [|a cur].
      * exists (c :: g), t. repeat split; [cbn; rewrite Es; reflexivity| |congruence|exact Ha].
        cbn. rewrite Ec. exact Hg.
      * destruct (rev_nonspace (a :: cur)) as (x & r & E & Hx & Hr);
          [discriminate|exact Hc|].
        exists [], (rev (a :: cur) ++ c :: s). repeat split; auto.
        rewrite join_sp_cons.
        pose proof (join_split_head s [] eq_refl) as Hh.
        destruct (split_ws [] s) as [|w ws] eqn:Ews.
        -- apply split_nil in Ews as [_ Hs]. rewrite app_nil_r.
           apply aligned_word_end; [exact Hr|]. cbn. rewrite Ec. exact Hs.
        -- apply aligned_prefix; [exact Hr|].
           destruct (join_sp (w :: ws)) as [|c1 y1] eqn:Ey.
           { pose proof (split_words s []) as Hw. rewrite Ews in Hw.
             apply Forall_cons in Hw as [Hw _]. rewrite join_sp_cons in Ey.
             destruct w; [congruence|discriminate]. }
           cbn in Hh. rewrite Es.
           inversion Ha as [|c2 t2 y2 Hc2 Ht2|g2 c2 t2 y2 Hn2 Hg2 Hc2 Ht2]; subst.
           ++ apply (aligned_gap (c :: g) c1 t2 y1); [discriminate| |exact Hc2|].
              ** cbn. rewrite Ec. exact Hg.
              ** apply aligned_char; assumption.
           ++ discriminate.
    + destruct (IH (c :: cur)) as (g & t & Es & Hg & Hn & Ha).
      { cbn. unfold nonspace at 1. rewrite Ec. exact Hc. }
      rewrite (Hn ltac:(discriminate)) in *. cbn [app] in Es.
      exists [], t. repeat split; auto.
      cbn [rev] in Es. rewrite <- app_assoc in Es. exact Es.
Qed.

Lemma collapse_aligned s :
  exists g t, s = g ++ t /\ forallb is_space g = true /\ aligned t (collapse_ws s).
Proof.
  destruct (split_aligned s [] eq_refl) as (g & t & Es & Hg & _ & Ha).
  exists g, t. auto.
Qed.

Lemma collapse_clean s : time_clean s -> time_clean (collapse_ws s).
Proof.
  intros H. destruct (collapse_aligned s) as (g & t & -> & Hg & Ha).
  apply (aligned_clean t); [exact Ha|].
  intros i. rewrite <- (drop_app_plus g t i). apply H.
Qed.

Lemma aligned_forallb (P : ascii -> bool) t y :
  P " "%char = true -> aligned t y -> forallb P t = true -> forallb P y = true.
Proof.
  intros Hsp. induction 1 as [g Hg|c t y Hc _ IH|g c t y Hn Hg Hc _ IH]; intros H.
  - reflexivity.
  - cbn in H |- *. apply andb_true_iff in H as [-> H]. apply IH, H.
  - rewrite forallb_app in H. apply andb_true_iff in H as [_ H].
    cbn [forallb]. rewrite Hsp. apply IH, H.
Qed.

Lemma collapse_forallb (P : ascii -> bool) s :
  P " "%char = true -> forallb P s = true -> forallb P (collapse_ws s) = true.
Proof.
  intros Hsp H. destruct (collapse_aligned s) as (g & t & -> & Hg & Ha).
  rewrite forallb_app in H. apply andb_true_iff in H as [_ H].
  apply (aligned_forallb P t); assumption.
Qed.

(** A text that the white-space pass has produced is a fixed point of
    the pass. *)
Lemma aligned_fixed t y :
  aligned t y ->
  forall cur, forallb nonspace cur = true -> cur <> [] \/ nonspace_headed y ->
    join_sp (split_ws cur y) = rev cur ++ y.
Proof.
  induction 1 as [g Hg|c t y Hc _ IH|g c t y Hn Hg Hc _ IH]; intros cur Hcur Hh.
  - cbn [split_ws]. destruct cur; [reflexivity|]. cbn [join_sp].
    rewrite app_nil_r. reflexivity.
  - cbn [split_ws]. rewrite Hc. rewrite IH.
    + cbn [rev]. rewrite <- app_assoc. reflexivity.
    + cbn. unfold nonspace at 1. rewrite Hc. exact Hcur.
    + left. discriminate.
  - destruct Hh as [Hh|Hh]; [|cbn in Hh; discriminate].
    destruct cur as [|a cur]; [congruence|].
    specialize (IH [] eq_refl (or_intror Hc)). cbn [rev app] in IH.
    change (split_ws (a :: cur) (" "%char :: c :: y))
      with (rev (a :: cur) :: split_ws [] (c :: y)).
    rewrite join_sp_cons.
    destruct (split_ws [] (c :: y)) as [|w ws] eqn:E; [cbn in IH; discriminate|].
    rewrite IH. reflexivity.
Qed.

Lemma collapse_idempotent s : collapse_ws (collapse_ws s) = collapse_ws s.
Proof.
  destruct (collapse_aligned s) as (g & t & _ & _ & Ha).
  apply (aligned_fixed t _ Ha [] eq_refl). right.
  apply (join_split_head s []). reflexivity.
Qed.

(** ** Texts without Cloudflare tokens and without images *)

Lemma occurs_false l s :
  occurs l s = false <-> forall i, starts_with l (drop i s) = false.
Proof.
  induction s as [|c s IH]; cbn [occurs].
  - rewrite orb_false_r. split; [intros H [|i]; exact H|intros H; apply (H 0)].
  - rewrite orb_false_iff, IH. split.
    + intros [H0 H] [|i]; [exact H0|apply H].
    + intros H. split; [apply (H 0)|intros i; apply (H (S i))].
Qed.

Lemma quiet_spec s :
  quiet s = true ->
  occurs (explode cf_open) s = false /\ occurs (explode "r:'") s = false
  /\ occurs (explode "t:'") s = false /\ occurs (explode "<img") s = false.
Proof.
  unfold quiet. intros H. apply negb_true_iff in H.
  apply orb_false_iff in H as [H H4]. apply orb_false_iff in H as [H H3].
  apply orb_false_iff in H as [H1 H2]. auto.
Qed.

Lemma sub_token_free l p q rep s :
  occurs (explode l) s = false -> sub_skip (token_match l p q) rep 0 s = s.
Proof.
  intros H. apply sub_no_match. intros i _. unfold token_match.
  rewrite (proj1 (occurs_false _ _) H i). reflexivity.
Qed.

Lemma sub_pixel_free s :
  occurs (explode "<img") s = false -> sub_chars re_fb_pixel "" s = s.
Proof.
  intros H. apply sub_no_match. intros i _.
  unfold match_at, re_fb_pixel. cbn [rmatch]. rewrite lit_loop_spec.
  fold (starts_with (explode "<img") (drop i s)).
  rewrite (proj1 (occurs_false _ _) H i). reflexivity.
Qed.

(** A literal at the head of the output of a pass stood at the head of
    its input, when the replacement begins with a character that the literal
    does not hold. *)
Lemma sub_prefix_lit m r0 rep l :
  forallb (fun a => negb (char_eqb a r0)) l = true ->
  forall s, starts_with l (sub_skip m (r0 :: rep) 0 s) = true -> starts_with l s = true.
Proof.
  unfold starts_with. induction l as [|a l IH]; intros Hl s H; [reflexivity|].
  cbn in Hl. apply andb_true_iff in Hl as [Ha Hl]. apply negb_true_iff in Ha.
  destruct s as [|c s]; [discriminate|]. rewrite sub_cons in H.
  destruct (m (c :: s)) as [[|n]|]; cbn in H |- *;
    try (apply andb_true_iff in H as [-> H]; apply IH; assumption).
  rewrite Ha in H. discriminate.
Qed.

(** A place of the output of a pass is inside a replacement or is the
    output for a place of the input. *)
Lemma sub_suffix_form m rep n :
  forall s, length s <= n ->
    forall i, exists k j, drop i (sub_skip m rep 0 s) = drop k rep ++ sub_skip m rep 0 (drop j s).
Proof.
  induction n as [|n IH]; intros s Hn i.
  - destruct s; [|cbn in Hn; lia]. exists (length rep), 0.
    rewrite drop_all. destruct i; reflexivity.
  - destruct s as [|c s].
    { exists (length rep), 0. rewrite drop_all. destruct i; reflexivity. }
    cbn in Hn.
    rewrite sub_cons. destruct (m (c :: s)) as [[|x]|] eqn:Em.
    + destruct i as [|i'].
      * exists (length rep), 0. rewrite drop_all. cbn [drop app]. rewrite sub_cons, Em.
        reflexivity.
      * destruct (IH s ltac:(lia) i') as (k & j & E). exists k, (S j). exact E.
    + destruct (Nat.lt_ge_cases i (length rep)) as [Hi|Hi].
      * exists i, (S x). rewrite drop_app_lt by exact Hi. reflexivity.
      * rewrite drop_app_ge by exact Hi.
        destruct (IH (drop x s) ltac:(rewrite length_drop; lia) (i - length rep))
          as (k & j & E).
        exists k, (S (x + j)). rewrite E. cbn [drop]. rewrite drop_drop. reflexivity.
    + destruct i as [|i'].
      * exists (length rep), 0. rewrite drop_all. cbn [drop app]. rewrite sub_cons, Em.
        reflexivity.
      * destruct (IH s ltac:(lia) i') as (k & j & E). exists k, (S j). exact E.
Qed.

(** A pass adds no occurrence of a literal that shares no character with
    the replacement. *)
Lemma sub_occurs_false m r0 rep l s :
  l <> [] ->
  forallb (fun a => negb (existsb (char_eqb a) (r0 :: rep))) l = true ->
  occurs l s = false -> occurs l (sub_skip m (r0 :: rep) 0 s) = false.
Proof.
  intros Hl Hdis Hs. apply occurs_false. intros i.
  destruct (sub_suffix_form m (r0 :: rep) (length s) s (le_n _) i) as (k & j & ->).
  destruct (drop k (r0 :: rep)) as [|x d] eqn:Ed.
  - cbn [app].
    destruct (starts_with l (sub_skip m (r0 :: rep) 0 (drop j s))) eqn:E; [|reflexivity].
    apply sub_prefix_lit in E.
    + rewrite (proj1 (occurs_false _ _) Hs j) in E. discriminate.
    + apply (forallb_imp (fun a => negb (existsb (char_eqb a) (r0 :: rep))));
        [|exact Hdis].
      intros a Ha. cbn in Ha. apply negb_true_iff in Ha.
      apply orb_false_iff in Ha as [Ha _]. rewrite Ha. reflexivity.
  - destruct l as [|a l]; [congruence|]. cbn [app]. unfold starts_with. cbn.
    assert (In x (r0 :: rep)) as Hx.
    { rewrite <- (take_drop k (r0 :: rep)), Ed. apply in_or_app. right. left. reflexivity. }
    cbn [forallb] in Hdis. apply andb_true_iff in Hdis as [Ha _].
    apply negb_true_iff in Ha.
    destruct (char_eqb a x) eqn:E; [|reflexivity].
    exfalso. enough (existsb (char_eqb a) (r0 :: rep) = true) by congruence.
    apply existsb_exists. exists x. auto.
Qed.

(** The white-space pass adds no occurrence of a literal without white
    space. *)
Lemma collapse_occurs_false l s :
  l <> [] -> forallb nonspace l = true ->
  occurs l s = false -> occurs l (collapse_ws s) = false.
Proof.
  intros Hn Hl Hs. apply occurs_false. intros i.
  destruct (collapse_aligned s) as (g & t & -> & Hg & Ha).
  destruct (starts_with l (drop i (collapse_ws (g ++ t)))) eqn:E; [|reflexivity].
  destruct (aligned_suffix t _ Ha i) as [Hsp|(j & Hj)].
  - destruct l as [|a l]; [congruence|].
    destruct (drop i (collapse_ws (g ++ t))) as [|c r]; [discriminate|].
    cbn in Hsp, Hl, E. apply andb_true_iff in E as [E _].
    apply char_eqb_eq in E. subst c.
    apply andb_true_iff in Hl as [Hl _]. unfold nonspace in Hl. rewrite Hsp in Hl.
    discriminate.
  - apply (aligned_prefix_lit l Hl _ _ Hj) in E.
    rewrite <- (drop_app_plus g t j) in E.
    rewrite (proj1 (occurs_false _ _) Hs) in E. discriminate.
Qed.

Lemma quiet_time_sub s :
  quiet s = true -> quiet (sub_chars re_time "[TIME]" s) = true.
Proof.
  intros H. destruct (quiet_spec s H) as (H1 & H2 & H3 & H4).
  unfold quiet, sub_chars.
  change (explode "[TIME]") with ("["%char :: explode "TIME]").
  rewrite !sub_occurs_false by (assumption || discriminate || reflexivity).
  reflexivity.
Qed.

Lemma quiet_collapse s : quiet s = true -> quiet (collapse_ws s) = true.
Proof.
  intros H. destruct (quiet_spec s H) as (H1 & H2 & H3 & H4).
  unfold quiet.
  rewrite !collapse_occurs_false by (assumption || discriminate || reflexivity).
  reflexivity.
Qed.

(** On a quiet text only the relative-time pass and the white-space pass
    do something. *)
Lemma normalize_text_quiet s :
  quiet s = true ->
  normalize_text (implode s)
  = implode (collapse_ws (sub_chars re_time "[TIME]" s)).
Proof.
  intros H. destruct (quiet_spec s H) as (H1 & H2 & H3 & H4).
  rewrite normalize_text_passes, explode_implode. unfold noise_passes.
  rewrite sub_params, sub_r, sub_t.
  rewrite (sub_token_free cf_open _ _ _ s H1), (sub_token_free "r:'" _ _ _ s H2),
    (sub_token_free "t:'" _ _ _ s H3).
  rewrite sub_pixel_free; [reflexivity|].
  apply quiet_time_sub in H. apply quiet_spec in H. apply H.
Qed.

(** The passes of [normalize_text] are idempotent on a quiet text. *)
Lemma normalize_text_idempotent s :
  quiet (explode s) = true ->
  normalize_text (normalize_text s) = normalize_text s.
Proof.
  intros H. pose proof (normalize_text_quiet (explode s) H) as E.
  rewrite implode_explode in E. rewrite E.
  rewrite normalize_text_quiet by (apply quiet_collapse, quiet_time_sub, H).
  rewrite time_clean_sub by (apply collapse_clean, time_sub_clean).
  rewrite collapse_idempotent. reflexivity.
Qed.

(** ** Plain text *)

Lemma plain_not c x : plain_char c = true -> In x (explode "<>&'{") -> char_eqb c x = false.
Proof.
  intros Hc Hx. cbn in Hx.
  destruct Hx as [<-|[<-|[<-|[<-|[<-|[]]]]]]; revert Hc; all_chars c.
Qed.

Lemma lex_text s acc :
  forallb plain_char s = true -> lex (MText acc) s = flush_text false (rev s ++ acc).
Proof.
  revert acc. induction s as [|c s IH]; intros acc H; [reflexivity|].
  cbn in H. apply andb_true_iff in H as [Hc H]. cbn [lex].
  rewrite (plain_not c "<" Hc) by (cbn; tauto).
  rewrite IH by exact H. cbn [rev]. rewrite <- app_assoc. reflexivity.
Qed.

Lemma decode_refs_plain s :
  forallb plain_char s = true -> decode_refs 0 s = s.
Proof.
  induction s as [|c s IH]; intros H; [reflexivity|].
  cbn in H. apply andb_true_iff in H as [Hc H].
  assert (char_eqb "&" c = false) as Hn.
  { unfold char_eqb. rewrite Ascii.eqb_sym. apply (plain_not c "&" Hc). cbn. tauto. }
  cbn [decode_refs]. unfold starts_with.
  cbn [explode list_ascii_of_string prefix_by]. rewrite Hn. cbn [andb].
  rewrite IH by exact H. reflexivity.
Qed.

Lemma escape_min_plain s :
  forallb plain_char s = true -> escape_min s = s.
Proof.
  induction s as [|c s IH]; intros H; [reflexivity|].
  cbn in H. apply andb_true_iff in H as [Hc H]. cbn [escape_min].
  rewrite !(plain_not c _ Hc) by (cbn; tauto). rewrite IH by exact H. reflexivity.
Qed.

Lemma ascii_space_plain c : ascii_space c = true -> plain_char c = true /\ is_space c = true.
Proof. split; revert H; all_chars c. Qed.

Lemma parsed_string_plain s :
  forallb plain_char s = true ->
  forallb plain_char (explode (parsed_string false s)) = true.
Proof.
  intros H. unfold parsed_string.
  destruct (forallb ascii_space s && negb false).
  - destruct (existsb (char_eqb "010") s); reflexivity.
  - rewrite explode_implode. exact H.
Qed.

(** The text that the normaliser works on, for a plain document. *)
Lemma serialised_plain x :
  plain x ->
  soup_str (strip_tracking (html_parser x))
  = match explode x with
    | [] => EmptyString
    | _ => parsed_string false (explode x)
    end.
Proof.
  unfold plain. intros H. unfold html_parser. rewrite lex_text by exact H.
  rewrite app_nil_r. destruct (explode x) as [|c s] eqn:E; [reflexivity|].
  unfold flush_text. destruct (rev (c :: s)) as [|c' s'] eqn:Er.
  { apply (f_equal length) in Er. rewrite length_rev in Er. discriminate. }
  rewrite <- Er, rev_involutive, decode_refs_plain by exact H.
  cbn [build preserve_whitespace existsb close_all rev app].
  unfold strip_tracking, soup_str. cbn [map map_tags flat_map node_chars].
  rewrite app_nil_r, escape_min_plain by (apply parsed_string_plain, H).
  apply implode_explode.
Qed.

Lemma starts_with_in l s x :
  In x l -> starts_with l s = true -> In x s.
Proof.
  unfold starts_with. revert s. induction l as [|a l IH]; intros s Hx H; [destruct Hx|].
  destruct s as [|b s]; [discriminate|]. cbn in H.
  apply andb_true_iff in H as [Hab H]. apply char_eqb_eq in Hab. subst b.
  destruct Hx as [->|Hx]; [left; reflexivity|right; apply IH; assumption].
Qed.

Lemma starts_with_absent l s x :
  In x l -> forallb (fun c => negb (char_eqb x c)) s = true -> starts_with l s = false.
Proof.
  intros Hx Hs. destruct (starts_with l s) eqn:E; [|reflexivity].
  apply (starts_with_in l s x Hx) in E. rewrite forallb_forall in Hs.
  specialize (Hs x E). rewrite char_eqb_refl in Hs. discriminate.
Qed.

Lemma plain_absent x s :
  In x (explode "<>&'{") -> forallb plain_char s = true ->
  forallb (fun c => negb (char_eqb x c)) s = true.
Proof.
  intros Hx. apply forallb_imp. intros c Hc.
  pose proof (plain_not c x Hc Hx) as E.
  unfold char_eqb in *. rewrite Ascii.eqb_sym, E. reflexivity.
Qed.

Lemma plain_quiet s : forallb plain_char s = true -> quiet s = true.
Proof.
  intros H. unfold quiet.
  assert (forall l x, In x l -> In x (explode "<>&'{") -> occurs l s = false) as Hno.
  { intros l x Hx Hp. apply occurs_false. intros i.
    apply (starts_with_absent l _ x Hx). apply forallb_drop, plain_absent; assumption. }
  rewrite (Hno (explode cf_open) "{"%char), (Hno (explode "r:'") "'"%char),
    (Hno (explode "t:'") "'"%char), (Hno (explode "<img") "<"%char) by (cbn; tauto).
  reflexivity.
Qed.

Lemma sub_skip_forallb (P : ascii -> bool) m rep k s :
  forallb P rep = true -> forallb P s = true ->
  forallb P (sub_skip m rep k s) = true.
Proof.
  intros Hr. revert k. induction s as [|c s IH]; intros k H; [reflexivity|].
  cbn in H. apply andb_true_iff in H as [Hc H]. cbn [sub_skip].
  destruct k as [|k]; [|apply IH, H].
  destruct (m (c :: s)) as [[|n]|].
  - cbn. rewrite Hc. apply IH, H.
  - rewrite forallb_app, Hr. apply IH, H.
  - cbn. rewrite Hc. apply IH, H.
Qed.

Lemma time_sub_plain s :
  forallb plain_char s = true ->
  forallb plain_char (sub_chars re_time "[TIME]" s) = true.
Proof. intros H. apply sub_skip_forallb; [reflexivity|exact H]. Qed.

Lemma split_all_space s : forallb is_space s = true -> split_ws [] s = [].
Proof.
  induction s as [|c s IH]; [reflexivity|]. cbn. intros H.
  apply andb_true_iff in H as [-> H]. apply IH, H.
Qed.

Lemma all_space_clean s : forallb is_space s = true -> time_clean s.
Proof.
  intros H i. pose proof (forallb_drop is_space s i H) as Hd.
  destruct (drop i s) as [|c r]; [reflexivity|]. cbn in Hd |- *.
  apply andb_true_iff in Hd as [Hc _]. rewrite (space_not_digit c Hc). reflexivity.
Qed.

Lemma all_space_normal s :
  forallb ascii_space s = true -> collapse_ws (sub_chars re_time "[TIME]" s) = [].
Proof.
  intros H.
  assert (forallb is_space s = true) as Hs
    by (apply (forallb_imp ascii_space); [intros c; apply ascii_space_plain|exact H]).
  rewrite time_clean_sub by (apply all_space_clean, Hs).
  unfold collapse_ws. rewrite split_all_space by exact Hs. reflexivity.
Qed.

(** The normaliser on a plain document: the relative-time pass and the
    white-space pass on the document itself. *)
Lemma normalize_plain x :
  plain x ->
  _normalize_html_for_comparison html_parser x
  = implode (collapse_ws (sub_chars re_time "[TIME]" (explode x))).
Proof.
  intros H. unfold _normalize_html_for_comparison. rewrite serialised_plain by exact H.
  unfold plain in H. destruct (explode x) as [|c s] eqn:E; [reflexivity|].
  unfold parsed_string. destruct (forallb ascii_space (c :: s)) eqn:Ea; cbn [andb negb].
  - rewrite all_space_normal by exact Ea.
    destruct (existsb (char_eqb "010") (c :: s)); reflexivity.
  - apply normalize_text_quiet, plain_quiet, H.
Qed.

(** ** Idempotence *)

Lemma normalize_plain_idempotent (x : string) :
  plain x ->
  _normalize_html_for_comparison html_parser
    (_normalize_html_for_comparison html_parser x)
  = _normalize_html_for_comparison html_parser x.
Proof.
  intros H. rewrite (normalize_plain x H).
  set (t := sub_chars re_time "[TIME]" (explode x)).
  assert (forallb plain_char t = true) as Ht by (apply time_sub_plain, H).
  assert (forallb plain_char (collapse_ws t) = true) as Hy
    by (apply collapse_forallb; [reflexivity|exact Ht]).
  rewrite normalize_plain by (unfold plain; rewrite explode_implode; exact Hy).
  rewrite explode_implode.
  rewrite time_clean_sub by (apply collapse_clean, time_sub_clean).
  rewrite collapse_idempotent. reflexivity.
Qed.




(** ** File names *)

Lemma ends_with_app p a : ends_with p (a ++ p) = true.
Proof.
  unfold ends_with. rewrite rev_app_distr. apply prefix_by_self_app.
Qed.

Lemma replace_char_clean a b s :
  char_eqb b a = false -> existsb (char_eqb a) (replace_char a b s) = false.
Proof.
  intros Hab. induction s as [|c s IH]; [reflexivity|]. cbn [replace_char map existsb].
  fold (replace_char a b s). rewrite IH, orb_false_r.
  destruct (char_eqb c a) eqn:E.
  - apply not_true_is_false. intros H. apply char_eqb_eq in H. subst b.
    rewrite char_eqb_refl in Hab. discriminate.
  - apply not_true_is_false. intros H. apply char_eqb_eq in H. subst c.
    rewrite char_eqb_refl in E. discriminate.
Qed.

Lemma page_filename_cases p :
  let s := strip_char "/" (explode p) in
  (ends_with (explode ".html") s = true /\ page_filename p = implode s)
  \/ (ends_with (explode ".html") s = false
      /\ page_filename p
         = implode (replace_char "/" "_" (match s with [] => explode "index" | _ => s end)
                    ++ explode ".html")).
Proof.
  intros s. unfold page_filename. fold s.
  destruct s as [|c s'] eqn:Es.
  - right. split; reflexivity.
  - destruct (ends_with (explode ".html") (c :: s')) eqn:E; [left|right]; auto.
Qed.

(** X3.  The file name derived from a URL path always ends in [.html].  It
    has a slash exactly when the stripped path itself ends in [.html] and
    has a slash: the one case in which the slashes are not flattened. *)
Theorem page_filename_shape p :
  endswith (page_filename p) ".html" = true
  /\ (has_slash (page_filename p) = true
      <-> endswith (stripped_path p) ".html" = true
          /\ has_slash (stripped_path p) = true).
Proof.
  unfold endswith, has_slash, stripped_path. rewrite !explode_implode.
  destruct (page_filename_cases p) as [[E ->]|[E ->]]; rewrite explode_implode.
  - split; [exact E|]. rewrite E. tauto.
  - split; [apply ends_with_app|]. rewrite E.
    rewrite existsb_app, replace_char_clean by reflexivity.
    split; [discriminate|intros [? _]; discriminate].
Qed.

(** [str.replace] *)
Lemma replace_all_skip_nil pat rep k : replace_all_skip pat rep k [] = [].
Proof. destruct k; reflexivity. Qed.

Lemma replace_all_skip_drop pat rep k s :
  replace_all_skip pat rep k s = replace_all_skip pat rep 0 (drop k s).
Proof.
  revert s. induction k as [|k IH]; intros s; [reflexivity|].
  destruct s as [|c s]; [reflexivity|]. cbn [replace_all_skip drop]. apply IH.
Qed.

Lemma replace_all_step pat rep s :
  pat <> [] ->
  replace_all_skip pat rep 0 s
  = if starts_with pat s then rep ++ replace_all_skip pat rep 0 (drop (length pat) s)
    else match s with
         | [] => []
         | c :: s' => c :: replace_all_skip pat rep 0 s'
         end.
Proof.
  intros Hp. destruct s as [|c s].
  - destruct pat; [congruence|reflexivity].
  - cbn [replace_all_skip]. destruct (starts_with pat (c :: s)); [|reflexivity].
    rewrite replace_all_skip_drop. destruct pat as [|a pat]; [congruence|].
    reflexivity.
Qed.

Lemma starts_with_decompose l s :
  starts_with l s = true -> s = l ++ drop (length l) s.
Proof.
  unfold starts_with. revert s. induction l as [|a l IH]; intros s H; [reflexivity|].
  destruct s as [|b s]; [discriminate|]. cbn in H.
  apply andb_true_iff in H as [Hab H]. apply char_eqb_eq in Hab. subst b.
  cbn. f_equal. apply IH, H.
Qed.

(** A replacement whose pattern and text have no slash keeps the slashes
    of the text. *)
Lemma replace_all_slash pat rep s :
  pat <> [] -> existsb (char_eqb "/") pat = false ->
  existsb (char_eqb "/") rep = false ->
  existsb (char_eqb "/") (replace_all_skip pat rep 0 s) = existsb (char_eqb "/") s.
Proof.
  intros Hp Hpat Hrep.
  induction s as [s IH] using (induction_ltof1 _ (@length ascii)). unfold ltof in IH.
  rewrite (replace_all_step pat rep s Hp).
  destruct (starts_with pat s) eqn:E.
  - rewrite existsb_app, Hrep. cbn [orb].
    assert (s = pat ++ drop (length pat) s) as Hs.
    { apply starts_with_decompose, E. }
    rewrite IH.
    + rewrite Hs at 2. rewrite existsb_app, Hpat. reflexivity.
    + rewrite Hs at 2. rewrite length_app. destruct pat; [congruence|]. cbn. lia.
  - destruct s as [|c s]; [reflexivity|]. cbn [existsb]. rewrite IH; [reflexivity|].
    cbn. lia.
Qed.

(** The suffix [.html] is replaced: no other occurrence of [.html] runs
    into it. *)
Lemma html_no_overlap a :
  0 < length a < 5 -> starts_with (explode ".html") (a ++ explode ".html") = false.
Proof.
  intros Hl. apply not_true_is_false. intros H.
  destruct a as [|a1 [|a2 [|a3 [|a4 [|a5 a]]]]]; cbn in Hl; try lia;
    unfold starts_with in H; cbn in H;
    repeat (apply andb_true_iff in H as [? H]);
    repeat match goal with
           | X : char_eqb _ _ = true |- _ => apply char_eqb_eq in X; try discriminate X
           end.
Qed.

Lemma replace_html_suffix a :
  exists x,
    replace_all_skip (explode ".html") (explode "_original.html") 0 (a ++ explode ".html")
    = x ++ explode "_original.html"
    /\ length a <= length x.
Proof.
  induction a as [a IH] using (induction_ltof1 _ (@length ascii)). unfold ltof in IH.
  rewrite replace_all_step by discriminate.
  destruct (starts_with (explode ".html") (a ++ explode ".html")) eqn:E.
  - destruct (Nat.eq_dec (length a) 0) as [H0|H0].
    + apply length_zero_iff_nil in H0. subst a. exists []. split; [reflexivity|cbn; lia].
    + destruct (Nat.lt_ge_cases (length a) 5) as [Hlt|Hge].
      * rewrite html_no_overlap in E by lia. discriminate.
      * change (length (explode ".html")) with 5.
        rewrite drop_app_le by exact Hge.
        destruct (IH (drop 5 a)) as (x & -> & Hx).
        { rewrite length_drop. lia. }
        exists (explode "_original.html" ++ x). rewrite <- app_assoc.
        split; [reflexivity|]. rewrite length_app. rewrite length_drop in Hx.
        change (length (explode "_original.html")) with 14. lia.
  - destruct a as [|c a]; [discriminate|].
    cbn [app]. destruct (IH a) as (x & -> & Hx); [cbn; lia|].
    exists (c :: x). split; [reflexivity|cbn; lia].
Qed.

Lemma original_filename_slash name :
  has_slash (original_filename name) = has_slash name.
Proof.
  unfold original_filename, str_replace, has_slash. rewrite explode_implode.
  apply replace_all_slash; [discriminate|reflexivity|reflexivity].
Qed.

(** X4.  For a file name that ends in [.html], as every derived name does,
    the name of the original copy ends in [_original.html], is not the name
    itself, and has a slash exactly when the name has one. *)
Theorem original_filename_shape name :
  endswith name ".html" = true ->
  endswith (original_filename name) "_original.html" = true
  /\ original_filename name <> name
  /\ has_slash (original_filename name) = has_slash name.
Proof.
  intros H.
  assert (exists a, explode name = a ++ explode ".html") as [a Ha].
  { unfold endswith, ends_with in H. apply starts_with_decompose in H.
    exists (rev (drop (length (rev (explode ".html"))) (rev (explode name)))).
    rewrite <- (rev_involutive (explode name)) at 1. rewrite H at 1.
    rewrite rev_app_distr. rewrite rev_involutive. reflexivity. }
  unfold original_filename, str_replace, endswith, has_slash.
  rewrite !explode_implode.
  destruct (replace_html_suffix a) as (x & Hx & Hlen).
  split; [|split].
  - rewrite Ha, Hx. apply ends_with_app.
  - intros Heq. apply (f_equal explode) in Heq. rewrite explode_implode in Heq.
    rewrite Ha in Heq at 1. rewrite Hx in Heq. rewrite Ha in Heq.
    apply (f_equal (@length ascii)) in Heq. rewrite !length_app in Heq.
    cbn in Heq. lia.
  - apply replace_all_slash; [discriminate|reflexivity|reflexivity].
Qed.

(** ** The scheduler *)

Lemma next_hour_bounds (h i : Z) :
  (0 <= h -> 1 <= i ->
   let n := (h / i + 1) * i in
   h < n <= h + i /\ forall k, h < k * i -> n <= k * i)%Z.
Proof.
  intros Hh Hi n.
  pose proof (Z.div_mod h i ltac:(lia)) as Hd.
  pose proof (Z.mod_pos_bound h i ltac:(lia)) as Hm.
  assert (n = h - h mod i + i)%Z as Hn by (subst n; lia).
  split; [lia|].
  intros k Hk.
  assert (h / i < k)%Z as Hlt.
  { apply Z.div_lt_upper_bound; lia. }
  subst n. nia.
Qed.

(** X1.  With an interval of at least one hour, [_wait_until_next_interval]
    returns normally after it has slept for a positive time of at most one
    interval.  It wakes at the start of an hour of the same day, or at the
    midnight that ends the day: the hour is after the current hour, it is
    the first multiple of the interval after the current hour when that
    multiple is before midnight, and no multiple of the interval after the
    current hour is before it. *)
Theorem wait_until_next_interval_bounds now interval_hours :
  valid_datetime now -> (1 <= interval_hours)%Z ->
  exists wait_us next_hour,
    _wait_until_next_interval now interval_hours = Ok wait_us
    /\ (0 < wait_us <= interval_hours * hour_us)%Z
    /\ (total_us now + wait_us = hour_start now next_hour)%Z
    /\ (hour now < next_hour <= 24)%Z
    /\ (next_hour = 24 \/ exists k, next_hour = k * interval_hours)%Z
    /\ (forall k, hour now < k * interval_hours -> next_hour <= k * interval_hours)%Z.
Proof.
  intros (Hh & Hm & Hs & Hu) Hi.
  destruct (next_hour_bounds (hour now) interval_hours ltac:(lia) Hi) as [Hn Hleast].
  unfold _wait_until_next_interval, next_run.
  destruct (Z.eqb_spec interval_hours 0) as [->|_]; [lia|].
  set (n := ((hour now / interval_hours + 1) * interval_hours)%Z) in *.
  destruct (Z.leb_spec 24 n) as [Hge|Hlt].
  - exists (hour_start now 24 - total_us now)%Z, 24%Z.
    unfold replace_hour. cbn [andb Z.leb Z.ltb Z.compare].
    cbn -[Z.mul Z.add Z.sub hour_us].
    unfold total_us, hour_start, add_day, hour_us in *. cbn -[Z.mul Z.add Z.sub].
    destruct (Z.ltb_spec (((day now + 1) * 24 * (3600 * 1000000)
                  + ((0 * 60 + 0) * 60 + 0) * 1000000 + 0
                  - (day now * 24 * (3600 * 1000000)
                     + ((hour now * 60 + minute now) * 60 + second now) * 1000000
                     + microsecond now)))%Z 0) as [Hneg|Hpos]; [lia|].
    split; [f_equal; lia|].
    repeat split; try lia. intros k Hk. specialize (Hleast k Hk). lia.
  - exists (hour_start now n - total_us now)%Z, n.
    unfold replace_hour.
    destruct (Z.leb_spec 0 n) as [_|?]; [|lia].
    destruct (Z.ltb_spec n 24) as [_|?]; [|lia].
    cbn -[Z.mul Z.add Z.sub hour_us].
    unfold total_us, hour_start, hour_us in *. cbn -[Z.mul Z.add Z.sub].
    destruct (Z.ltb_spec ((day now * 24 * (3600 * 1000000)
                  + ((n * 60 + 0) * 60 + 0) * 1000000 + 0
                  - (day now * 24 * (3600 * 1000000)
                     + ((hour now * 60 + minute now) * 60 + second now) * 1000000
                     + microsecond now)))%Z 0) as [Hneg|Hpos]; [lia|].
    split; [f_equal; lia|].
    repeat split; try lia.
    + right. exists (hour now / interval_hours + 1)%Z. reflexivity.
    + exact Hleast.
Qed.

(** X2.  An interval of zero hours raises [ZeroDivisionError], and a
    negative interval always ends in [ValueError], raised by [replace] or
    by [time.sleep]: the method returns for no interval below one hour. *)
Theorem wait_until_next_interval_raises now interval_hours :
  valid_datetime now -> (interval_hours <= 0)%Z ->
  _wait_until_next_interval now interval_hours
  = Raise (if (interval_hours =? 0)%Z then "ZeroDivisionError" else "ValueError").
Proof.
  intros (Hh & Hm & Hs & Hu) Hi.
  unfold _wait_until_next_interval, next_run.
  destruct (Z.eqb_spec interval_hours 0) as [->|Hne]; [reflexivity|].
  set (n := ((hour now / interval_hours + 1) * interval_hours)%Z).
  assert (n < hour now)%Z as Hn.
  { pose proof (Z.div_mod (hour now) interval_hours Hne) as Hd.
    pose proof (Z.mod_neg_bound (hour now) interval_hours ltac:(lia)) as Hb.
    subst n. lia. }
  destruct (Z.leb_spec 24 n) as [?|_]; [lia|].
  unfold replace_hour.
  destruct (Z.leb_spec 0 n) as [Hpos|?]; [|reflexivity].
  destruct (Z.ltb_spec n 24) as [_|?]; [|lia].
  cbn -[Z.mul Z.add Z.sub hour_us].
  unfold total_us, hour_us. cbn -[Z.mul Z.add Z.sub].
  destruct (Z.ltb_spec ((day now * 24 * (3600 * 1000000)
                  + ((n * 60 + 0) * 60 + 0) * 1000000 + 0
                  - (day now * 24 * (3600 * 1000000)
                     + ((hour now * 60 + minute now) * 60 + second now) * 1000000
                     + microsecond now)))%Z 0) as [Hneg|Hge]; [reflexivity|lia].
Qed.

Lemma wait_until_next_interval_bounds_witness :
  exists wait_us next_hour,
    _wait_until_next_interval example_now 4 = Ok wait_us
    /\ (0 < wait_us <= 4 * hour_us)%Z
    /\ (total_us example_now + wait_us = hour_start example_now next_hour)%Z
    /\ (hour example_now < next_hour <= 24)%Z
    /\ (next_hour = 24 \/ exists k, next_hour = k * 4)%Z
    /\ (forall k, hour example_now < k * 4 -> next_hour <= k * 4)%Z.
Proof.
  apply (wait_until_next_interval_bounds example_now 4).
  - unfold valid_datetime, example_now. cbn. lia.
  - lia.
Defined.

Lemma wait_until_next_interval_raises_witness :
  _wait_until_next_interval example_now (-4) = Raise "ValueError".
Proof.
  apply (wait_until_next_interval_raises example_now (-4)).
  - unfold valid_datetime, example_now. cbn. lia.
  - lia.
Defined.

(** ** Writing a snapshot directory *)

Lemma span_until_absent c s :
  existsb (char_eqb c) s = false -> span_until c s = (s, None).
Proof.
  induction s as [|a s IH]; [reflexivity|]. cbn [existsb span_until].
  intros H. apply orb_false_iff in H as [Ha Hs].
  replace (char_eqb a c) with false.
  - rewrite (IH Hs). reflexivity.
  - symmetry. apply not_true_is_false. intros E. apply char_eqb_eq in E. subst a.
    rewrite char_eqb_refl in Ha. discriminate.
Qed.

Lemma existsb_rev {A} (p : A -> bool) (l : list A) :
  existsb p (rev l) = existsb p l.
Proof.
  induction l as [|a l IH]; [reflexivity|]. cbn [rev existsb].
  rewrite existsb_app, IH. cbn. rewrite orb_false_r. apply orb_comm.
Qed.

Lemma path_name_flat name : has_slash name = false -> path_name name = name.
Proof.
  unfold has_slash, path_name. intros H.
  rewrite span_until_absent.
  - cbn [fst]. rewrite rev_involutive. apply implode_explode.
  - rewrite existsb_rev. exact H.
Qed.

Lemma write_snapshot_file_spec dir name content w d :
  snapshots w !! dir = Some d ->
  write_snapshot_file dir name content w
  = if has_slash name then (Raise "FileNotFoundError", w)
    else (Ok tt, set_snapshots (<[dir := write_file name content d]> (snapshots w)) w).
Proof.
  intros H. unfold write_snapshot_file, bind, get_world. cbn. rewrite H.
  unfold has_slash. destruct (existsb (char_eqb "/") (explode name)); reflexivity.
Qed.

(** ** The detector and the summary, step by step *)

Section DetectorFrame.
Variable BeautifulSoup : string -> soup.

(** The detector returns normally; it writes nothing but its two debug
    files, and those only when it has found a page whose text differs from
    the text of the most recent snapshot once both are normalised. *)
Lemma compare_pages_frame debug prev prev_pages temp_pages w :
  exists changed w',
    compare_pages BeautifulSoup debug prev prev_pages temp_pages w = (Ok changed, w')
    /\ store w' = store w /\ snapshots w' = snapshots w /\ requests w' = requests w
    /\ (w' = w
        \/ changed = true /\ difference_found BeautifulSoup debug prev prev_pages temp_pages w w').
Proof.
  induction temp_pages as [|tp rest IH].
  - exists false, w. cbn. unfold ret. auto 10.
  - assert (forall c w', (w' = w \/ c = true
                          /\ difference_found BeautifulSoup debug prev prev_pages rest w w') ->
                         w' = w \/ c = true
                          /\ difference_found BeautifulSoup debug prev prev_pages (tp :: rest) w w')
      as Hrest.
    { intros c w' [H|[H (u & h & pp & ph & Hin & Hd)]]; [auto|].
      right. split; [exact H|]. exists u, h, pp, ph. split; [right; exact Hin|exact Hd]. }
    destruct tp as [url html|url err]; cbn [compare_pages].
    2:{ destruct IH as (c & w' & E & H1 & H2 & H3 & H4). exists c, w'. auto 10. }
    destruct (find_prev_page url prev_pages) as [pp|] eqn:Ef;
      [|exists true, w; unfold ret; auto 10].
    destruct (files prev !! prev_html_file pp) as [ph|] eqn:Ep;
      [|exists true, w; unfold ret; auto 10].
    destruct (String.eqb (_normalize_html_for_comparison BeautifulSoup html)
                (_normalize_html_for_comparison BeautifulSoup ph)) eqn:E;
      cbn [negb].
    + destruct IH as (c & w' & E' & H1 & H2 & H3 & H4). exists c, w'. auto 10.
    + eexists true, _. unfold bind, modify, ret. split; [reflexivity|].
      cbn. split; [reflexivity|]. split; [reflexivity|]. split; [reflexivity|].
      right. split; [reflexivity|]. exists url, html, pp, ph.
      split; [left; reflexivity|]. split; [exact Ef|]. split; [exact Ep|].
      split; [apply String.eqb_neq, E|reflexivity].
Qed.

Lemma has_changed_frame debug temp_pages w :
  exists changed w',
    _has_content_changed_from_temp BeautifulSoup debug temp_pages w = (Ok changed, w')
    /\ store w' = store w /\ snapshots w' = snapshots w /\ requests w' = requests w
    /\ (w' = w
        \/ changed = true
           /\ exists name prev m,
                most_recent w name prev /\ manifest prev = Some m
                /\ difference_found BeautifulSoup debug prev (m_pages m) temp_pages w w').
Proof.
  unfold _has_content_changed_from_temp. unfold bind at 1.
  destruct (_get_most_recent_snapshot w) as [r w0] eqn:Er.
  assert (w0 = w /\ exists o, r = Ok o) as [-> [o ->]].
  { unfold _get_most_recent_snapshot, bind, get_world, ret in Er. cbn in Er.
    injection Er as <- <-. eauto. }
  destruct o as [[name prev]|]; [|exists true, w; unfold ret; auto 10].
  apply get_most_recent_some in Er.
  destruct (manifest prev) as [m|] eqn:Em; [|exists true, w; unfold ret; auto 10].
  destruct (length temp_pages =? length (m_pages m)); cbn [negb];
    [|exists true, w; unfold ret; auto 10].
  destruct (compare_pages_frame debug prev (m_pages m) temp_pages w)
    as (c & w' & -> & H1 & H2 & H3 & [H4|[H4 H5]]).
  - exists c, w'. auto 10.
  - exists c, w'. split; [reflexivity|]. split; [exact H1|]. split; [exact H2|].
    split; [exact H3|]. right. split; [exact H4|]. exists name, prev, m. auto.
Qed.

Variables base_url snapshots_dir : string.

Lemma generate_change_summary_spec summary_date dir temp_pages w d :
  snapshots w !! dir = Some d ->
  let lines := summary_lines base_url snapshots_dir summary_date dir BeautifulSoup
                 (max_entry (map_to_list (snapshots w))) temp_pages in
  _generate_change_summary BeautifulSoup base_url snapshots_dir summary_date dir
    temp_pages w
  = (Ok lines,
     set_snapshots (<[dir := {| files := files d; manifest := manifest d;
                                changes := Some lines |}]> (snapshots w)) w).
Proof.
  intros H lines.
  unfold _generate_change_summary, _get_most_recent_snapshot, write_changes, bind,
    get_world, ret. cbn. rewrite H. reflexivity.
Qed.

End DetectorFrame.

(** ** Invariants of the asset store *)

Section StoreInvariant.
Variable BeautifulSoup : string -> soup.
Variable urljoin : string -> string -> string.
Variable url_path : string -> string.
Variable sha256_hexdigest : bytes -> string.
Variable http : nat -> string -> HttpResult.

(** An invariant [Inv] of the store and a property [Q] of the paths that
    [_save_asset] returns, which lasts. *)
Variable Inv : World -> Prop.
Variable Q : World -> string -> Prop.
Hypothesis Inv_store : forall w w', store w = store w' -> Inv w -> Inv w'.
Hypothesis Q_store : forall w w' p, store w = store w' -> Q w p -> Q w' p.
Hypothesis save_inv : forall url content w,
  Inv w ->
  exists path w',
    _save_asset url_path sha256_hexdigest url content w = (Ok path, w')
    /\ Inv w' /\ Q w' path /\ forall q, Q w q -> Q w' q.

Local Abbreviation save := (_save_asset url_path sha256_hexdigest).

(** What a step of the rewriter keeps: the invariant, the paths found so
    far, the snapshot directories and the debug files. *)
Definition preserved (w w' : World) : Prop :=
  Inv w' /\ (forall q, Q w q -> Q w' q)
  /\ snapshots w' = snapshots w /\ debug_files w' = debug_files w.

Lemma preserved_refl w : Inv w -> preserved w w.
Proof. intros H. repeat split; auto. Qed.

Lemma preserved_trans w1 w2 w3 : preserved w1 w2 -> preserved w2 w3 -> preserved w1 w3.
Proof.
  intros (H1 & H2 & H3 & H4) (G1 & G2 & G3 & G4).
  repeat split; [exact G1|auto|congruence|congruence].
Qed.

Lemma preserved_log url w : Inv w -> preserved w (log_request url w).
Proof.
  intros H. repeat split.
  - apply (Inv_store w); [reflexivity|exact H].
  - intros q. apply Q_store. reflexivity.
Qed.

Lemma save_frame url content w :
  snapshots (snd (save url content w)) = snapshots w
  /\ debug_files (snd (save url content w)) = debug_files w
  /\ requests (snd (save url content w)) = requests w.
Proof.
  destruct (asset_cache w !! _get_file_hash sha256_hexdigest content) as [p|] eqn:E.
  - rewrite (save_asset_cached _ _ _ _ _ _ E). auto.
  - unfold _save_asset, bind, get_world. cbn. rewrite E. cbn. auto.
Qed.

Lemma preserved_save url content w :
  Inv w ->
  exists path w',
    save url content w = (Ok path, w') /\ preserved w w' /\ Q w' path.
Proof.
  intros H. destruct (save_inv url content w H) as (path & w' & E & HI & HQ & Hm).
  exists path, w'. split; [exact E|]. split; [|exact HQ].
  pose proof (save_frame url content w) as (F1 & F2 & _). rewrite E in F1, F2.
  repeat split; auto.
Qed.

Section Page.
Variable page_url : string.

Local Abbreviation fetch_to := (fetch_into urljoin url_path sha256_hexdigest http page_url).

Lemma fetch_into_kept key ref attrs w :
  Inv w ->
  exists attrs' own w',
    fetch_to key ref attrs w = (Ok (attrs', own), w')
    /\ preserved w w' /\ Forall (Q w') own.
Proof.
  intros H. unfold fetch_into, _download_asset, requests_get, bind. cbn.
  pose proof (preserved_log (urljoin page_url ref) w H) as Hlog.
  destruct (http (length (requests w)) (urljoin page_url ref)) as [text content|e]; cbn.
  - destruct content as [|b content]; cbn.
    + eexists _, _, _. split; [reflexivity|]. split; [exact Hlog|constructor].
    + destruct (preserved_save (urljoin page_url ref) (b :: content)
                  (log_request (urljoin page_url ref) w))
        as (path & w' & -> & Hk & HQ); [apply Hlog|].
      eexists _, _, _. split; [reflexivity|].
      split; [eapply preserved_trans; eassumption|]. constructor; [exact HQ|constructor].
  - eexists _, _, _. split; [reflexivity|]. split; [exact Hlog|constructor].
Qed.

Section Loop.
Variable target : string -> list (string * string) -> option (string * string).
Variable f : string -> list (string * string) -> M (list (string * string) * list string).
Hypothesis f_body : loop_body urljoin url_path sha256_hexdigest http page_url target f.

Lemma loop_body_kept name attrs w :
  Inv w ->
  exists attrs' own w',
    f name attrs w = (Ok (attrs', own), w') /\ preserved w w' /\ Forall (Q w') own.
Proof.
  intros H. rewrite f_body. destruct (target name attrs) as [[key ref]|].
  - apply fetch_into_kept, H.
  - exists attrs, [], w. split; [reflexivity|]. split; [apply preserved_refl, H|constructor].
Qed.

Definition node_kept (n : node) : Prop :=
  forall w, Inv w ->
    exists n' used w',
      mapM_tags f n w = (Ok (n', used), w') /\ preserved w w' /\ Forall (Q w') used.

Lemma Forall_kept w w' (l : list string) :
  preserved w w' -> Forall (Q w) l -> Forall (Q w') l.
Proof.
  intros (_ & Hm & _) H. eapply Forall_impl; [exact H|]. intros q. apply Hm.
Qed.

Lemma nodes_kept (ns : list node) :
  Forall node_kept ns ->
  forall w, Inv w ->
    exists rs w',
      mapM (mapM_tags f) ns w = (Ok rs, w')
      /\ preserved w w' /\ Forall (Q w') (concat (map snd rs)).
Proof.
  induction 1 as [|n ns Hn _ IH]; intros w Hw.
  - exists [], w. split; [reflexivity|]. split; [apply preserved_refl, Hw|constructor].
  - rewrite mapM_cons. destruct (Hn w Hw) as (n' & used & w1 & -> & Hk1 & HQ1).
    destruct (IH w1 (proj1 Hk1)) as (rs & w2 & -> & Hk2 & HQ2).
    eexists _, w2. split; [reflexivity|].
    split; [eapply preserved_trans; eassumption|]. cbn.
    apply Forall_app. split; [eapply Forall_kept; eassumption|exact HQ2].
Qed.

Lemma mapM_tags_kept (n : node) : node_kept n.
Proof.
  induction n as [s|name attrs children IH] using node_forall_ind; intros w Hw.
  - exists (NavigableString s), [], w.
    split; [reflexivity|]. split; [apply preserved_refl, Hw|constructor].
  - cbn. unfold bind at 1.
    destruct (loop_body_kept name attrs w Hw) as (attrs' & own & w1 & -> & Hk1 & HQ1).
    destruct (nodes_kept children IH w1 (proj1 Hk1)) as (rs & w2 & E & Hk2 & HQ2).
    unfold bind at 1. cbn in E. cbn. rewrite E.
    eexists _, _, w2. split; [reflexivity|].
    split; [eapply preserved_trans; eassumption|]. cbn.
    apply Forall_app. split; [eapply Forall_kept; eassumption|exact HQ2].
Qed.

Lemma mapM_soup_kept (doc : soup) w :
  Inv w ->
  exists doc' used w',
    mapM_soup f doc w = (Ok (doc', used), w') /\ preserved w w' /\ Forall (Q w') used.
Proof.
  intros Hw. unfold mapM_soup, bind.
  assert (Forall node_kept doc) as HF
    by (apply Forall_forall; intros n _; apply mapM_tags_kept).
  destruct (nodes_kept doc HF w Hw) as (rs & w' & -> & Hk & HQ).
  eexists _, _, w'. split; [reflexivity|]. split; assumption.
Qed.

End Loop.

Lemma rewrite_html_kept html w :
  Inv w ->
  exists text used w',
    _rewrite_html BeautifulSoup urljoin url_path sha256_hexdigest http html page_url w
    = (Ok (text, used), w')
    /\ preserved w w' /\ Forall (Q w') used.
Proof.
  intros Hw. unfold _rewrite_html.
  destruct (mapM_soup_kept _ _ (rewrite_img_body urljoin url_path sha256_hexdigest
                                  http page_url) (BeautifulSoup html) w Hw)
    as (d1 & u1 & w1 & E1 & K1 & Q1).
  destruct (mapM_soup_kept _ _ (rewrite_link_body urljoin url_path sha256_hexdigest
                                  http page_url) d1 w1 (proj1 K1))
    as (d2 & u2 & w2 & E2 & K2 & Q2).
  destruct (mapM_soup_kept _ _ (rewrite_script_body urljoin url_path sha256_hexdigest
                                  http page_url) d2 w2 (proj1 K2))
    as (d3 & u3 & w3 & E3 & K3 & Q3).
  unfold bind. rewrite E1. cbn. rewrite E2. cbn. rewrite E3. cbn.
  eexists _, _, w3. split; [reflexivity|].
  split; [exact (preserved_trans _ _ _ (preserved_trans _ _ _ K1 K2) K3)|].
  rewrite !Forall_app. repeat split.
  - eapply Forall_kept; [exact (preserved_trans _ _ _ K2 K3)|exact Q1].
  - eapply Forall_kept; eassumption.
  - exact Q3.
Qed.

End Page.

Local Abbreviation archive :=
  (archive_temp_page BeautifulSoup urljoin url_path sha256_hexdigest http).

Lemma preserved_set_snapshots s w :
  Inv w -> Inv (set_snapshots s w) /\ forall q, Q w q -> Q (set_snapshots s w) q.
Proof.
  intros H. split.
  - apply (Inv_store w); [reflexivity|exact H].
  - intros q. apply Q_store. reflexivity.
Qed.

(** The loop of lines 277-312 in a directory that exists: it stops at the
    first page that cannot be written, and writes into this directory
    only. *)
Lemma archive_pages_spec dir temp_pages :
  forall w d, Inv w -> snapshots w !! dir = Some d ->
  exists r w' d',
    mapM (archive dir) temp_pages w = (r, w')
    /\ Inv w' /\ (forall q, Q w q -> Q w' q)
    /\ snapshots w' = <[dir := d']> (snapshots w)
    /\ debug_files w' = debug_files w
    /\ manifest d' = manifest d /\ changes d' = changes d
    /\ match r with
       | Ok pages =>
           archived url_path d temp_pages pages d'
           /\ Forall (fun page => Forall (Q w') (page_assets page)) pages
           /\ existsb (unwritable url_path) temp_pages = false
       | Raise e =>
           e = "FileNotFoundError" /\ existsb (unwritable url_path) temp_pages = true
       end.
Proof.
  induction temp_pages as [|tp rest IH]; intros w d Hw Hd.
  - exists (Ok []), w, d. split; [reflexivity|].
    rewrite (insert_id _ _ _ Hd). repeat split; auto. constructor.
  - rewrite mapM_cons. destruct tp as [url html|url error].
    + cbn [archive_temp_page]. unfold bind at 1.
      destruct (rewrite_html_kept url html w Hw)
        as (text & used & w1 & -> & (Hw1 & Hq1 & Hs1 & Hdbg1) & Hused).
      cbn [fst snd]. unfold bind at 1.
      assert (snapshots w1 !! dir = Some d) as Hd1 by (rewrite Hs1; exact Hd).
      rewrite (write_snapshot_file_spec _ _ _ _ _ Hd1).
      fold (page_file url_path url). cbn [existsb unwritable].
      destruct (has_slash (page_file url_path url)) eqn:Hslash.
      * exists (Raise "FileNotFoundError"), w1, d. split; [reflexivity|].
        rewrite Hs1, (insert_id _ _ _ Hd). repeat split; auto.
      * set (d2 := write_file (page_file url_path url) text d).
        set (w2 := set_snapshots (<[dir := d2]> (snapshots w1)) w1).
        unfold bind at 1.
        assert (snapshots w2 !! dir = Some d2) as Hd2 by apply lookup_insert_eq.
        rewrite (write_snapshot_file_spec _ _ _ _ _ Hd2).
        fold (page_original url_path url).
        unfold page_original at 1. rewrite original_filename_slash, Hslash.
        set (d3 := write_file (page_original url_path url) html d2).
        set (w3 := set_snapshots (<[dir := d3]> (snapshots w2)) w2).
        unfold ret at 1.
        rewrite path_name_flat
          by (unfold page_original; rewrite original_filename_slash; exact Hslash).
        assert (Inv w3 /\ forall q, Q w1 q -> Q w3 q) as [Hw3 Hq3].
        { destruct (preserved_set_snapshots (<[dir := d2]> (snapshots w1)) w1 Hw1) as [Ha Hb].
          destruct (preserved_set_snapshots (<[dir := d3]> (snapshots w2)) w2 Ha) as [Hc Hd'].
          split; [exact Hc|]. intros q Hq. apply Hd', Hb, Hq. }
        assert (snapshots w3 = <[dir := d3]> (snapshots w)) as Hs3.
        { subst w3 w2. cbn. rewrite insert_insert_eq, Hs1. reflexivity. }
        assert (snapshots w3 !! dir = Some d3) as Hd3
          by (rewrite Hs3; apply lookup_insert_eq).
        destruct (IH w3 d3 Hw3 Hd3)
          as (r & w' & d' & -> & Hw' & Hq' & Hs' & Hdbg' & Hm' & Hc' & Hr).
        assert (snapshots w' = <[dir := d']> (snapshots w)) as Hsw.
        { rewrite Hs', Hs3, insert_insert_eq. reflexivity. }
        assert (forall q, Q w q -> Q w' q) as Hqw
          by (intros q Hq; apply Hq', Hq3, Hq1, Hq).
        assert (debug_files w' = debug_files w) as Hdw by (rewrite Hdbg'; exact Hdbg1).
        destruct r as [pages|e].
        -- eexists (Ok _), w', d'. split; [reflexivity|].
           destruct Hr as (Ha & Hall & Hu).
           split_and!; try assumption.
           ++ exact (archived_ok url_path d url html text used rest pages d' Ha).
           ++ constructor; [|exact Hall]. cbn.
              eapply Forall_impl; [exact Hused|]. intros q Hq. apply Hq', Hq3, Hq.
        -- exists (Raise e), w', d'. split; [reflexivity|].
           destruct Hr as (He & Hu). split_and!; assumption.
    + cbn [archive_temp_page]. unfold ret at 1.
      destruct (IH w d Hw Hd)
        as (r & w' & d' & -> & Hw' & Hq' & Hs' & Hdbg' & Hm' & Hc' & Hr).
      destruct r as [pages|e].
      * eexists (Ok _), w', d'. split; [reflexivity|].
        destruct Hr as (Ha & Hall & Hu). split_and!; try assumption.
        -- constructor. exact Ha.
        -- constructor; [constructor|exact Hall].
      * exists (Raise e), w', d'. split; [reflexivity|].
        destruct Hr as (He & Hu). split_and!; assumption.
Qed.

Variables base_url snapshots_dir : string.

Local Abbreviation fetch := (fetch_page urljoin http base_url).
Local Abbreviation url_of := (page_url_of urljoin base_url).
Local Abbreviation pages_of := (pages_or_default base_url).
Local Abbreviation has_changed := (_has_content_changed_from_temp BeautifulSoup).
Local Abbreviation run_snapshot :=
  (snapshot BeautifulSoup urljoin url_path sha256_hexdigest http base_url snapshots_dir).

(** The directory that a snapshot leaves when it has written every page. *)
Definition finished (clock : Clock) (w : World) (temp_pages : list TempPage)
    (pages : list PageRecord) (d1 : SnapshotDir) : SnapshotDir :=
  let timestamp := now_snapshot clock in
  let m := {| m_timestamp := timestamp; m_base_url := base_url; m_pages := pages |} in
  let with_manifest :=
    {| files := files d1; manifest := Some m; changes := changes d1 |} in
  {| files := files d1; manifest := Some m;
     changes := Some (summary_lines base_url snapshots_dir (now_summary clock) timestamp
                        BeautifulSoup
                        (max_entry (map_to_list (<[timestamp := with_manifest]>
                                                   (snapshots w))))
                        temp_pages) |}.

(** [snapshot], step by step. *)
Lemma snapshot_spec clock pages_to_archive w :
  Inv w ->
  let timestamp := now_snapshot clock in
  exists temp_pages w1 changed w2,
    mapM fetch (pages_of pages_to_archive) w = (Ok temp_pages, w1)
    /\ has_changed (now_debug clock) temp_pages w1 = (Ok changed, w2)
    /\ store w2 = store w /\ snapshots w2 = snapshots w
    /\ requests w2 = requests w ++ map url_of (pages_of pages_to_archive)
    /\ if changed then
         exists r w' d',
           run_snapshot clock pages_to_archive w = (r, w')
           /\ Inv w' /\ (forall q, Q w q -> Q w' q)
           /\ snapshots w' = <[timestamp := d']> (snapshots w)
           /\ debug_files w' = debug_files w2
           /\ match r with
              | Raise e =>
                  e = "FileNotFoundError"
                  /\ existsb (unwritable url_path) temp_pages = true
                  /\ manifest d' = manifest (default empty_dir (snapshots w !! timestamp))
              | Ok o =>
                  o = Some timestamp
                  /\ existsb (unwritable url_path) temp_pages = false
                  /\ exists pages d1,
                       archived url_path
                         (default empty_dir (snapshots w !! timestamp))
                         temp_pages pages d1
                       /\ Forall (fun page => Forall (Q w') (page_assets page)) pages
                       /\ d' = finished clock w temp_pages pages d1
              end
       else run_snapshot clock pages_to_archive w = (Ok None, w2) /\ w2 = w1.
Proof.
  intros Hw timestamp.
  destruct (fetch_pages_spec urljoin http base_url (pages_of pages_to_archive) w)
    as (temp_pages & w1 & Ef & _ & Hreq1 & Hdisk1 & Hcache1).
  destruct (has_changed_frame BeautifulSoup (now_debug clock) temp_pages w1)
    as (changed & w2 & Ec & Hstore2 & Hsnap2 & Hreq2 & Hdbg2).
  assert (store w1 = store w /\ snapshots w1 = snapshots w) as [Hstore1 Hsnap1].
  { unfold disk in Hdisk1. unfold store. split; congruence. }
  exists temp_pages, w1, changed, w2. split; [exact Ef|]. split; [exact Ec|].
  split; [congruence|]. split; [congruence|]. split; [congruence|].
  assert (run_snapshot clock pages_to_archive w
          = (if negb changed then ret None
             else
               mkdir_snapshot timestamp ;;;
               pages <- mapM (archive timestamp) temp_pages ;;
               write_manifest timestamp
                 {| m_timestamp := timestamp; m_base_url := base_url;
                    m_pages := pages |} ;;;
               _generate_change_summary BeautifulSoup base_url snapshots_dir
                 (now_summary clock) timestamp temp_pages ;;;
               ret (Some timestamp)) w2) as ->.
  { unfold snapshot. unfold bind at 1. rewrite Ef. unfold bind at 1. rewrite Ec.
    reflexivity. }
  destruct changed; cbn [negb].
  2:{ split; [reflexivity|]. destruct Hdbg2 as [?|[? _]]; [assumption|discriminate]. }
  assert (Inv w2) as Hw2 by (apply (Inv_store w); [congruence|exact Hw]).
  assert (forall q, Q w q -> Q w2 q) as Hq2
    by (intros q; apply Q_store; congruence).
  set (d0 := default empty_dir (snapshots w !! timestamp)).
  unfold bind at 1. unfold mkdir_snapshot, modify. fold timestamp.
  set (w3 := match snapshots w2 !! timestamp with
             | Some _ => w2
             | None => set_snapshots (<[timestamp := empty_dir]> (snapshots w2)) w2
             end).
  assert (store w3 = store w2 /\ debug_files w3 = debug_files w2
          /\ snapshots w3 = <[timestamp := d0]> (snapshots w)) as (Hstore3 & Hdbg3 & Hsnap3).
  { subst w3 d0. assert (snapshots w2 = snapshots w) as Hs by congruence.
    rewrite Hs. destruct (snapshots w !! timestamp) as [d|] eqn:Ed; cbn.
    - rewrite (insert_id _ _ _ Ed). auto.
    - auto. }
  assert (Inv w3) as Hw3 by (apply (Inv_store w2); [congruence|exact Hw2]).
  assert (forall q, Q w2 q -> Q w3 q) as Hq3
    by (intros q; apply Q_store; congruence).
  assert (snapshots w3 !! timestamp = Some d0) as Hd3
    by (rewrite Hsnap3; apply lookup_insert_eq).
  destruct (archive_pages_spec timestamp temp_pages w3 d0 Hw3 Hd3)
    as (r & w4 & d1 & Ea & Hw4 & Hq4 & Hsnap4 & Hdbg4 & Hm4 & Hc4 & Hr).
  change (empty_dir) with {| files := ∅; manifest := None; changes := None |} in w3.
  unfold bind at 1. fold w3. rewrite Ea.
  assert (snapshots w4 = <[timestamp := d1]> (snapshots w)) as Hs4
    by (rewrite Hsnap4, Hsnap3, insert_insert_eq; reflexivity).
  destruct r as [pages|e].
  2:{ exists (Raise e), w4, d1. split; [reflexivity|].
      destruct Hr as [He Hu]. split_and!; auto; congruence. }
  destruct Hr as (Harch & Hassets & Hu).
  unfold bind at 1. unfold write_manifest, bind, get_world. cbn [fst snd].
  rewrite Hs4, lookup_insert_eq. unfold modify.
  set (m := {| m_timestamp := timestamp; m_base_url := base_url; m_pages := pages |}).
  set (d5 := {| files := files d1; manifest := Some m; changes := changes d1 |}).
  rewrite insert_insert_eq.
  set (w5 := set_snapshots (<[timestamp := d5]> (snapshots w)) w4).
  assert (snapshots w5 !! timestamp = Some d5) as Hd5 by apply lookup_insert_eq.
  rewrite (generate_change_summary_spec BeautifulSoup base_url snapshots_dir
             (now_summary clock) timestamp temp_pages w5 d5 Hd5).
  cbn [snapshots set_snapshots w5]. rewrite insert_insert_eq.
  eexists (Ok (Some timestamp)), _, _. unfold ret. split; [reflexivity|].
  subst w5. cbn [snapshots set_snapshots debug_files].
  split_and!.
  - apply (Inv_store w4); [reflexivity|exact Hw4].
  - intros q Hq. apply (Q_store w4); [reflexivity|]. auto.
  - reflexivity.
  - rewrite Hdbg4. exact Hdbg3.
  - reflexivity.
  - exact Hu.
  - exists pages, d1. split; [exact Harch|]. split; [|reflexivity].
    eapply Forall_impl; [exact Hassets|]. intros page Hp.
    eapply Forall_impl; [exact Hp|]. intros q. apply Q_store. reflexivity.
Qed.

End StoreInvariant.

(** ** What the page loop leaves in the directory *)
Section Archived.
Variable url_path : string -> string.

Local Abbreviation names := (file_names url_path).

Lemma archived_length d temp_pages pages d' :
  archived url_path d temp_pages pages d' -> length temp_pages = length pages.
Proof. induction 1; cbn; congruence. Qed.

Lemma archived_other d temp_pages pages d' name :
  archived url_path d temp_pages pages d' ->
  ~ In name (flat_map names temp_pages) ->
  files d' !! name = files d !! name.
Proof.
  induction 1 as [d|d url html text used rest pages d' _ IH|d url error rest pages d' _ IH];
    intros Hn; [reflexivity| |apply IH, Hn].
  cbn in Hn. rewrite IH by tauto. cbn.
  rewrite !lookup_insert_ne by (intros E; apply Hn; auto). reflexivity.
Qed.

Lemma find_prev_page_cons_ne url url' file original assets pages :
  url' <> url ->
  find_prev_page url (PageOk url' file original assets :: pages)
  = find_prev_page url pages.
Proof.
  intros H. cbn. destruct (String.eqb_spec url' url); [contradiction|reflexivity].
Qed.



Lemma archived_listed d temp_pages pages d' :
  archived url_path d temp_pages pages d' ->
  Forall2 (listed url_path) temp_pages pages.
Proof.
  induction 1; constructor; cbn; eauto.
Qed.

(** The record that the detector finds for the URL of a fetched page. *)
Lemma archived_find d temp_pages pages d' url html :
  archived url_path d temp_pages pages d' ->
  In (TempOk url html) temp_pages ->
  find_prev_page url pages
  = Some (page_file url_path url, Some (page_original url_path url)).
Proof.
  induction 1 as [d|d url' html' text used rest pages d' _ IH|d url' error rest pages d' _ IH];
    intros Hin.
  - destruct Hin.
  - cbn. destruct (String.eqb_spec url' url) as [->|Hne]; [reflexivity|].
    destruct Hin as [[= -> _]|Hin]; [contradiction|]. apply IH, Hin.
  - cbn. destruct Hin as [[=]|Hin]. apply IH, Hin.
Qed.

(** The original of the last page that is written to a file name. *)
Lemma archived_last d before url html after pages d' :
  archived url_path d (before ++ TempOk url html :: after) pages d' ->
  ~ In (page_original url_path url) (flat_map names after) ->
  files d' !! page_original url_path url = Some html.
Proof.
  revert d pages. induction before as [|tp before IH]; intros d pages H Hn.
  - inversion H as [|? ? ? text used ? pages' ? H'|]; subst.
    rewrite (archived_other _ _ _ _ _ H' Hn). cbn. apply lookup_insert_eq.
  - inversion H as [|? ? ? text used ? pages' ? H'|? ? ? ? pages' ? H']; subst.
    + apply (IH _ _ H' Hn).
    + apply (IH _ _ H' Hn).
Qed.

Section Agreeing.
Variable BeautifulSoup : string -> soup.

Local Abbreviation matches := (page_matches BeautifulSoup).

(** When no two pages share a file, each page finds its own text in the
    directory that the loop leaves. *)
Lemma archived_matches d temp_pages pages d' prev :
  archived url_path d temp_pages pages d' ->
  NoDup (flat_map names temp_pages) ->
  files prev = files d' ->
  Forall (matches prev pages) temp_pages.
Proof.
  intros H Hnd Hf.
  induction H as [d|d url html text used rest pages d' H IH|d url error rest pages d' H IH].
  - constructor.
  - cbn in Hnd. apply NoDup_cons in Hnd as [Hp Hnd]. apply NoDup_cons in Hnd as [Ho Hnd].
    constructor.
    + cbn. exists (page_file url_path url, Some (page_original url_path url)), html.
      rewrite String.eqb_refl. split; [reflexivity|]. split; [|reflexivity].
      cbn. rewrite Hf, (archived_other _ _ _ _ _ H) by (rewrite <- list_elem_of_In; exact Ho).
      cbn. apply lookup_insert_eq.
    + specialize (IH Hnd Hf). rewrite Forall_forall in IH. apply Forall_forall.
      intros tp Htp. specialize (IH tp Htp).
      destruct tp as [url' html'|url' error']; [|exact I].
      destruct IH as (pp & ph & Hfind & Hfile & Hnorm).
      exists pp, ph. split; [|split; assumption].
      rewrite find_prev_page_cons_ne; [exact Hfind|].
      intros ->. apply Hp. right. apply list_elem_of_In, in_flat_map.
      exists (TempOk url' html'). split; [apply list_elem_of_In, Htp|left; reflexivity].
  - constructor; [exact I|]. apply IH; assumption.
Qed.

Lemma summary_pages_matching prev prev_pages temp_pages :
  Forall (matches prev prev_pages) temp_pages ->
  summary_pages BeautifulSoup prev prev_pages temp_pages = ([], false).
Proof.
  induction 1 as [|tp rest Htp _ IH]; [reflexivity|].
  destruct tp as [url html|url err]; cbn; [|exact IH].
  destruct Htp as (pp & ph & -> & -> & ->). rewrite IH.
  rewrite String.eqb_refl. reflexivity.
Qed.

End Agreeing.

End Archived.

(** ** Runs of [snapshot] *)
Section SnapshotRuns.
Variable BeautifulSoup : string -> soup.
Variable urljoin : string -> string -> string.
Variable url_path : string -> string.
Variable sha256_hexdigest : bytes -> string.
Variable http : nat -> string -> HttpResult.
Variables base_url snapshots_dir : string.

Local Abbreviation save := (_save_asset url_path sha256_hexdigest).
Local Abbreviation fetch := (fetch_page urljoin http base_url).
Local Abbreviation pages_of := (pages_or_default base_url).
Local Abbreviation has_changed := (_has_content_changed_from_temp BeautifulSoup).
Local Abbreviation run_snapshot :=
  (snapshot BeautifulSoup urljoin url_path sha256_hexdigest http base_url snapshots_dir).
Local Abbreviation rewrite_html :=
  (_rewrite_html BeautifulSoup urljoin url_path sha256_hexdigest http).

(** [snapshot] with no invariant asked of the store. *)
Lemma snapshot_steps clock pages_to_archive w :
  let timestamp := now_snapshot clock in
  exists temp_pages w1 changed w2,
    mapM fetch (pages_of pages_to_archive) w = (Ok temp_pages, w1)
    /\ has_changed (now_debug clock) temp_pages w1 = (Ok changed, w2)
    /\ snapshots w2 = snapshots w
    /\ if changed then
         exists r w' d',
           run_snapshot clock pages_to_archive w = (r, w')
           /\ snapshots w' = <[timestamp := d']> (snapshots w)
           /\ match r with
              | Raise e =>
                  e = "FileNotFoundError"
                  /\ existsb (unwritable url_path) temp_pages = true
                  /\ manifest d' = manifest (default empty_dir (snapshots w !! timestamp))
              | Ok o =>
                  o = Some timestamp
                  /\ existsb (unwritable url_path) temp_pages = false
                  /\ exists pages d1,
                       archived url_path
                         (default empty_dir (snapshots w !! timestamp))
                         temp_pages pages d1
                       /\ d' = finished BeautifulSoup base_url snapshots_dir clock w
                                 temp_pages pages d1
              end
       else run_snapshot clock pages_to_archive w = (Ok None, w2).
Proof.
  intros timestamp.
  destruct (snapshot_spec BeautifulSoup urljoin url_path sha256_hexdigest http
              (fun _ => True) (fun _ _ => True)) with (w := w) (clock := clock)
              (base_url := base_url) (snapshots_dir := snapshots_dir)
              (pages_to_archive := pages_to_archive)
    as (temp_pages & w1 & changed & w2 & Ef & Ec & _ & Hs & _ & H); auto.
  { intros url content w0 _.
    destruct (save_asset_ok url_path sha256_hexdigest url content w0) as (p & w' & E & _).
    exists p, w'. auto. }
  exists temp_pages, w1, changed, w2. split; [exact Ef|]. split; [exact Ec|].
  split; [exact Hs|]. destruct changed; [|tauto].
  destruct H as (r & w' & d' & E & _ & _ & Hs' & _ & Hr).
  exists r, w', d'. split; [exact E|]. split; [exact Hs'|].
  destruct r as [o|e]; [|exact Hr].
  destruct Hr as (Ho & Hu & pages & d1 & Ha & _ & Hd). eauto 10.
Qed.


Lemma leb_refl (a : string) : String.leb a a = true.
Proof. destruct (String.leb_total a a); assumption. Qed.

Lemma max_entry_top (m : gmap string SnapshotDir) name d :
  (forall name', is_Some (m !! name') -> String.leb name' name = true) ->
  max_entry (map_to_list (<[name := d]> m)) = Some (name, d).
Proof.
  intros H.
  assert (most_recent (set_snapshots (<[name := d]> m) empty_world) name d) as Hr.
  { split; [apply lookup_insert_eq|]. cbn. intros name' d' Hl.
    destruct (decide (name = name')) as [<-|Hne]; [apply leb_refl|].
    rewrite lookup_insert_ne in Hl by exact Hne. apply H. eauto. }
  apply get_most_recent_some in Hr.
  unfold _get_most_recent_snapshot, bind, get_world, ret in Hr. cbn in Hr.
  congruence.
Qed.

(** A run that has written a snapshot whose name is not below the name of
    an older one, for pages that do not share a file: the new directory is
    the most recent one, and every fetched page agrees with it. *)
Lemma snapshot_agrees clock pages_to_archive w temp_pages w1 w' :
  mapM fetch (pages_of pages_to_archive) w = (Ok temp_pages, w1) ->
  run_snapshot clock pages_to_archive w = (Ok (Some (now_snapshot clock)), w') ->
  (forall name, is_Some (snapshots w !! name) ->
                String.leb name (now_snapshot clock) = true) ->
  NoDup (flat_map (file_names url_path) temp_pages) ->
  exists pages d1,
    let m := {| m_timestamp := now_snapshot clock; m_base_url := base_url;
                m_pages := pages |} in
    let prev := {| files := files d1; manifest := Some m; changes := changes d1 |} in
    snapshots w' !! now_snapshot clock
    = Some {| files := files d1; manifest := Some m;
              changes := Some (summary_lines base_url snapshots_dir (now_summary clock)
                                 (now_snapshot clock) BeautifulSoup
                                 (Some (now_snapshot clock, prev)) temp_pages) |}
    /\ (forall name d, snapshots w' !! name = Some d ->
                       String.leb name (now_snapshot clock) = true)
    /\ length temp_pages = length pages
    /\ forall d, files d = files d1 ->
                 Forall (page_matches BeautifulSoup d pages) temp_pages.
Proof.
  intros Ef Er Htop Hnd.
  destruct (snapshot_steps clock pages_to_archive w)
    as (tps & w1' & changed & w2 & Ef' & Ec & _ & H).
  rewrite Ef in Ef'. injection Ef' as <- <-.
  destruct changed; [|rewrite Er in H; discriminate].
  destruct H as (r & w'' & d' & Er' & Hs & Hr).
  rewrite Er in Er'. injection Er' as <- <-.
  destruct Hr as (_ & _ & pages & d1 & Ha & ->).
  exists pages, d1. cbn zeta. split; [|split; [|split]].
  - rewrite Hs, lookup_insert_eq. unfold finished.
    rewrite (max_entry_top _ _ _ Htop). reflexivity.
  - intros name d Hl. rewrite Hs in Hl.
    destruct (decide (now_snapshot clock = name)) as [<-|Hne]; [apply leb_refl|].
    rewrite lookup_insert_ne in Hl by exact Hne. apply Htop. eauto.
  - eapply archived_length, Ha.
  - intros d Hd. eapply archived_matches; eassumption.
Qed.



(** *** The asset store across a run *)

Lemma save_asset_sound_entry url content w :
  cache_sound w ->
  exists path w',
    save url content w = (Ok path, w')
    /\ asset_cache w' !! _get_file_hash sha256_hexdigest content = Some path
    /\ cache_sound w' /\ stored w' path /\ forall q, stored w q -> stored w' q.
Proof.
  intros Hw.
  destruct (asset_cache w !! _get_file_hash sha256_hexdigest content) as [p|] eqn:E.
  - exists p, w. split; [apply save_asset_cached, E|]. split; [exact E|].
    split; [exact Hw|]. split; [eapply Hw, E|auto].
  - destruct (save_asset_fresh url_path sha256_hexdigest url content w E)
      as (p & w' & Es & Hc & _ & Hf).
    exists p, w'. split; [exact Es|].
    split; [rewrite Hc; apply lookup_insert_eq|].
    assert (forall q, stored w q -> stored w' q) as Hmono.
    { intros q Hq. unfold stored. rewrite Hf.
      destruct (decide (p = q)) as [->|Hne];
        [rewrite lookup_insert_eq; eauto|rewrite lookup_insert_ne by exact Hne; exact Hq]. }
    assert (stored w' p) as Hp by (unfold stored; rewrite Hf, lookup_insert_eq; eauto).
    split; [|split; assumption].
    intros h q Hq. rewrite Hc in Hq.
    destruct (decide (_get_file_hash sha256_hexdigest content = h)) as [<-|Hne].
    + rewrite lookup_insert_eq in Hq. injection Hq as <-. exact Hp.
    + rewrite lookup_insert_ne in Hq by exact Hne. apply Hmono. eapply Hw, Hq.
Qed.

Lemma save_asset_sound url content w :
  cache_sound w ->
  exists path w',
    save url content w = (Ok path, w')
    /\ cache_sound w' /\ stored w' path /\ forall q, stored w q -> stored w' q.
Proof.
  intros Hw.
  destruct (save_asset_sound_entry url content w Hw) as (p & w' & E & _ & H).
  exists p, w'. split; [exact E|exact H].
Qed.

Lemma store_cache_sound w w' : store w = store w' -> cache_sound w -> cache_sound w'.
Proof. unfold store, cache_sound. intros [= -> _ ->]. auto. Qed.

Lemma store_stored w w' p : store w = store w' -> stored w p -> stored w' p.
Proof. unfold store, stored. intros [= _ _ ->]. auto. Qed.

(** X11.  When every path of the cache names a file of the store,
    [_save_asset] returns the path of a file of the store and files it in
    the cache under the hash of the content; the cache still names files of
    the store only, and no file has left the store. *)
Theorem save_asset_returns_stored_file url content w :
  cache_sound w ->
  exists path w',
    save url content w = (Ok path, w')
    /\ stored w' path
    /\ asset_cache w' !! _get_file_hash sha256_hexdigest content = Some path
    /\ cache_sound w'
    /\ forall q, stored w q -> stored w' q.
Proof.
  intros Hw.
  destruct (save_asset_sound_entry url content w Hw) as (p & w' & E & He & Hs & Hp & Hm).
  exists p, w'. auto.
Qed.

(** X12.  When every path of the cache names a file of the store, the assets
    that the manifest of a new snapshot lists are files of the store, and
    the cache still names files of the store only. *)
Theorem snapshot_assets_stored clock pages_to_archive w w' :
  cache_sound w ->
  run_snapshot clock pages_to_archive w = (Ok (Some (now_snapshot clock)), w') ->
  cache_sound w'
  /\ exists d m,
       snapshots w' !! now_snapshot clock = Some d /\ manifest d = Some m
       /\ Forall (fun page => Forall (stored w') (page_assets page)) (m_pages m).
Proof.
  intros Hw Er.
  destruct (snapshot_spec BeautifulSoup urljoin url_path sha256_hexdigest http
              cache_sound stored store_cache_sound store_stored save_asset_sound
              base_url snapshots_dir clock pages_to_archive w Hw)
    as (temp_pages & w1 & changed & w2 & _ & _ & _ & _ & _ & H).
  destruct changed; [|destruct H as [H _]; rewrite Er in H; discriminate].
  destruct H as (r & w'' & d' & Er' & Hs' & _ & Hsnap & _ & Hr).
  rewrite Er in Er'. injection Er' as <- <-.
  split; [exact Hs'|].
  destruct Hr as (_ & _ & pages & d1 & _ & Hassets & ->).
  eexists _, _. rewrite Hsnap, lookup_insert_eq. split; [reflexivity|].
  split; [reflexivity|exact Hassets].
Qed.

Lemma save_asset_synced url content w :
  cache_synced w ->
  exists path w',
    save url content w = (Ok path, w') /\ cache_synced w' /\ True /\ (forall q : string, True -> True).
Proof.
  intros Hw.
  destruct (asset_cache w !! _get_file_hash sha256_hexdigest content) as [p|] eqn:E.
  - exists p, w. split; [apply save_asset_cached, E|auto].
  - destruct (save_asset_fresh url_path sha256_hexdigest url content w E)
      as (p & w' & Es & _ & Hi & _).
    exists p, w'. split; [exact Es|]. split; [|auto].
    unfold cache_synced. rewrite Hi. reflexivity.
Qed.

Lemma store_cache_synced w w' : store w = store w' -> cache_synced w -> cache_synced w'.
Proof. unfold store, cache_synced. intros [= -> -> _]. auto. Qed.

Lemma snapshot_synced clock pages_to_archive w :
  cache_synced w -> cache_synced (snd (run_snapshot clock pages_to_archive w)).
Proof.
  intros Hw.
  destruct (snapshot_spec BeautifulSoup urljoin url_path sha256_hexdigest http
              cache_synced (fun _ _ => True) store_cache_synced (fun _ _ _ _ _ => I)
              save_asset_synced base_url snapshots_dir clock pages_to_archive w Hw)
    as (temp_pages & w1 & changed & w2 & _ & _ & Hst & _ & _ & H).
  destruct changed.
  - destruct H as (r & w' & d' & -> & Hs' & _). exact Hs'.
  - destruct H as [-> _]. cbn. apply (store_cache_synced w); [congruence|exact Hw].
Qed.

(** X13.  An archiver that is constructed anew after a run of [snapshot],
    however the run ended, loads the very cache that the run has left in
    memory, and the constructor changes nothing on disk: the index file is
    rewritten at every addition to the cache. *)
Theorem asset_cache_survives_restart clock pages_to_archive url url' w0 :
  let w := snd (__init__ url w0) in
  let w' := snd (run_snapshot clock pages_to_archive w) in
  asset_cache (snd (__init__ url' w')) = asset_cache w'
  /\ disk (snd (__init__ url' w')) = disk w'.
Proof.
  intros w w'.
  assert (cache_synced w) as Hw.
  { subst w. unfold __init__, _load_asset_cache, bind, get_world, modify, ret, cache_synced.
    cbn. destruct (cache_index w0) as [g|] eqn:E; cbn; rewrite E; reflexivity. }
  pose proof (snapshot_synced clock pages_to_archive w Hw) as Hw'. fold w' in Hw'.
  unfold __init__, _load_asset_cache, bind, get_world, modify, ret. cbn.
  unfold cache_synced in Hw'. rewrite Hw'.
  destruct (cache_index w') as [g|] eqn:E; cbn; auto.
Qed.


(** *** [_archive_page] *)

Lemma rewrite_html_frame html page_url w :
  exists text used w',
    rewrite_html html page_url w = (Ok (text, used), w')
    /\ snapshots w' = snapshots w /\ debug_files w' = debug_files w.
Proof.
  destruct (rewrite_html_kept BeautifulSoup urljoin url_path sha256_hexdigest http
              (fun _ => True) (fun _ _ => True)) with (w := w) (html := html)
              (page_url := page_url)
    as (text & used & w' & E & (_ & _ & Hs & Hd) & _); auto.
  { intros url content w0 _.
    destruct (save_asset_ok url_path sha256_hexdigest url content w0) as (p & w' & E & _).
    exists p, w'. auto. }
  exists text, used, w'. auto.
Qed.



(** X9.  Two pages with the same derived file name: the original copy of the
    first is overwritten by that of the second, and as soon as the two
    pages differ once normalised the detector finds a change between the
    snapshot and the very pages it was made from. *)
Theorem colliding_pages_always_change clock pages_to_archive w w1 w' debug
    before url1 html1 between url2 html2 after :
  let temp_pages :=
    before ++ TempOk url1 html1 :: between ++ TempOk url2 html2 :: after in
  mapM fetch (pages_of pages_to_archive) w = (Ok temp_pages, w1) ->
  run_snapshot clock pages_to_archive w = (Ok (Some (now_snapshot clock)), w') ->
  (forall name, is_Some (snapshots w !! name) ->
                String.leb name (now_snapshot clock) = true) ->
  page_file url_path url1 = page_file url_path url2 ->
  ~ In (page_original url_path url2) (flat_map (file_names url_path) after) ->
  _normalize_html_for_comparison BeautifulSoup html1
  <> _normalize_html_for_comparison BeautifulSoup html2 ->
  fst (has_changed debug temp_pages w') = Ok true.
Proof.
  intros temp_pages Ef Er Htop Hfile Hafter Hdiff.
  destruct (snapshot_steps clock pages_to_archive w)
    as (tps & w1' & changed & w2 & Ef' & Ec & _ & H).
  rewrite Ef in Ef'. injection Ef' as <- <-.
  destruct changed; [|rewrite Er in H; discriminate].
  destruct H as (r & w'' & d' & Er' & Hs & Hr).
  rewrite Er in Er'. injection Er' as <- <-.
  destruct Hr as (_ & _ & pages & d1 & Ha & ->).
  destruct (has_changed_frame BeautifulSoup debug temp_pages w')
    as (changed & w3 & Ec' & _).
  rewrite Ec'. cbn [fst]. destruct changed; [reflexivity|]. exfalso.
  apply has_changed_false_iff in Ec' as (_ & name & prev & m & Hr & Hm & _ & HF).
  assert (most_recent w' (now_snapshot clock)
            (finished BeautifulSoup base_url snapshots_dir clock w temp_pages pages d1))
    as Hr'.
  { split; [rewrite Hs; apply lookup_insert_eq|].
    intros n d Hl. rewrite Hs in Hl.
    destruct (decide (now_snapshot clock = n)) as [<-|Hne]; [apply leb_refl|].
    rewrite lookup_insert_ne in Hl by exact Hne. apply Htop. eauto. }
  assert (name = now_snapshot clock) as ->.
  { apply String.leb_antisym; [eapply Hr', Hr|eapply Hr, Hr']. }
  destruct Hr as [Hr _]. destruct Hr' as [Hr' _]. rewrite Hr' in Hr.
  injection Hr as <-. cbn in Hm. injection Hm as <-. cbn [m_pages] in HF.
  rewrite Forall_forall in HF.
  destruct (HF (TempOk url1 html1)) as (pp & ph & Hfind & Hph & Hnorm).
  { subst temp_pages. rewrite elem_of_app, elem_of_cons. auto. }
  rewrite (archived_find url_path _ _ _ _ url1 html1 Ha) in Hfind.
  2:{ subst temp_pages. apply in_or_app. right. left. reflexivity. }
  injection Hfind as <-. cbn in Hph.
  assert (page_original url_path url1 = page_original url_path url2) as Ho
    by (unfold page_original; rewrite Hfile; reflexivity).
  rewrite Ho in Hph.
  subst temp_pages.
  change (before ++ TempOk url1 html1 :: between ++ TempOk url2 html2 :: after)
    with (before ++ (TempOk url1 html1 :: between) ++ TempOk url2 html2 :: after) in Ha.
  rewrite app_assoc in Ha.
  rewrite (archived_last url_path _ _ _ _ _ _ _ Ha Hafter) in Hph.
  injection Hph as <-. contradiction.
Qed.

(** *** The detector *)

(** X17.  The detector never raises and never touches the asset store, the
    snapshot directories or the trace of requests.  It writes its two
    debug files, and nothing else, when a fetched page and the text that
    the most recent snapshot keeps for its URL differ once normalised, and
    then it answers true; otherwise it writes nothing at all. *)
Theorem detector_writes_on_difference_only debug temp_pages w :
  exists changed w',
    has_changed debug temp_pages w = (Ok changed, w')
    /\ store w' = store w /\ snapshots w' = snapshots w /\ requests w' = requests w
    /\ (w' = w
        \/ changed = true
           /\ exists name prev m,
                most_recent w name prev /\ manifest prev = Some m
                /\ difference_found BeautifulSoup debug prev (m_pages m) temp_pages
                     w w').
Proof. apply has_changed_frame. Qed.

(** X22.  The answer of the detector does not depend on the order of the
    fetched pages: each page is looked up in the manifest by its URL. *)
Theorem detector_ignores_page_order debug temp_pages temp_pages' w :
  temp_pages ≡ₚ temp_pages' ->
  fst (_has_content_changed_from_temp BeautifulSoup debug temp_pages w)
  = fst (_has_content_changed_from_temp BeautifulSoup debug temp_pages' w).
Proof.
  intros Hp.
  destruct (has_changed_frame BeautifulSoup debug temp_pages w) as (c & w1 & E & _).
  destruct (has_changed_frame BeautifulSoup debug temp_pages' w) as (c' & w1' & E' & _).
  rewrite E, E'. cbn [fst]. f_equal.
  assert (forall l l' b' v v',
             l ≡ₚ l' -> has_changed debug l w = (Ok false, v) ->
             has_changed debug l' w = (Ok b', v') -> b' = false) as Hsame.
  { intros l l' b' v v' Hl Hf Hb. apply has_changed_false_iff in Hf
      as (_ & name & prev & m & Hr & Hm & Hlen & HF).
    assert (has_changed debug l' w = (Ok false, w)) as Hf'.
    { apply has_changed_false_iff. split; [reflexivity|]. exists name, prev, m.
      split; [exact Hr|]. split; [exact Hm|]. split.
      - rewrite <- Hlen. symmetry. apply Permutation_length, Hl.
      - eapply Permutation_Forall; eassumption. }
    rewrite Hf' in Hb. congruence. }
  destruct c, c'; try reflexivity.
  - apply (Hsame temp_pages' temp_pages true w1' w1); [|exact E'|exact E].
    symmetry. exact Hp.
  - symmetry.
    apply (Hsame temp_pages temp_pages' true w1 w1'); [exact Hp|exact E|exact E'].
Qed.

(** *** One run after another *)



End SnapshotRuns.

(** ** The store is addressed by content *)

Lemma split_at_first (c : ascii) a b x y :
  existsb (char_eqb c) a = false -> existsb (char_eqb c) b = false ->
  a ++ c :: x = b ++ c :: y -> a = b /\ x = y.
Proof.
  revert b. induction a as [|a0 a IH]; intros b Ha Hb E.
  - destruct b as [|b0 b]; [injection E as ->; auto|].
    cbn in E. injection E as <- _. cbn in Hb. rewrite char_eqb_refl in Hb. discriminate.
  - destruct b as [|b0 b].
    + cbn in E. injection E as -> _. cbn in Ha. rewrite char_eqb_refl in Ha. discriminate.
    + cbn in E. injection E as -> E. cbn in Ha, Hb.
      apply orb_false_iff in Ha as [_ Ha]. apply orb_false_iff in Hb as [_ Hb].
      destruct (IH b Ha Hb E) as [-> ->]. auto.
Qed.

Lemma hex_no_dot s : forallb hex_char s = true -> existsb (char_eqb ".") s = false.
Proof.
  induction s as [|c s IH]; [reflexivity|]. cbn [forallb existsb].
  intros H. apply andb_true_iff in H as [Hc Hs]. rewrite (IH Hs), orb_false_r.
  apply not_true_is_false. intros E. apply char_eqb_eq in E. subst c.
  vm_compute in Hc. discriminate.
Qed.

Lemma forallb_take {A} (p : A -> bool) n l :
  forallb p l = true -> forallb p (take n l) = true.
Proof.
  revert l. induction n as [|n IH]; intros [|a l]; cbn; try reflexivity.
  intros H. apply andb_true_iff in H as [-> H]. cbn. apply IH, H.
Qed.

Lemma asset_type_no_slash ext : has_slash (asset_type_of ext) = false.
Proof.
  unfold asset_type_of.
  repeat match goal with |- context [if ?b then _ else _] => destruct b end;
    reflexivity.
Qed.

Lemma splitext_ext_dot path :
  splitext_ext path = [] \/ exists rest, splitext_ext path = "."%char :: rest.
Proof.
  unfold splitext_ext.
  destruct (span_until "." (fst (span_until "/" (rev path)))) as [rext [rstem|]];
    [|auto].
  destruct (existsb _ rstem); eauto.
Qed.

Section ContentAddressed.
Variable url_path : string -> string.
Variable sha256_hexdigest : bytes -> string.

(** The digest is written with the digits [0-9a-f]. *)
Hypothesis hex_digest :
  forall content, forallb hex_char (explode (sha256_hexdigest content)) = true.

Local Abbreviation save := (_save_asset url_path sha256_hexdigest).
Local Abbreviation hash := (_get_file_hash sha256_hexdigest).
Local Abbreviation addressed := (content_addressed sha256_hexdigest).

Lemma hash_no_dot content : existsb (char_eqb ".") (explode (hash content)) = false.
Proof.
  apply hex_no_dot. unfold _get_file_hash. rewrite explode_implode.
  apply forallb_take, hex_digest.
Qed.

Lemma asset_ext_dot url : exists rest, explode (asset_ext url_path url) = "."%char :: rest.
Proof.
  unfold asset_ext.
  destruct (splitext_ext_dot (explode (url_path url))) as [->|[rest ->]].
  - exists (explode "bin"). reflexivity.
  - exists rest. apply explode_implode.
Qed.

(** Two paths of the store with different hashes are different. *)
Lemma asset_path_inj t1 c1 e1 r1 t2 c2 e2 r2 :
  has_slash t1 = false -> has_slash t2 = false ->
  explode e1 = "."%char :: r1 -> explode e2 = "."%char :: r2 ->
  "assets/" +:+ t1 +:+ "/" +:+ hash c1 +:+ e1
  = "assets/" +:+ t2 +:+ "/" +:+ hash c2 +:+ e2 ->
  hash c1 = hash c2.
Proof.
  intros Ht1 Ht2 He1 He2 E. apply (f_equal explode) in E.
  rewrite !explode_app, He1, He2 in E.
  apply app_inv_head in E.
  change (explode "/") with ["/"%char] in E. cbn [app] in E.
  apply split_at_first in E as [_ E]; [|exact Ht1|exact Ht2].
  apply split_at_first in E as [E _]; [|apply hash_no_dot..].
  rewrite <- (implode_explode (hash c1)), <- (implode_explode (hash c2)), E.
  reflexivity.
Qed.

Lemma save_asset_addressed url content w :
  addressed w ->
  exists path w',
    save url content w = (Ok path, w')
    /\ addressed w'
    /\ cached sha256_hexdigest w' path
    /\ forall q, cached sha256_hexdigest w q -> cached sha256_hexdigest w' q.
Proof.
  intros Hw.
  destruct (asset_cache w !! hash content) as [p|] eqn:E.
  - exists p, w. split; [apply save_asset_cached, E|]. split; [exact Hw|].
    split; [|auto]. destruct (Hw _ _ E) as [(c & Hc & Hh) _]. exists (hash content), c. auto.
  - destruct (save_asset_fresh url_path sha256_hexdigest url content w E)
      as (p & w' & Es & Hc & _ & Hf).
    assert (p = "assets/" +:+ asset_type_of (asset_ext url_path url) +:+ "/"
                +:+ hash content +:+ asset_ext url_path url) as Hp.
    { unfold _save_asset, bind, get_world, modify, _save_asset_cache, ret in Es.
      cbn in Es. rewrite E in Es. cbn in Es. injection Es as <- _. reflexivity. }
    destruct (asset_ext_dot url) as [rest Hrest].
    assert (forall h q, asset_cache w !! h = Some q -> q <> p) as Hfresh.
    { intros h q Hq Heq.
      destruct (Hw _ _ Hq) as [(c & _ & Hh) (t & e & r & Hshape & Ht & He)].
      assert ("assets/" +:+ asset_type_of (asset_ext url_path url) +:+ "/"
                +:+ hash content +:+ asset_ext url_path url
              = "assets/" +:+ t +:+ "/" +:+ hash c +:+ e) as Hpaths
        by (rewrite Hh, <- Hshape, Heq; symmetry; exact Hp).
      apply asset_path_inj with (r1 := rest) (r2 := r) in Hpaths;
        [|apply asset_type_no_slash|exact Ht|exact Hrest|exact He].
      rewrite Hpaths, Hh in E. congruence. }
    exists p, w'. split; [exact Es|]. split; [|split].
    + intros h q Hq. rewrite Hc in Hq.
      destruct (decide (hash content = h)) as [<-|Hne].
      * rewrite lookup_insert_eq in Hq. injection Hq as <-. split.
        -- exists content. rewrite Hf, lookup_insert_eq. auto.
        -- exists (asset_type_of (asset_ext url_path url)), (asset_ext url_path url), rest.
           split; [exact Hp|]. split; [apply asset_type_no_slash|exact Hrest].
      * rewrite lookup_insert_ne in Hq by exact Hne.
        destruct (Hw _ _ Hq) as [(c & Hfc & Hh) Hshape]. split; [|exact Hshape].
        exists c. rewrite Hf, lookup_insert_ne by (apply not_eq_sym; eapply Hfresh, Hq).
        auto.
    + exists (hash content), content. rewrite Hc, Hf, !lookup_insert_eq. auto.
    + intros q (h & c & Hq & Hfc & Hh). exists h, c.
      assert (hash content <> h) as Hne by (intros <-; congruence).
      rewrite Hc, Hf, lookup_insert_ne by exact Hne.
      rewrite lookup_insert_ne by (apply not_eq_sym; eapply Hfresh, Hq). auto.
Qed.

(** A new file never takes the place of a file that the cache names. *)
Lemma save_asset_keeps_files url content w h path :
  addressed w -> asset_cache w !! h = Some path ->
  asset_files (snd (save url content w)) !! path = asset_files w !! path.
Proof.
  intros Hw Hq.
  destruct (asset_cache w !! hash content) as [p|] eqn:E.
  - rewrite (save_asset_cached _ _ _ _ _ _ E). reflexivity.
  - destruct (save_asset_addressed url content w Hw) as (p & w' & Es & _ & _ & Hmono).
    destruct (save_asset_fresh url_path sha256_hexdigest url content w E)
      as (p' & w'' & Es' & Hc & _ & Hf).
    rewrite Es in Es'. injection Es' as <- <-. rewrite Es. cbn [snd].
    destruct (Hw _ _ Hq) as [(c & Hfc & Hh) _].
    destruct (Hmono path) as (h' & c' & Hq' & Hfc' & Hh'); [exists h, c; auto|].
    rewrite Hf. destruct (decide (p = path)) as [->|Hne];
      [|apply lookup_insert_ne, Hne].
    exfalso. rewrite Hc in Hq'.
    destruct (decide (hash content = h')) as [<-|Hne'].
    + rewrite Hf, lookup_insert_eq in Hfc'. injection Hfc' as <-.
      destruct (decide (hash content = h)) as [<-|Hne2]; [congruence|].
      (* two entries of the old cache cannot hold the new file *)
      destruct (Hw _ _ Hq) as [_ (t & e & r & Hshape & Ht & He)].
      destruct (asset_ext_dot url) as [rest Hrest].
      assert (path = "assets/" +:+ asset_type_of (asset_ext url_path url) +:+ "/"
                     +:+ hash content +:+ asset_ext url_path url) as Hp.
      { unfold _save_asset, bind, get_world, modify, _save_asset_cache, ret in Es.
        cbn in Es. rewrite E in Es. cbn in Es. injection Es as <- _. reflexivity. }
      rewrite Hshape in Hp. rewrite <- Hh in Hp.
      apply asset_path_inj with (r1 := r) (r2 := rest) in Hp;
        [|exact Ht|apply asset_type_no_slash|exact He|exact Hrest].
      congruence.
    + rewrite lookup_insert_ne in Hq' by exact Hne'.
      rewrite Hf, lookup_insert_eq in Hfc'. injection Hfc' as <-. congruence.
Qed.

(** X14.  With a digest written in the digits [0-9a-f], [_save_asset] keeps
    the store addressed by content: the path it returns is filed under the
    hash of the content and names a file whose content has that hash, every
    older entry of the cache stays, and the file of an older entry is not
    written over. *)
Theorem save_asset_content_addressed url content w :
  content_addressed sha256_hexdigest w ->
  exists path w',
    _save_asset url_path sha256_hexdigest url content w = (Ok path, w')
    /\ content_addressed sha256_hexdigest w'
    /\ asset_cache w' !! hash content = Some path
    /\ (exists stored_content,
           asset_files w' !! path = Some stored_content
           /\ hash stored_content = hash content)
    /\ forall h cached_path,
         asset_cache w !! h = Some cached_path ->
         asset_cache w' !! h = Some cached_path
         /\ asset_files w' !! cached_path = asset_files w !! cached_path.
Proof.
  intros Hw.
  destruct (save_asset_addressed url content w Hw) as (p & w' & Es & Hw' & _ & _).
  exists p, w'. split; [exact Es|]. split; [exact Hw'|].
  assert (asset_cache w' !! hash content = Some p) as Hp.
  { destruct (asset_cache w !! hash content) as [p'|] eqn:E.
    - rewrite (save_asset_cached _ _ _ _ _ _ E) in Es. injection Es as <- <-. exact E.
    - destruct (save_asset_fresh url_path sha256_hexdigest url content w E)
        as (p' & w'' & Es' & Hc & _). rewrite Es in Es'. injection Es' as <- <-.
      rewrite Hc. apply lookup_insert_eq. }
  split; [exact Hp|]. split; [apply (Hw' _ _ Hp)|].
  intros h q Hq. split.
  - pose proof (save_asset_keeps url_path sha256_hexdigest url content w h q Hq) as Hk.
    rewrite Es in Hk. exact Hk.
  - pose proof (save_asset_keeps_files url content w h q Hw Hq) as Hk.
    rewrite Es in Hk. exact Hk.
Qed.

Lemma store_addressed w w' : store w = store w' -> addressed w -> addressed w'.
Proof. unfold store, content_addressed. intros [= -> _ ->]. auto. Qed.

Lemma store_cached w w' p :
  store w = store w' -> cached sha256_hexdigest w p -> cached sha256_hexdigest w' p.
Proof. unfold store, cached. intros [= -> _ ->]. auto. Qed.

Section Runs.
Variable BeautifulSoup : string -> soup.
Variable urljoin : string -> string -> string.
Variable http : nat -> string -> HttpResult.
Variables base_url snapshots_dir : string.

Local Abbreviation run_snapshot :=
  (snapshot BeautifulSoup urljoin url_path sha256_hexdigest http base_url snapshots_dir).


End Runs.

End ContentAddressed.

Lemma hex_digit_hex n : hex_char (hex_digit n) = true.
Proof.
  unfold hex_digit.
  do 16 (destruct n as [|n]; [reflexivity|]). destruct n; reflexivity.
Qed.

Lemma toy_hexdigest_hex content :
  forallb hex_char (explode (toy_hexdigest content)) = true.
Proof.
  unfold toy_hexdigest. rewrite explode_implode, forallb_app. apply andb_true_iff.
  split; [|reflexivity].
  induction content as [|b content IH]; [reflexivity|].
  cbn [flat_map app forallb]. rewrite !hex_digit_hex. exact IH.
Qed.

(** ** The snapshot before the last *)


Local Instance by_name_dec : RelDecision by_name.
Proof. intros a b. unfold by_name. apply _. Defined.

Local Instance by_name_total : Total by_name.
Proof. intros a b. unfold by_name. apply total, _. Qed.

Local Instance by_name_trans : Transitive by_name.
Proof. intros a b c. unfold by_name. apply transitivity. Qed.

Lemma sorted_snapshots_spec w :
  sorted_snapshots w ≡ₚ map_to_list (snapshots w)
  /\ StronglySorted by_name (sorted_snapshots w)
  /\ NoDup (sorted_snapshots w).*1.
Proof.
  unfold sorted_snapshots. fold by_name.
  pose proof (merge_sort_Permutation by_name (map_to_list (snapshots w))) as Hp.
  split; [exact Hp|]. split; [apply StronglySorted_merge_sort; apply _|].
  rewrite Hp. apply NoDup_fst_map_to_list.
Qed.

Lemma sorted_snapshots_elem w name dir :
  (name, dir) ∈ sorted_snapshots w <-> snapshots w !! name = Some dir.
Proof.
  destruct (sorted_snapshots_spec w) as (Hp & _). rewrite Hp.
  apply elem_of_map_to_list.
Qed.

Lemma sorted_snapshots_length w : length (sorted_snapshots w) = size (snapshots w).
Proof.
  destruct (sorted_snapshots_spec w) as (Hp & _). rewrite Hp.
  apply length_map_to_list.
Qed.

Lemma last_two {A} (l : list A) :
  2 <= length l -> exists l0 a b, l = l0 ++ [a; b].
Proof.
  intros H. destruct l as [|b l _] using rev_ind; [cbn in H; lia|].
  destruct l as [|a l _] using rev_ind; [cbn in H; lia|].
  exists l, a, b. rewrite <- app_assoc. reflexivity.
Qed.

Lemma most_recent_unique w n1 d1 n2 d2 :
  most_recent w n1 d1 -> most_recent w n2 d2 -> n1 = n2.
Proof.
  intros [H1 M1] [H2 M2]. apply String.leb_antisym; eauto.
Qed.

Lemma previous_unique w n1 d1 n2 d2 :
  previous w n1 d1 -> previous w n2 d2 -> n1 = n2 /\ d1 = d2.
Proof.
  intros (H1 & t1 & dt1 & T1 & N1 & O1) (H2 & t2 & dt2 & T2 & N2 & O2).
  assert (t1 = t2) as <- by (eapply most_recent_unique; eassumption).
  assert (n1 = n2) as <-.
  { apply String.leb_antisym; [eapply O2|eapply O1]; eauto. }
  split; [reflexivity|congruence].
Qed.

(** The last but one of the sorted directories is the second greatest. *)
Lemma sorted_previous w l0 a b :
  sorted_snapshots w = l0 ++ [a; b] -> previous w (fst a) (snd a).
Proof.
  intros El. destruct (sorted_snapshots_spec w) as (_ & Hs & Hnd).
  rewrite El in Hs, Hnd.
  apply StronglySorted_app in Hs as (Hlow & _ & Hab).
  apply StronglySorted_cons in Hab as [Hab _]. apply Forall_cons in Hab as [Hab _].
  rewrite fmap_app in Hnd. apply NoDup_app in Hnd as (_ & Hdis & Hnd2).
  cbn in Hnd2. apply NoDup_cons in Hnd2 as [Hne _].
  assert (forall x, x ∈ sorted_snapshots w <-> x ∈ l0 \/ x = a \/ x = b) as Hin.
  { intros x. rewrite El, elem_of_app, !elem_of_cons, elem_of_nil. tauto. }
  assert (forall n d, snapshots w !! n = Some d <-> (n, d) ∈ l0 \/ (n, d) = a \/ (n, d) = b)
    as Hmap.
  { intros n d. rewrite <- sorted_snapshots_elem. apply Hin. }
  assert (forall x, by_name x x) as Hrefl by (intros x; unfold by_name; reflexivity).
  split; [apply Hmap; right; left; destruct a; reflexivity|].
  exists (fst b), (snd b). split; [split|split].
  - apply Hmap. right; right. destruct b; reflexivity.
  - intros n d Hl. apply Hmap in Hl as [Hl|[Hl|Hl]].
    + apply Is_true_true. apply (Hlow (n, d) b Hl). rewrite !elem_of_cons. tauto.
    + subst a. apply Is_true_true, Hab.
    + subst b. apply Is_true_true, (Hrefl (n, d)).
  - intros E. apply Hne. rewrite E. cbn. rewrite elem_of_cons. tauto.
  - intros n d Hl Hn. apply Hmap in Hl as [Hl|[Hl|Hl]].
    + apply Is_true_true. apply (Hlow (n, d) a Hl). rewrite !elem_of_cons. tauto.
    + subst a. apply Is_true_true, (Hrefl (n, d)).
    + subst b. contradiction.
Qed.

Lemma lookup_last_two {A} (l0 : list A) a b :
  (l0 ++ [a; b]) !! (length (l0 ++ [a; b]) - 2) = Some a.
Proof.
  rewrite length_app. cbn [length].
  replace (length l0 + 2 - 2) with (length l0 + 0) by lia.
  rewrite lookup_app_r by lia. replace (length l0 + 0 - length l0) with 0 by lia.
  reflexivity.
Qed.

Lemma get_previous_snapshot_cases w :
  exists r,
    _get_previous_snapshot w = (Ok r, w)
    /\ (forall name dir, r = Some (name, dir) <-> previous w name dir)
    /\ (r = None <-> size (snapshots w) < 2).
Proof.
  assert (_get_previous_snapshot w
          = (Ok (if 2 <=? length (sorted_snapshots w)
                 then sorted_snapshots w !! (length (sorted_snapshots w) - 2)
                 else None), w)) as ->.
  { unfold _get_previous_snapshot, bind, get_world, ret.
    destruct (2 <=? length (sorted_snapshots w)); reflexivity. }
  eexists. split; [reflexivity|].
  pose proof (sorted_snapshots_length w) as Hlen.
  destruct (Nat.leb_spec 2 (length (sorted_snapshots w))) as [Hge|Hlt].
  - destruct (last_two _ Hge) as (l0 & a & b & El).
    pose proof (sorted_previous w l0 a b El) as Hprev.
    rewrite El, lookup_last_two.
    split; [|split; [discriminate|lia]].
    intros name dir. split.
    + intros [= ->]. exact Hprev.
    + intros H. destruct (previous_unique _ _ _ _ _ H Hprev) as [-> ->].
      destruct a; reflexivity.
  - split; [|split; [lia|reflexivity]].
    intros name dir. split; [discriminate|].
    intros (H1 & top & dtop & [H2 _] & Hne & _).
    apply sorted_snapshots_elem in H1, H2.
    destruct (sorted_snapshots w) as [|x [|y l]];
      [apply elem_of_nil in H1; contradiction| |cbn in Hlt; lia].
    apply list_elem_of_singleton in H1, H2. congruence.
Qed.

(** X18.  [_get_previous_snapshot] returns the directory with the second
    greatest name, and [None] exactly when there are fewer than two
    directories; it changes nothing. *)
Theorem get_previous_snapshot_spec w :
  (forall name dir,
      _get_previous_snapshot w = (Ok (Some (name, dir)), w) <-> previous w name dir)
  /\ (_get_previous_snapshot w = (Ok None, w) <-> size (snapshots w) < 2)
  /\ snd (_get_previous_snapshot w) = w.
Proof.
  destruct (get_previous_snapshot_cases w) as (r & -> & Hsome & Hnone).
  split; [|split; [|reflexivity]].
  - intros name dir. rewrite <- Hsome. split; [intros [= ->]; reflexivity|intros ->; reflexivity].
  - rewrite <- Hnone. split; [intros [= ->]; reflexivity|intros ->; reflexivity].
Qed.

(** ** [_has_content_changed] *)

Lemma compare_saved_read_only curr prev pairs changes_detected w :
  snd (compare_saved curr prev pairs changes_detected w) = w.
Proof.
  revert changes_detected. induction pairs as [|[c p] pairs IH]; intros b; [reflexivity|].
  cbn [compare_saved].
  destruct c as [? cf ? ?|? ?]; [|apply IH].
  destruct p as [? pf ? ?|? ?]; [|apply IH].
  destruct (files prev !! pf); [|apply IH].
  destruct (files curr !! cf); [|reflexivity].
  destruct (negb _); apply IH.
Qed.

Lemma compare_saved_false curr prev pairs changes_detected w :
  fst (compare_saved curr prev pairs changes_detected w) = Ok false
  <-> changes_detected = false /\ Forall (records_agree curr prev) pairs.
Proof.
  revert changes_detected. induction pairs as [|[c p] pairs IH]; intros b.
  - cbn. split; [intros [= ->]; auto|intros [-> _]; reflexivity].
  - cbn [compare_saved]. rewrite Forall_cons.
    destruct c as [? cf ? ?|? ?]; [|rewrite IH; cbn; tauto].
    destruct p as [? pf ? ?|? ?]; [|rewrite IH; cbn; tauto].
    cbn [records_agree].
    destruct (files prev !! pf) as [pc|].
    2:{ rewrite IH. split; [intros [? _]; discriminate|].
        intros (_ & (? & ? & _) & _). discriminate. }
    destruct (files curr !! cf) as [cc|].
    2:{ cbn. split; [discriminate|]. intros (_ & (? & _ & ?) & _). discriminate. }
    destruct (String.eqb_spec cc pc) as [->|Hne]; cbn [negb]; rewrite IH.
    + split; [intros [? ?]; eauto|tauto].
    + split; [intros [? _]; discriminate|].
      intros (_ & (x & [= ->] & [= ->]) & _). contradiction.
Qed.

(** X19.  [_has_content_changed] changes nothing.  It answers false exactly
    when the directory with the second greatest name has a manifest, the
    given directory has a manifest with as many records, and wherever the
    two records at the same place are both successful, the two files are
    there and hold the same text, compared as it is. *)
Theorem has_content_changed_false_iff current w :
  snd (_has_content_changed current w) = w
  /\ (fst (_has_content_changed current w) = Ok false
      <-> exists name prev previous_manifest curr current_manifest,
            previous w name prev /\ manifest prev = Some previous_manifest
            /\ snapshots w !! current = Some curr
            /\ manifest curr = Some current_manifest
            /\ length (m_pages current_manifest) = length (m_pages previous_manifest)
            /\ Forall (records_agree curr prev)
                 (combine (m_pages current_manifest) (m_pages previous_manifest))).
Proof.
  unfold _has_content_changed. unfold bind at 1 3.
  destruct (get_previous_snapshot_cases w) as (r & -> & Hsome & _).
  destruct r as [[name prev]|].
  2:{ split; [reflexivity|]. split; [discriminate|].
      intros (n & p & _ & _ & _ & Hp & _). apply Hsome in Hp. discriminate. }
  assert (forall n p, previous w n p -> n = name /\ p = prev) as Huniq.
  { intros n p Hp. apply Hsome in Hp. injection Hp as -> ->. auto. }
  pose proof (proj1 (Hsome name prev) eq_refl) as Hprev.
  destruct (manifest prev) as [pm|] eqn:Epm.
  2:{ split; [reflexivity|]. split; [discriminate|].
      intros (n & p & m & _ & _ & Hp & Hm & _). apply Huniq in Hp as [-> ->].
      congruence. }
  unfold bind, get_world. cbn [fst snd].
  destruct (snapshots w !! current) as [curr|] eqn:Ec.
  2:{ split; [reflexivity|]. split; [discriminate|].
      intros (_ & _ & _ & c & _ & _ & _ & ? & _). discriminate. }
  destruct (manifest curr) as [cm|] eqn:Ecm.
  2:{ split; [reflexivity|]. split; [discriminate|].
      intros (_ & _ & _ & c & m & _ & _ & [= <-] & ? & _). congruence. }
  destruct (Nat.eqb_spec (length (m_pages cm)) (length (m_pages pm))) as [Hl|Hl];
    cbn [negb].
  2:{ split; [reflexivity|]. split; [discriminate|].
      intros (n & p & m & c & m' & Hp & Hm & [= <-] & Hm' & Hlen & _).
      apply Huniq in Hp as [-> ->]. congruence. }
  split; [apply compare_saved_read_only|].
  rewrite compare_saved_false. split.
  - intros [_ HF]. exists name, prev, pm, curr, cm. auto 10.
  - intros (n & p & m & c & m' & Hp & Hm & [= <-] & Hm' & _ & HF).
    apply Huniq in Hp as [-> ->]. split; [reflexivity|]. congruence.
Qed.

(** ** The bundle *)

Lemma copy_assets_lookup store assets_used path content :
  copy_assets store assets_used !! path = Some content
  <-> path ∈ assets_used /\ store !! path = Some content.
Proof.
  induction assets_used as [|p l IH]; cbn.
  - rewrite lookup_empty, elem_of_nil. split; [discriminate|tauto].
  - rewrite elem_of_cons. destruct (store !! p) as [c|] eqn:E.
    + destruct (decide (p = path)) as [->|Hne].
      * rewrite lookup_insert_eq, E. split; [intros [= ->]; auto|tauto].
      * rewrite lookup_insert_ne by exact Hne. rewrite IH.
        split; [tauto|]. intros [[->|H] Hs]; [contradiction|tauto].
    + rewrite IH. split; [tauto|].
      intros [[->|H] Hs]; [congruence|tauto].
Qed.

Lemma bundle_pages_read_only dir pages out w :
  snd (bundle_pages dir pages out w) = w.
Proof.
  revert out. induction pages as [|[url file o assets|url e] pages IH]; intros out;
    cbn [bundle_pages]; [reflexivity| |apply IH].
  destruct (files dir !! file); [apply IH|reflexivity].
Qed.

Lemma bundle_pages_spec dir pages out w :
  match fst (bundle_pages dir pages out w) with
  | Ok files' =>
      Forall (fun file => is_Some (files dir !! file)) (page_files pages)
      /\ forall name,
           files' !! name
           = if bool_decide (name ∈ page_files pages)
             then bundled <$> files dir !! name
             else out !! name
  | Raise e =>
      e = "FileNotFoundError"
      /\ Exists (fun file => files dir !! file = None) (page_files pages)
  end.
Proof.
  revert out. induction pages as [|[url file o assets|url e] pages IH]; intros out;
    cbn [bundle_pages page_files flat_map].
  - cbn. split; [constructor|]. intros name. reflexivity.
  - cbn [app]. destruct (files dir !! file) as [html|] eqn:E.
    + specialize (IH (<[file := bundled html]> out)). fold (bundled html).
      destruct (fst (bundle_pages dir pages (<[file := bundled html]> out) w)) as [f|e].
      * destruct IH as [HF Hl]. split; [constructor; [rewrite E; eauto|exact HF]|].
        intros name. rewrite Hl.
        destruct (decide (name ∈ page_files pages)) as [Hin|Hnin].
        -- rewrite !bool_decide_eq_true_2; [reflexivity| |exact Hin].
           apply elem_of_cons. auto.
        -- rewrite (bool_decide_eq_false_2 _ Hnin).
           destruct (decide (file = name)) as [<-|Hne].
           ++ rewrite bool_decide_eq_true_2 by (apply elem_of_cons; auto).
              rewrite lookup_insert_eq, E. reflexivity.
           ++ rewrite bool_decide_eq_false_2.
              ** apply lookup_insert_ne, Hne.
              ** rewrite elem_of_cons. intros [?|?]; [congruence|contradiction].
      * destruct IH as [-> HE]. split; [reflexivity|]. apply Exists_cons. auto.
    + cbn. split; [reflexivity|]. apply Exists_cons. auto.
  - apply IH.
Qed.

Section Bundle.
Variable base_url : string.

Local Abbreviation create := (_create_bundled_snapshot base_url).

Lemma bundle_assets_dom store (assets_used : gset string) :
  dom (copy_assets store (elements assets_used)) ⊆ assets_used
  /\ (dom (copy_assets store (elements assets_used)) = assets_used
      <-> forall path, path ∈ assets_used -> is_Some (store !! path)).
Proof.
  assert (forall path, path ∈ dom (copy_assets store (elements assets_used))
                       <-> path ∈ assets_used /\ is_Some (store !! path)) as H.
  { intros path. rewrite elem_of_dom. unfold is_Some.
    setoid_rewrite copy_assets_lookup. setoid_rewrite elem_of_elements.
    split; [intros [c [? ?]]; eauto|intros [? [c ?]]; eauto]. }
  split.
  - intros path Hp. apply H in Hp. tauto.
  - split.
    + intros E path Hp. rewrite <- E in Hp. apply H in Hp. tauto.
    + intros Hall. apply set_eq. intros path. rewrite H. split; [tauto|auto].
Qed.

(** X20.  [_create_bundled_snapshot] changes nothing on disk, and raises
    exactly when the directory, its manifest or the file of a successful
    page is not there.  The bundle holds the successful pages with their
    asset references rewritten, the manifest and the summary of the
    directory, and those assets of the manifest that are in the store; the
    README counts the assets of the manifest, in the store or not, so its
    count is right exactly when none is missing. *)
Theorem create_bundled_snapshot_spec snapshot_dir m w :
  snd (create snapshot_dir m w) = w
  /\ match fst (create snapshot_dir m w) with
     | Ok b =>
         exists dir manifest_file,
           snapshots w !! snapshot_dir = Some dir
           /\ manifest dir = Some manifest_file
           /\ Forall (fun file => is_Some (files dir !! file)) (page_files (m_pages m))
           /\ bundle_manifest b = manifest_file /\ bundle_changes b = changes dir
           /\ (forall name,
                 bundle_files b !! name
                 = if bool_decide (name ∈ page_files (m_pages m))
                   then bundled <$> files dir !! name
                   else None)
           /\ (forall path content,
                 bundle_assets b !! path = Some content
                 <-> path ∈ assets_used_of (m_pages m)
                     /\ asset_files w !! path = Some content)
           /\ readme_pages b = length (m_pages m)
           /\ size (bundle_assets b) <= readme_assets b
           /\ (size (bundle_assets b) = readme_assets b
               <-> forall path, path ∈ assets_used_of (m_pages m) -> stored w path)
     | Raise e =>
         e = "FileNotFoundError"
         /\ match snapshots w !! snapshot_dir with
            | None => True
            | Some dir =>
                manifest dir = None
                \/ Exists (fun file => files dir !! file = None) (page_files (m_pages m))
            end
     end.
Proof.
  destruct (snapshots w !! snapshot_dir) as [dir|] eqn:Ed.
  2:{ unfold _create_bundled_snapshot, bind, get_world, raise. rewrite Ed. cbn. auto. }
  pose proof (bundle_pages_read_only dir (m_pages m) ∅ w) as Hro.
  pose proof (bundle_pages_spec dir (m_pages m) ∅ w) as Hsp.
  unfold _create_bundled_snapshot, bind, get_world. rewrite Ed.
  destruct (bundle_pages dir (m_pages m) ∅ w) as [[pages|e] w1]; cbn [fst snd] in *;
    subst w1.
  2:{ split; [reflexivity|]. destruct Hsp as [-> HE]. split; [reflexivity|]. auto. }
  destruct Hsp as [HF Hl].
  destruct (manifest dir) as [mf|] eqn:Em.
  2:{ unfold raise. cbn. auto. }
  unfold ret. cbn [fst snd]. split; [reflexivity|].
  exists dir, mf. cbn [bundle_files bundle_assets bundle_manifest bundle_changes
                        readme_pages readme_assets].
  destruct (bundle_assets_dom (asset_files w) (assets_used_of (m_pages m)))
    as [Hsub Heq].
  split; [reflexivity|]. split; [exact Em|]. split; [exact HF|].
  split; [reflexivity|]. split; [reflexivity|].
  split; [intros name; rewrite Hl, lookup_empty; reflexivity|].
  split; [intros path content; rewrite copy_assets_lookup, elem_of_elements;
          reflexivity|].
  split; [reflexivity|].
  rewrite <- size_dom. split; [apply subseteq_size, Hsub|].
  unfold stored. rewrite <- Heq. split.
  - intros Hsz. apply (set_subseteq_size_eq _ _ Hsub). lia.
  - intros ->. reflexivity.
Qed.

End Bundle.

(** ** The identifier of the uploaded item *)

Lemma replace_char_absent (a : ascii) rep s :
  forallb (fun c => negb (char_eqb c a)) s = true ->
  replace_all_skip [a] rep 0 s = s.
Proof.
  induction s as [|c s IH]; [reflexivity|]. cbn [forallb].
  intros H. apply andb_true_iff in H as [Hc Hs].
  rewrite replace_all_step by discriminate.
  unfold starts_with. cbn [prefix_by]. rewrite andb_true_r.
  replace (char_eqb a c) with false.
  - rewrite (IH Hs). reflexivity.
  - symmetry. apply not_true_is_false. intros E. apply char_eqb_eq in E. subst c.
    rewrite char_eqb_refl in Hc. discriminate.
Qed.

Lemma plain_stamp_kept timestamp :
  plain_stamp timestamp ->
  str_replace (str_replace timestamp ":" "-") " " "_" = timestamp.
Proof.
  unfold plain_stamp, str_replace. intros H.
  change (explode ":") with [":"%char]. change (explode " ") with [" "%char].
  rewrite (replace_char_absent ":"), implode_explode.
  - rewrite (replace_char_absent " "); [apply implode_explode|].
    eapply forallb_imp; [|exact H]. intros c Hc. unfold one_of in Hc. cbn in Hc.
    apply negb_true_iff in Hc. apply orb_false_iff in Hc as [_ Hc].
    apply orb_false_iff in Hc as [Hc _]. apply negb_true_iff. exact Hc.
  - eapply forallb_imp; [|exact H]. intros c Hc. unfold one_of in Hc. cbn in Hc.
    apply negb_true_iff in Hc. apply orb_false_iff in Hc as [Hc _].
    apply negb_true_iff. exact Hc.
Qed.

(** X21.  The identifier under which a snapshot is uploaded ends in
    [-snapshot-] and the time stamp as it is, for a time stamp without
    colon and space, so two snapshots of a site with different time stamps
    get different identifiers. *)
Theorem item_id_of_snapshots domain timestamp1 timestamp2 :
  plain_stamp timestamp1 -> plain_stamp timestamp2 ->
  endswith (item_id domain timestamp1) ("-snapshot-" +:+ timestamp1) = true
  /\ (item_id domain timestamp1 = item_id domain timestamp2 -> timestamp1 = timestamp2).
Proof.
  intros H1 H2. unfold item_id. rewrite !plain_stamp_kept by assumption. split.
  - unfold endswith. rewrite (explode_app (str_replace domain "." "-")).
    apply ends_with_app.
  - intros E. apply (f_equal explode) in E. rewrite !explode_app in E.
    apply app_inv_head in E. apply app_inv_head in E.
    rewrite <- (implode_explode timestamp1), <- (implode_explode timestamp2), E.
    reflexivity.
Qed.

(** ** Instances *)

Lemma original_filename_shape_witness :
  endswith (original_filename "about.html") "_original.html" = true
  /\ original_filename "about.html" <> "about.html"
  /\ has_slash (original_filename "about.html") = has_slash "about.html".
Proof. apply (original_filename_shape "about.html"). reflexivity. Defined.

Lemma example_world_top name :
  is_Some (snapshots example_world !! name) ->
  String.leb name (now_snapshot example_clock) = true.
Proof.
  intros [d H]. unfold example_world in H. cbn [snapshots] in H.
  apply lookup_singleton_Some in H as [<- _]. reflexivity.
Qed.




Lemma colliding_pages_always_change_witness :
  let pages := ["https://example.com/a/b"; "https://example.com/a_b"] in
  let r := example_snapshot http_two_pages pages example_clock empty_world in
  fst (_has_content_changed_from_temp html_parser "20240103_000000"
         ([] ++ TempOk "https://example.com/a/b" "<p>first</p>"
             :: [] ++ TempOk "https://example.com/a_b" "<p>second</p>" :: [])
         (snd r))
  = Ok true.
Proof.
  intros pages r.
  apply (colliding_pages_always_change html_parser urljoin_absolute
           simple_url_path toy_hexdigest http_two_pages "https://example.com"
           "snapshots/example.com" example_clock (Some pages) empty_world
           (log_request "https://example.com/a_b"
              (log_request "https://example.com/a/b" empty_world))
           (snd r) "20240103_000000"
           [] "https://example.com/a/b" "<p>first</p>"
           [] "https://example.com/a_b" "<p>second</p>" []).
  - vm_compute. reflexivity.
  - vm_compute. reflexivity.
  - intros name [d H]. cbn in H. rewrite lookup_empty in H. discriminate.
  - vm_compute. reflexivity.
  - intros [].
  - intros H. vm_compute in H. discriminate.
Defined.

Lemma world_with_logo_sound : cache_sound world_with_logo.
Proof.
  intros h path H. unfold world_with_logo in H. cbn [asset_cache] in H.
  apply lookup_singleton_Some in H as [<- <-]. vm_compute. eauto.
Qed.

Lemma save_asset_returns_stored_file_witness :
  exists path w',
    _save_asset simple_url_path toy_hexdigest "https://example.com/site.css"
      [Byte.x62; Byte.x6f; Byte.x64; Byte.x79] world_with_logo = (Ok path, w')
    /\ stored w' path
    /\ asset_cache w' !! _get_file_hash toy_hexdigest
                           [Byte.x62; Byte.x6f; Byte.x64; Byte.x79] = Some path
    /\ cache_sound w'
    /\ forall q, stored world_with_logo q -> stored w' q.
Proof.
  apply (save_asset_returns_stored_file simple_url_path toy_hexdigest
           "https://example.com/site.css" [Byte.x62; Byte.x6f; Byte.x64; Byte.x79]
           world_with_logo).
  exact world_with_logo_sound.
Defined.

Lemma snapshot_assets_stored_witness :
  let r := example_snapshot http_logo ["https://example.com/"] example_clock
             world_with_logo in
  cache_sound (snd r)
  /\ exists d m,
       snapshots (snd r) !! now_snapshot example_clock = Some d /\ manifest d = Some m
       /\ Forall (fun page => Forall (stored (snd r)) (page_assets page)) (m_pages m).
Proof.
  intros r.
  apply (snapshot_assets_stored html_parser urljoin_absolute simple_url_path
           toy_hexdigest http_logo "https://example.com" "snapshots/example.com"
           example_clock (Some ["https://example.com/"]) world_with_logo (snd r)).
  - exact world_with_logo_sound.
  - vm_compute. reflexivity.
Defined.

Lemma world_with_logo_addressed : content_addressed toy_hexdigest world_with_logo.
Proof.
  intros h path H. unfold world_with_logo in H. cbn [asset_cache] in H.
  apply lookup_singleton_Some in H as [<- <-]. split.
  - exists [Byte.x89; Byte.x50; Byte.x4e; Byte.x47]. split; vm_compute; reflexivity.
  - exists "images", ".png", (explode "png"). repeat split.
Qed.

Lemma save_asset_content_addressed_witness :
  exists path w',
    _save_asset simple_url_path toy_hexdigest "https://example.com/site.css"
      [Byte.x62; Byte.x6f; Byte.x64; Byte.x79] world_with_logo = (Ok path, w')
    /\ content_addressed toy_hexdigest w'
    /\ asset_cache w' !! _get_file_hash toy_hexdigest
                           [Byte.x62; Byte.x6f; Byte.x64; Byte.x79] = Some path
    /\ (exists stored_content,
           asset_files w' !! path = Some stored_content
           /\ _get_file_hash toy_hexdigest stored_content
              = _get_file_hash toy_hexdigest [Byte.x62; Byte.x6f; Byte.x64; Byte.x79])
    /\ forall h cached_path,
         asset_cache world_with_logo !! h = Some cached_path ->
         asset_cache w' !! h = Some cached_path
         /\ asset_files w' !! cached_path = asset_files world_with_logo !! cached_path.
Proof.
  apply (save_asset_content_addressed simple_url_path toy_hexdigest toy_hexdigest_hex
           "https://example.com/site.css" [Byte.x62; Byte.x6f; Byte.x64; Byte.x79]
           world_with_logo).
  exact world_with_logo_addressed.
Defined.


Lemma item_id_of_snapshots_witness :
  endswith (item_id "example.com" "2024-01-02_00-00-00")
           ("-snapshot-" +:+ "2024-01-02_00-00-00") = true
  /\ (item_id "example.com" "2024-01-02_00-00-00"
      = item_id "example.com" "2024-01-03_00-00-00" ->
      "2024-01-02_00-00-00" = "2024-01-03_00-00-00").
Proof.
  apply (item_id_of_snapshots "example.com" "2024-01-02_00-00-00" "2024-01-03_00-00-00");
    reflexivity.
Defined.

Lemma detector_ignores_page_order_witness :
  fst (_has_content_changed_from_temp html_parser "20240102_000000"
         [TempOk "https://example.com/" "<p>old</p>";
          TempOk "https://example.com/about" "<p>about</p>"] example_world2)
  = fst (_has_content_changed_from_temp html_parser "20240102_000000"
           [TempOk "https://example.com/about" "<p>about</p>";
            TempOk "https://example.com/" "<p>old</p>"] example_world2).
Proof.
  apply (detector_ignores_page_order html_parser "20240102_000000"
           [TempOk "https://example.com/" "<p>old</p>";
            TempOk "https://example.com/about" "<p>about</p>"]
           [TempOk "https://example.com/about" "<p>about</p>";
            TempOk "https://example.com/" "<p>old</p>"] example_world2).
  apply perm_swap.
Defined.


